(** * scylla-migrate: a shallow embedding of the migration engine

    The development follows the Go packages of the repository:
    - [GoStrings], [Sha256], [Fmt], [StrConv], [Time]: the parts of the Go
      standard library the engine calls;
    - [Migration], [Resolver], [Executor]: internal/migration and the
      records of internal/schema;
    - [Driver]: the cluster as the engine sees it through internal/driver
      and internal/schema;
    - [LockManager]: internal/lock;
    - [StatusCmd]: cmd/status.go;
    - [Props]: the notions and the sample data of the statements.

    Go strings are byte sequences: they are modelled by [string], one
    [ascii] per byte.  Go's [int] is 64 bits wide.  Errors are modelled by
    their message. *)

From Stdlib Require Import ZArith NArith Ascii String List Lia Bool.
From stdpp Require Import base option list gmap strings.

Local Open Scope string_scope.
Local Open Scope Z_scope.
Local Open Scope list_scope.

(** Errors are carried as messages; [inl] is the failure. *)
Definition error := string.
Definition result (A : Type) : Type := (error + A)%type.

(** ** Package strings *)
Module GoStrings.

Definition byte_of (c : ascii) : Z := Z.of_N (N_of_ascii c).
Definition chr (n : Z) : ascii := ascii_of_N (Z.to_N n).

Definition CR : string := String (chr 13) "".
Definition LF : string := String (chr 10) "".
Definition CRLF : string := String (chr 13) (String (chr 10) "").
Definition DQUOTE : string := String (chr 34) "".

(** strings.HasPrefix *)
Fixpoint HasPrefix (s prefix : string) : bool :=
  match prefix, s with
  | "", _ => true
  | String p prefix', String c s' =>
      if Ascii.eqb c p then HasPrefix s' prefix' else false
  | String _ _, "" => false
  end.

Fixpoint drop_bytes (n : nat) (s : string) : string :=
  match n, s with
  | O, _ => s
  | S n', String _ s' => drop_bytes n' s'
  | S _, "" => ""
  end.

(** strings.TrimPrefix: at most one occurrence of the prefix is removed. *)
Definition TrimPrefix (s prefix : string) : string :=
  if HasPrefix s prefix then drop_bytes (String.length prefix) s else s.

(** strings.Contains *)
Fixpoint Contains (s substr : string) : bool :=
  match s with
  | "" => HasPrefix "" substr
  | String _ s' => HasPrefix s substr || Contains s' substr
  end.

(** strings.ReplaceAll for a non-empty [old]: one pass from the left over
    the non-overlapping occurrences.  [skip] counts the bytes of the
    occurrence being replaced that are still to be passed over. *)
Fixpoint replace_from (skip : nat) (s old new : string) : string :=
  match s with
  | "" => ""
  | String c s' =>
      match skip with
      | S k => replace_from k s' old new
      | O =>
          if HasPrefix s old
          then new +:+ replace_from (String.length old - 1) s' old new
          else String c (replace_from 0 s' old new)
      end
  end.

Definition ReplaceAll (s old new : string) : string := replace_from 0 s old new.

(** The ASCII part of unicode.IsSpace. *)
Definition isSpace (c : ascii) : bool :=
  let n := byte_of c in
  (n =? 9) || (n =? 10) || (n =? 11) || (n =? 12) || (n =? 13) || (n =? 32).

Fixpoint trimLeft (s : string) : string :=
  match s with
  | String c s' => if isSpace c then trimLeft s' else s
  | "" => ""
  end.

(** Drops the trailing white space: a byte is kept when it is no space
    or something is kept after it. *)
Fixpoint trimRight (s : string) : string :=
  match s with
  | "" => ""
  | String c s' =>
      match trimRight s' with
      | "" => if isSpace c then "" else String c ""
      | t => String c t
      end
  end.

(** strings.TrimSpace on an ASCII string: the white space trimmed is
    the ASCII one, not U+0085, U+00A0 and the other Unicode spaces. *)
Definition TrimSpace (s : string) : string := trimRight (trimLeft s).

(** strings.ToUpper on ASCII letters. *)
Definition upper (c : ascii) : ascii :=
  let n := byte_of c in
  if (97 <=? n) && (n <=? 122) then chr (n - 32) else c.

Fixpoint ToUpper (s : string) : string :=
  match s with
  | "" => ""
  | String c s' => String (upper c) (ToUpper s')
  end.

(** Byte-wise comparison, Go's [<], [==] and [>] on strings. *)
Fixpoint compare (a b : string) : comparison :=
  match a, b with
  | "", "" => Eq
  | "", String _ _ => Lt
  | String _ _, "" => Gt
  | String x a', String y b' =>
      match Z.compare (byte_of x) (byte_of y) with
      | Eq => compare a' b'
      | o => o
      end
  end.

Definition ltb (a b : string) : bool :=
  match compare a b with Lt => true | _ => false end.
Definition gtb (a b : string) : bool :=
  match compare a b with Gt => true | _ => false end.

End GoStrings.

(** ** crypto/sha256 (FIPS 180-4), on 32-bit words held in [Z] *)
Module Sha256.

Definition w32 (x : Z) : Z := x mod 2 ^ 32.
Definition add32 (x y : Z) : Z := w32 (x + y).
Definition rotr (n x : Z) : Z :=
  w32 (Z.lor (Z.shiftr x n) (Z.shiftl x (32 - n))).
Definition not32 (x : Z) : Z := 2 ^ 32 - 1 - x.

Definition Ch (x y z : Z) : Z := Z.lxor (Z.land x y) (Z.land (not32 x) z).
Definition Maj (x y z : Z) : Z :=
  Z.lxor (Z.lxor (Z.land x y) (Z.land x z)) (Z.land y z).
Definition bsig0 (x : Z) : Z := Z.lxor (Z.lxor (rotr 2 x) (rotr 13 x)) (rotr 22 x).
Definition bsig1 (x : Z) : Z := Z.lxor (Z.lxor (rotr 6 x) (rotr 11 x)) (rotr 25 x).
Definition ssig0 (x : Z) : Z := Z.lxor (Z.lxor (rotr 7 x) (rotr 18 x)) (Z.shiftr x 3).
Definition ssig1 (x : Z) : Z := Z.lxor (Z.lxor (rotr 17 x) (rotr 19 x)) (Z.shiftr x 10).

(** The integer part of the root of [n] of degree [deg], found bit by bit
    from bit [k-1] down. *)
Fixpoint iroot (deg : Z) (k : nat) (n r : Z) : Z :=
  match k with
  | O => r
  | S k' =>
      let r' := r + 2 ^ Z.of_nat k' in
      if r' ^ deg <=? n then iroot deg k' n r' else iroot deg k' n r
  end.

Definition is_prime (n : nat) : bool :=
  forallb (fun d => negb (n mod d =? 0)%nat) (seq 2 (n - 2)).

(** The first 64 primes. *)
Definition primes : list Z :=
  Eval vm_compute in map Z.of_nat (filter is_prime (seq 2 310)).

(** The first 32 bits of the fractional part of the root of degree [deg]
    of [p]. *)
Definition frac32 (deg : Z) (p : Z) : Z := w32 (iroot deg 36 (p * 2 ^ (32 * deg)) 0).

(** The round constants: from the cube roots of the first 64 primes. *)
Definition K : list Z := Eval vm_compute in map (frac32 3) primes.

(** The eight working words. *)
Record digest : Type := Digest
  { h0 : Z; h1 : Z; h2 : Z; h3 : Z; h4 : Z; h5 : Z; h6 : Z; h7 : Z }.

(** The initial value: from the square roots of the first 8 primes. *)
Definition init : digest :=
  Eval vm_compute in
    match map (frac32 2) (firstn 8 primes) with
    | [a; b; c; d; e; f; g; h] => Digest a b c d e f g h
    | _ => Digest 0 0 0 0 0 0 0 0
    end.

(** Big-endian words of a block. *)
Fixpoint words (p : list Z) : list Z :=
  match p with
  | a :: b :: c :: d :: rest =>
      (((a * 256 + b) * 256 + c) * 256 + d) :: words rest
  | _ => []
  end.

(** The message schedule, newest word first: [rev_w] holds w[i-1], w[i-2], ... *)
Fixpoint schedule (n : nat) (rev_w : list Z) : list Z :=
  match n with
  | O => rev_w
  | S n' =>
      let at_ (k : nat) := nth k rev_w 0 in
      let wi := add32 (add32 (add32 (ssig1 (at_ 1%nat)) (at_ 6%nat))
                             (ssig0 (at_ 14%nat))) (at_ 15%nat) in
      schedule n' (wi :: rev_w)
  end.

Definition round (d : digest) (kw : Z * Z) : digest :=
  let '(Digest a b c d0 e f g h) := d in
  let t1 := add32 (add32 (add32 (add32 h (bsig1 e)) (Ch e f g)) (fst kw)) (snd kw) in
  let t2 := add32 (bsig0 a) (Maj a b c) in
  Digest (add32 t1 t2) a b c (add32 d0 t1) e f g.

Definition block (d : digest) (p : list Z) : digest :=
  let w := rev (schedule 48 (rev (words p))) in
  let r := fold_left round (combine K w) d in
  Digest (add32 (h0 d) (h0 r)) (add32 (h1 d) (h1 r)) (add32 (h2 d) (h2 r))
         (add32 (h3 d) (h3 r)) (add32 (h4 d) (h4 r)) (add32 (h5 d) (h5 r))
         (add32 (h6 d) (h6 r)) (add32 (h7 d) (h7 r)).

Fixpoint be_bytes (n : nat) (x : Z) : list Z :=
  match n with
  | O => []
  | S n' => (x / 256 ^ Z.of_nat n') mod 256 :: be_bytes n' x
  end.

(** Padding: 0x80, zeros up to 56 mod 64, the bit length on 8 bytes. *)
Definition pad (msg : list Z) : list Z :=
  let len := Z.of_nat (length msg) in
  let zeros := Z.to_nat ((55 - len) mod 64) in
  msg ++ 128 :: repeat 0 zeros ++ be_bytes 8 (8 * len).

Fixpoint blocks (fuel : nat) (d : digest) (p : list Z) : digest :=
  match fuel, p with
  | S fuel', _ :: _ => blocks fuel' (block d (firstn 64 p)) (skipn 64 p)
  | _, _ => d
  end.

Definition word_bytes (x : Z) : list Z := be_bytes 4 x.

(** sha256.Sum256: the 32 bytes of the digest. *)
Definition Sum256 (msg : list Z) : list Z :=
  let p := pad msg in
  let d := blocks (length p) init p in
  word_bytes (h0 d) ++ word_bytes (h1 d) ++ word_bytes (h2 d) ++ word_bytes (h3 d) ++
  word_bytes (h4 d) ++ word_bytes (h5 d) ++ word_bytes (h6 d) ++ word_bytes (h7 d).

End Sha256.

(** ** Package fmt: the verbs the engine uses *)
Module Fmt.
Import GoStrings.

Definition hexdigit (n : Z) : ascii :=
  if n <? 10 then chr (48 + n) else chr (87 + n).

(** [%x] on a byte array: two lower-case digits per byte. *)
Fixpoint hex (bs : list Z) : string :=
  match bs with
  | [] => ""
  | b :: bs' => String (hexdigit (b / 16)) (String (hexdigit (b mod 16)) (hex bs'))
  end.

(** [%d] on a non-negative number, the digits produced from the right as
    in strconv's formatBits. *)
Fixpoint formatBits (fuel : nat) (u : N) (acc : string) : string :=
  match fuel with
  | O => acc
  | S fuel' =>
      if (u <? 10)%N then String (ascii_of_N (48 + u)) acc
      else formatBits fuel' (u / 10)%N (String (ascii_of_N (48 + u mod 10)) acc)
  end.

(** strconv.Itoa on a natural number. *)
Definition Itoa (n : N) : string := formatBits (S (N.to_nat (N.size n))) n "".

End Fmt.

(** [[]byte(s)] *)
Definition bytes_of (s : string) : list Z :=
  map GoStrings.byte_of (list_ascii_of_string s).

(** ** Package strconv *)
Module StrConv.
Import GoStrings.

Definition intSize : Z := 64.
Definition maxInt : Z := 2 ^ (intSize - 1) - 1.
Definition minInt : Z := - 2 ^ (intSize - 1).

Definition digit_of (c : ascii) : option Z :=
  let n := byte_of c in
  if (48 <=? n) && (n <=? 57) then Some (n - 48) else None.

(** The digit loop of ParseUint in base 10: any other byte is a syntax
    error. *)
Fixpoint parse_digits (s : string) (acc : Z) : option Z :=
  match s with
  | "" => Some acc
  | String c s' =>
      match digit_of c with
      | Some d => parse_digits s' (acc * 10 + d)
      | None => None
      end
  end.

(** strconv.Atoi: an optional sign, then at least one decimal digit; the
    value has to fit [int]. *)
Definition Atoi (s : string) : result Z :=
  let '(neg, body) :=
    match s with
    | String c s' =>
        if Ascii.eqb c "-" then (true, s')
        else if Ascii.eqb c "+" then (false, s')
        else (false, s)
    | "" => (false, "")
    end in
  match body with
  | "" => inl "invalid syntax"
  | _ =>
      match parse_digits body 0 with
      | None => inl "invalid syntax"
      | Some n =>
          let v := if neg then - n else n in
          if (minInt <=? v) && (v <=? maxInt) then inr v
          else inl "value out of range"
      end
  end.

End StrConv.

(** ** internal/migration and internal/schema *)
Module Migration.
Import GoStrings.

Inductive MigrationType : Type := TypeVersioned | TypeUndo | TypeRepeatable.

#[global] Instance MigrationType_eq_dec : EqDecision MigrationType.
Proof. solve_decision. Defined.

(** [string(mig.Type)] *)
Definition type_string (t : MigrationType) : string :=
  match t with
  | TypeVersioned => "versioned"
  | TypeUndo => "undo"
  | TypeRepeatable => "repeatable"
  end.

Record Migration : Type := mkMigration
  { Version : string;
    Description : string;
    Type_ : MigrationType;
    Filename : string;
    FilePath : string;
    Checksum : string;
    Statements : list string;
    RawContent : string }.

Definition set_RawContent (raw : string) (m : Migration) : Migration :=
  mkMigration (Version m) (Description m) (Type_ m) (Filename m) (FilePath m)
              (Checksum m) (Statements m) raw.
Definition set_Checksum (c : string) (m : Migration) : Migration :=
  mkMigration (Version m) (Description m) (Type_ m) (Filename m) (FilePath m)
              c (Statements m) (RawContent m).
Definition set_Statements (l : list string) (m : Migration) : Migration :=
  mkMigration (Version m) (Description m) (Type_ m) (Filename m) (FilePath m)
              (Checksum m) l (RawContent m).

(** schema.AppliedMigration; [AppliedAt] is the time in nanoseconds. *)
Record AppliedMigration : Type := mkApplied
  { aVersion : string;
    aDescription : string;
    aType : string;
    aScript : string;
    aChecksum : string;
    aAppliedBy : string;
    aAppliedAt : Z;
    aExecutionTimeMS : Z;
    aSuccess : bool }.

(** schema.MigrationRecord *)
Record MigrationRecord : Type := mkRecord
  { rVersion : string;
    rDescription : string;
    rType : string;
    rFilename : string;
    rChecksum : string }.

(** *** model.go *)
Definition CompareVersions (a b : string) : Z :=
  match StrConv.Atoi a, StrConv.Atoi b with
  | inr ai, inr bi =>
      if ai <? bi then -1 else if ai >? bi then 1 else 0
  | _, _ =>
      if ltb a b then -1 else if gtb a b then 1 else 0
  end.

(** *** checksum.go *)
Definition CalculateChecksumFromContent (content : string) : string * option error :=
  let normalized := ReplaceAll content CRLF LF in
  let hash := Sha256.Sum256 (bytes_of normalized) in
  (Fmt.hex hash, None).

(** *** parser.go *)
Record scanner : Type := mkScanner
  { statements : list string;
    current : string;
    inSingleQuote : bool;
    inDoubleQuote : bool;
    inLineComment : bool;
    inBlockComment : bool }.

Definition WriteRune (ch : ascii) (b : string) : string := b +:+ String ch "".

(** [i+1 < length && runes[i+1] == c] *)
Definition next_is (rest : string) (c : ascii) : bool :=
  match rest with
  | String d _ => Ascii.eqb d c
  | "" => false
  end.

Definition next_rune (rest : string) : ascii :=
  match rest with
  | String d _ => d
  | "" => "000"%char
  end.

(** One turn of the loop of splitStatements at rune [ch], [rest] being the
    runes after it.  The boolean tells that the turn did [i++], so that
    the next rune is passed over. *)
Definition step (ch : ascii) (rest : string) (st : scanner) : scanner * bool :=
  let '(mkScanner stmts cur sq dq lc bc) := st in
  if lc then
    if Ascii.eqb ch (chr 10)
    then (mkScanner stmts (WriteRune ch cur) sq dq false bc, false)
    else (st, false)
  else if bc then
    if Ascii.eqb ch "*" && next_is rest "/"
    then (mkScanner stmts cur sq dq lc false, true)
    else (st, false)
  else if negb sq && negb dq && Ascii.eqb ch "-" && next_is rest "-" then
    (mkScanner stmts cur sq dq true bc, true)
  else if negb sq && negb dq && Ascii.eqb ch "/" && next_is rest "*" then
    (mkScanner stmts cur sq dq lc true, true)
  else if negb dq && Ascii.eqb ch "'" then
    if sq && next_is rest "'"
    then (mkScanner stmts (WriteRune (next_rune rest) (WriteRune ch cur)) sq dq lc bc, true)
    else (mkScanner stmts (WriteRune ch cur) (negb sq) dq lc bc, false)
  else if negb sq && Ascii.eqb ch (chr 34) then
    (mkScanner stmts (WriteRune ch cur) sq (negb dq) lc bc, false)
  else if negb sq && negb dq && Ascii.eqb ch ";" then
    let stmt := TrimSpace cur in
    (mkScanner (if String.eqb stmt "" then stmts else (stmts ++ [stmt])%list) "" sq dq lc bc, false)
  else
    (mkScanner stmts (WriteRune ch cur) sq dq lc bc, false).

Fixpoint scan_loop (skip : bool) (runes : string) (st : scanner) : scanner :=
  match runes with
  | "" => st
  | String ch rest =>
      if skip then scan_loop false rest st
      else let '(st', sk) := step ch rest st in scan_loop sk rest st'
  end.

(** The script is scanned rune by rune; the model takes one rune per
    byte, which is what the runes of an ASCII script are.  (On other
    scripts the code turns a byte that is no valid UTF-8 into U+FFFD and
    trims Unicode white space as well.) *)
Definition splitStatements (content : string) : result (list string) :=
  let st := scan_loop false content (mkScanner [] "" false false false false) in
  if inSingleQuote st then inl "unterminated single quote in CQL"
  else if inDoubleQuote st then inl "unterminated double quote in CQL"
  else if inBlockComment st then inl "unterminated block comment in CQL"
  else
    let stmt := TrimSpace (current st) in
    inr (if String.eqb stmt "" then statements st else (statements st ++ [stmt])%list).

(** IsDDL, with the ASCII TrimSpace and ToUpper of the model: the
    answer of the code on an ASCII statement. *)
Definition IsDDL (statement : string) : bool :=
  let upper := ToUpper (TrimSpace statement) in
  HasPrefix upper "CREATE" || HasPrefix upper "ALTER" || HasPrefix upper "DROP".

Definition BOM : string := String (chr 239) (String (chr 187) (String (chr 191) "")).

(** The files of the migration directory: os.ReadFile by path. *)
Definition filesystem : Type := string -> result string.

(** ParseMigrationFile writes through the pointer it is given: the
    migration as it is left is returned with the error, also when the
    call fails. *)
Definition ParseMigrationFile (fs : filesystem) (mig : Migration)
  : Migration * option error :=
  match fs (FilePath mig) with
  | inl err =>
      (mig, Some ("failed to read migration file " +:+ FilePath mig +:+ ": " +:+ err))
  | inr content =>
      let raw := content in
      let raw := TrimPrefix raw BOM in
      let mig := set_RawContent raw mig in
      let raw := ReplaceAll raw CRLF LF in
      match CalculateChecksumFromContent raw with
      | (_, Some err) => (mig, Some ("failed to calculate checksum: " +:+ err))
      | (checksum, None) =>
          let mig := set_Checksum checksum mig in
          match splitStatements raw with
          | inl err =>
              (mig, Some ("failed to parse CQL statements in " +:+ Filename mig
                          +:+ ": " +:+ err))
          | inr stmts => (set_Statements stmts mig, None)
          end
      end
  end.

End Migration.

(** *** resolver.go

    The resolver holds pointers to the scanned migrations.  A pointer is
    modelled by the position of the migration in [r.migrations]; parsing
    through a pointer updates the migration at that position. *)
Module Resolver.
Import GoStrings Migration.

Definition ptr : Type := nat.

Definition appliedMap_of (applied : list AppliedMigration) : gmap string AppliedMigration :=
  foldl (fun m a => if aSuccess a then <[aVersion a := a]> m else m) ∅ applied.

(** The loop of GetPendingMigrations from position [i] on; [todo] are the
    migrations at the positions [i], [i+1], ...  The migrations are
    returned as the loop leaves them. *)
Fixpoint pending_loop (fs : filesystem) (appliedMap : gmap string AppliedMigration)
    (i : nat) (todo : list Migration) (pending : list ptr)
  : list Migration * result (list ptr) :=
  match todo with
  | [] => ([], inr pending)
  | mig :: rest =>
      match Type_ mig with
      | TypeVersioned =>
          match appliedMap !! Version mig with
          | None =>
              match ParseMigrationFile fs mig with
              | (mig', Some err) =>
                  (mig' :: rest,
                   inl ("failed to parse migration " +:+ Filename mig +:+ ": " +:+ err))
              | (mig', None) =>
                  let '(rest', r) :=
                    pending_loop fs appliedMap (S i) rest (pending ++ [i]) in
                  (mig' :: rest', r)
              end
          | Some _ =>
              let '(rest', r) := pending_loop fs appliedMap (S i) rest pending in
              (mig :: rest', r)
          end
      | TypeRepeatable =>
          match ParseMigrationFile fs mig with
          | (mig', Some err) =>
              (mig' :: rest,
               inl ("failed to parse migration " +:+ Filename mig +:+ ": " +:+ err))
          | (mig', None) =>
              let key := Version mig' +:+ "_" +:+ Description mig' in
              let pending' :=
                match appliedMap !! key with
                | None => pending ++ [i]
                | Some a =>
                    if String.eqb (aChecksum a) (Checksum mig') then pending
                    else pending ++ [i]
                end in
              let '(rest', r) := pending_loop fs appliedMap (S i) rest pending' in
              (mig' :: rest', r)
          end
      | TypeUndo =>
          let '(rest', r) := pending_loop fs appliedMap (S i) rest pending in
          (mig :: rest', r)
      end
  end.

Definition GetPendingMigrations (fs : filesystem) (migrations : list Migration)
    (applied : list AppliedMigration) : list Migration * result (list ptr) :=
  pending_loop fs (appliedMap_of applied) 0 migrations [].

Fixpoint fileMap_from (i : nat) (migs : list Migration) (m : gmap string ptr)
  : gmap string ptr :=
  match migs with
  | [] => m
  | mig :: rest =>
      fileMap_from (S i) rest
        (if decide (Type_ mig = TypeVersioned) then <[Version mig := i]> m else m)
  end.

Definition no_file_msg (a : AppliedMigration) : string :=
  "applied migration V" +:+ aVersion a +:+ " (" +:+ aDescription a
    +:+ ") has no corresponding file".
Definition parse_failed_msg (a : AppliedMigration) (err : error) : string :=
  "failed to parse V" +:+ aVersion a +:+ " (" +:+ aDescription a +:+ "): " +:+ err.
Definition mismatch_msg (a : AppliedMigration) (current : string) : string :=
  "checksum mismatch for V" +:+ aVersion a +:+ " (" +:+ aDescription a
    +:+ "): recorded=" +:+ aChecksum a +:+ ", current=" +:+ current.

(** One turn of the loop over the applied rows. *)
Definition validate_row (fs : filesystem) (fileMap : gmap string ptr)
    (st : list Migration * list string) (a : AppliedMigration)
  : list Migration * list string :=
  let '(migs, errors) := st in
  if negb (aSuccess a) || String.eqb (aType a) "repeatable" then (migs, errors)
  else
    match fileMap !! aVersion a with
    | None => (migs, errors ++ [no_file_msg a])
    | Some p =>
        match migs !! p with
        | None => (migs, errors)
        | Some fileMig =>
            let '(fileMig', err) := ParseMigrationFile fs fileMig in
            let migs' := <[p := fileMig']> migs in
            match err with
            | Some e => (migs', errors ++ [parse_failed_msg a e])
            | None =>
                if String.eqb (Checksum fileMig') (aChecksum a) then (migs', errors)
                else (migs', errors ++ [mismatch_msg a (Checksum fileMig')])
            end
        end
    end.

Definition ValidateAppliedChecksums (fs : filesystem) (migrations : list Migration)
    (applied : list AppliedMigration) : list Migration * list string :=
  foldl (validate_row fs (fileMap_from 0 migrations ∅)) (migrations, []) applied.

End Resolver.

(** ** Package time: durations are nanoseconds *)
Module Time.
Import GoStrings.

Definition Second : Z := 1000000000.

(** fmtFrac: the [prec] low digits of [v] as a fraction, trailing zeros
    left out, and [v] without them. *)
Fixpoint fmtFrac (prec : nat) (v : N) (acc : string) (print : bool) : string * N :=
  match prec with
  | O => (if print then "." +:+ acc else acc, v)
  | S prec' =>
      let digit := (v mod 10)%N in
      let print := print || negb (digit =? 0)%N in
      fmtFrac prec' (v / 10)%N
              (if print then String (ascii_of_N (48 + digit)) acc else acc) print
  end.

(** Duration.String *)
Definition Duration_String (d : Z) : string :=
  let u := Z.to_N (Z.abs d) in
  let body :=
    if (u <? 1000000000)%N then
      if (u =? 0)%N then "0s"
      else
        let '(prec, unit) :=
          if (u <? 1000)%N then (0%nat, "ns")
          else if (u <? 1000000)%N then (3%nat, String (chr 194) (String (chr 181) "s"))
          else (6%nat, "ms") in
        let '(frac, v) := fmtFrac prec u "" false in
        Fmt.Itoa v +:+ frac +:+ unit
    else
      let '(frac, secs) := fmtFrac 9 u "" false in
      let s := Fmt.Itoa (secs mod 60) +:+ frac +:+ "s" in
      let mins := (secs / 60)%N in
      if (0 <? mins)%N then
        let m := Fmt.Itoa (mins mod 60) +:+ "m" +:+ s in
        let hours := (mins / 60)%N in
        if (0 <? hours)%N then Fmt.Itoa hours +:+ "h" +:+ m else m
      else s in
  if d <? 0 then "-" +:+ body else body.

End Time.

(** ** The driver seen from the engine

    The cluster is the environment: what a call returns and how long it
    takes is given by the environment from what has happened so far. *)
Module Driver.
Import Migration.

(** schema_lock row, times in nanoseconds. *)
Record Lock : Type := mkLock
  { ID : string; LockedBy : string; LockedAt : Z; ExpiresAt : Z }.

Inductive event : Type :=
| EvExecute (stmt : string)
| EvWaitForSchemaAgreement (timeout : Z)
| EvRecordMigration (rec : MigrationRecord) (executionTime : Z) (success : bool)
                    (hostname : string)
| EvLockInsert (lockID owner : string) (lockedAt expiresAt : Z) (ttl : Z)
| EvGetCurrentLock (lockID : string)
| EvForceRelease (lockID : string)
| EvSleep (d : Z).

Record World : Type := mkWorld
  { now : Z;
    history : list event;
    schema_migrations : gmap string AppliedMigration }.

(** What the cluster answers to the call [ev] made in world [w], and the
    time the call takes. *)
Record Cluster : Type := mkCluster
  { exec_error : World -> event -> option error;
    cas_applied : World -> event -> bool;
    lock_row : World -> result Lock;
    latency : World -> event -> Z }.

Definition ErrNotFound : error := "not found".

Definition M (A : Type) : Type := World -> A * World.
Definition ret {A} (a : A) : M A := fun w => (a, w).
Definition bind {A B} (m : M A) (f : A -> M B) : M B :=
  fun w => let '(a, w') := m w in f a w'.

Definition Now : M Z := fun w => (now w, w).
Definition Since (start : Z) : M Z := fun w => (now w - start, w).

Definition passed (c : Cluster) (ev : event) (w : World) : World :=
  mkWorld (now w + latency c w ev) (history w ++ [ev]) (schema_migrations w).

(** Session.Execute on a statement of a migration. *)
Definition Execute (c : Cluster) (stmt : string) : M (option error) :=
  fun w => (exec_error c w (EvExecute stmt), passed c (EvExecute stmt) w).

Definition WaitForSchemaAgreement (c : Cluster) (timeout : Z) : M (option error) :=
  fun w => let ev := EvWaitForSchemaAgreement timeout in
           (exec_error c w ev, passed c ev w).

Definition Sleep (d : Z) : M unit :=
  fun w => (tt, mkWorld (now w + d) (history w ++ [EvSleep d]) (schema_migrations w)).

(** Duration.Milliseconds, for a non-negative duration. *)
Definition Milliseconds (d : Z) : Z := d ÷ 1000000.

(** MetadataManager.RecordMigration: an upsert keyed by [rec.Version]. *)
Definition RecordMigration (c : Cluster) (rec : MigrationRecord) (executionTime : Z)
    (success : bool) (hostname : string) : M (option error) :=
  fun w =>
    let ev := EvRecordMigration rec executionTime success hostname in
    let row := mkApplied (rVersion rec) (rDescription rec) (rType rec) (rFilename rec)
                         (rChecksum rec) hostname (now w)
                         (Milliseconds executionTime) success in
    match exec_error c w ev with
    | Some e => (Some e, passed c ev w)
    | None =>
        (None, mkWorld (now w + latency c w ev) (history w ++ [ev])
                       (<[rVersion rec := row]> (schema_migrations w)))
    end.

End Driver.

(** *** executor.go *)
Module Executor.
Import GoStrings Migration Driver.

Record ExecutionContext : Type := mkContext
  { cluster : Cluster;
    SchemaAgreementTimeout : Z;
    DryRun : bool;
    hostname : string }.

Definition toRecord (mig : Migration) : MigrationRecord :=
  let version :=
    if decide (Type_ mig = TypeRepeatable)
    then Version mig +:+ "_" +:+ Description mig
    else Version mig in
  mkRecord version (Description mig) (type_string (Type_ mig)) (Filename mig)
           (Checksum mig).

Definition execute_failed_msg (i : nat) (filename : string) (err : error) : string :=
  "failed to execute statement " +:+ Fmt.Itoa (N.of_nat (i + 1)) +:+ " in "
    +:+ filename +:+ ": " +:+ err.
Definition agreement_failed_msg (i : nat) (filename : string) (err : error) : string :=
  "schema agreement timeout after statement " +:+ Fmt.Itoa (N.of_nat (i + 1))
    +:+ " in " +:+ filename +:+ ": " +:+ err.
Definition record_failed_msg (err : error) : string :=
  "migration executed successfully but failed to record metadata: " +:+ err.

(** The statement loop of Execute from the statement of index [i] on, and
    what follows the loop. *)
Fixpoint execute_loop (ctx : ExecutionContext) (mig : Migration)
    (rec : MigrationRecord) (start : Z) (i : nat) (stmts : list string)
  : M (option error) :=
  match stmts with
  | [] =>
      bind (Since start) (fun executionTime =>
      bind (RecordMigration (cluster ctx) rec executionTime true (hostname ctx))
        (fun err =>
           match err with
           | Some e => ret (Some (record_failed_msg e))
           | None => ret None
           end))
  | stmt :: rest =>
      bind (Driver.Execute (cluster ctx) stmt) (fun err =>
      match err with
      | Some e =>
          bind (Since start) (fun d =>
          bind (RecordMigration (cluster ctx) rec d false (hostname ctx)) (fun _ =>
          ret (Some (execute_failed_msg i (Filename mig) e))))
      | None =>
          if IsDDL stmt then
            bind (WaitForSchemaAgreement (cluster ctx) (SchemaAgreementTimeout ctx))
              (fun err =>
                 match err with
                 | Some e =>
                     bind (Since start) (fun d =>
                     bind (RecordMigration (cluster ctx) rec d false (hostname ctx))
                       (fun _ => ret (Some (agreement_failed_msg i (Filename mig) e))))
                 | None => execute_loop ctx mig rec start (S i) rest
                 end)
          else execute_loop ctx mig rec start (S i) rest
      end)
  end.

(** The world after the statements [stmts] have all been executed with
    success, each wait for schema agreement after a DDL statement
    included; [None] when one of these calls fails. *)
Fixpoint after_statements (ctx : ExecutionContext) (stmts : list string) (w : World)
  : option World :=
  match stmts with
  | [] => Some w
  | stmt :: rest =>
      match Driver.Execute (cluster ctx) stmt w with
      | (Some _, _) => None
      | (None, w1) =>
          if IsDDL stmt then
            match WaitForSchemaAgreement (cluster ctx) (SchemaAgreementTimeout ctx) w1 with
            | (Some _, _) => None
            | (None, w2) => after_statements ctx rest w2
            end
          else after_statements ctx rest w1
      end
  end.

(** Executor.Execute.  The log lines have no part in the model; the
    recovery from a panic is not modelled, no call of the model panics. *)
Definition Execute (ctx : ExecutionContext) (mig : Migration) : M (option error) :=
  bind Now (fun start =>
  let rec := toRecord mig in
  if DryRun ctx then ret None
  else execute_loop ctx mig rec start 0 (Statements mig)).

End Executor.

(** ** internal/lock *)
Module LockManager.
Import GoStrings Driver.

Definition Second : Z := Time.Second.
Definition MigrationLockID : string := "migration_lock".

Record LockManager : Type := mkLockManager
  { cluster : Cluster; lockID : string; owner : string }.

(** executeLWT on the insert of the lock row. *)
Definition executeLWT (lm : LockManager) (at_ expires ttl : Z) : M (result bool) :=
  fun w =>
    let ev := EvLockInsert (lockID lm) (owner lm) at_ expires ttl in
    (match exec_error (cluster lm) w ev with
     | Some e => inl e
     | None => inr (cas_applied (cluster lm) w ev)
     end, passed (cluster lm) ev w).

Definition GetCurrentLock (lm : LockManager) : M (result Lock) :=
  fun w => (lock_row (cluster lm) w, passed (cluster lm) (EvGetCurrentLock (lockID lm)) w).

Definition forceRelease (lm : LockManager) : M (option error) :=
  fun w => let ev := EvForceRelease (lockID lm) in
           (exec_error (cluster lm) w ev, passed (cluster lm) ev w).

(** [if backoff < 10*time.Second { backoff = backoff * 2 }] *)
Definition next_backoff (backoff : Z) : Z :=
  if backoff <? 10 * Second then backoff * 2 else backoff.

(** The backoff after [k] sleeps of one call of Acquire. *)
Definition backoff_at (k : nat) : Z := Nat.iter k next_backoff (1 * Second).

(** What one turn of the loop of Acquire ends in. *)
Inductive turn : Type :=
| Return (r : option error)
| Continue (backoff : Z).

(** The body of the loop of Acquire.  In the model time passes in the
    calls to the cluster and in the sleeps only, so that the two readings
    of the clock for locked_at and expires_at give one instant; in the
    code the second is the later one. *)
Definition attempt (lm : LockManager) (timeout ttl backoff : Z) : M turn :=
  bind Now (fun t1 =>
  bind Now (fun t2 =>
  bind (executeLWT lm t1 (t2 + timeout) ttl) (fun r =>
  match r with
  | inl err => ret (Return (Some ("failed to execute lock query: " +:+ err)))
  | inr true => ret (Return None)
  | inr false =>
      bind (GetCurrentLock lm) (fun l =>
      let wait :=
        bind (Sleep backoff) (fun _ => ret (Continue (next_backoff backoff))) in
      match l with
      | inl _ => wait
      | inr lock =>
          bind Now (fun t =>
          if t >? ExpiresAt lock then
            bind (forceRelease lm) (fun _ => ret (Continue backoff))
          else wait)
      end)
  end))).

(** The dash of the message, U+2014 in UTF-8. *)
Definition em_dash : string := String (chr 226) (String (chr 128) (String (chr 148) "")).

Definition timeout_msg (timeout : Z) : string :=
  "failed to acquire migration lock within " +:+ Time.Duration_String timeout
    +:+ " " +:+ em_dash +:+ " another migration may be in progress".

(** The loop of Acquire; [fuel] bounds the number of turns, [None] when
    it runs out. *)
Fixpoint acquire_loop (fuel : nat) (lm : LockManager) (timeout ttl deadline backoff : Z)
  : M (option (option error)) :=
  match fuel with
  | O => ret None
  | S fuel' =>
      bind Now (fun t =>
      if t <? deadline then
        bind (attempt lm timeout ttl backoff) (fun r =>
        match r with
        | Return e => ret (Some e)
        | Continue backoff' => acquire_loop fuel' lm timeout ttl deadline backoff'
        end)
      else ret (Some (Some (timeout_msg timeout))))
  end.

(** Acquire.  The TTL is [int(timeout.Seconds()) + 60]; the model takes
    the whole seconds of the timeout, which is what the float64 of
    Seconds gives for a timeout under 16777216 seconds (from there on the
    sum may round up to the next second). *)
Definition Acquire (fuel : nat) (lm : LockManager) (timeout : Z)
  : M (option (option error)) :=
  bind Now (fun t0 =>
  let deadline := t0 + timeout in
  let ttl := timeout ÷ Second + 60 in
  let backoff := 1 * Second in
  acquire_loop fuel lm timeout ttl deadline backoff).

Definition sleeps (h : list event) : list Z :=
  omap (fun ev => match ev with EvSleep d => Some d | _ => None end) h.

End LockManager.

(** ** cmd/status.go *)
Module StatusCmd.
Import GoStrings Migration.

Record appliedInfo : Type := mkInfo
  { iAppliedAt : string; iChecksum : string; iSuccess : bool }.

Record statusEntry : Type := mkEntry
  { eVersion : string;
    eDescription : string;
    eType : string;
    eStatus : string;
    eAppliedAt : string;
    eChecksumMatch : string }.

Section Status.
(** [Time.Format("2006-01-02 15:04:05")] *)
Variable formatTime : Z -> string.

Definition appliedMap_of (applied : list AppliedMigration) : gmap string appliedInfo :=
  foldl (fun m a =>
           <[aVersion a := mkInfo (formatTime (aAppliedAt a)) (aChecksum a) (aSuccess a)]> m)
        ∅ applied.

Definition key_of (mig : Migration) : string :=
  if decide (Type_ mig = TypeRepeatable)
  then Version mig +:+ "_" +:+ Description mig
  else Version mig.

Definition entry_of (appliedMap : gmap string appliedInfo) (mig : Migration)
  : statusEntry :=
  match appliedMap !! key_of mig with
  | Some a =>
      mkEntry (Version mig) (Description mig) (type_string (Type_ mig))
              (if iSuccess a then "Applied" else "Failed")
              (iAppliedAt a)
              (if String.eqb (Checksum mig) (iChecksum a) then "OK" else "MISMATCH")
  | None =>
      mkEntry (Version mig) (Description mig) (type_string (Type_ mig))
              (if decide (Type_ mig = TypeUndo) then "Available" else "Pending")
              "-" "-"
  end.

(** The entries of the status command: every scanned file is parsed
    (errors dropped), then looked up in the map of the applied rows. *)
Definition status_entries (fs : filesystem) (scanned : list Migration)
    (applied : list AppliedMigration) : list statusEntry :=
  let appliedMap := appliedMap_of applied in
  let scanned := map (fun mig => fst (ParseMigrationFile fs mig)) scanned in
  map (entry_of appliedMap) scanned.

End Status.

End StatusCmd.

(** ** Notions used in the statements *)
Module Props.
Import GoStrings.

Definition is_lower_hex (c : ascii) : bool :=
  let n := byte_of c in
  ((48 <=? n) && (n <=? 57)) || ((97 <=? n) && (n <=? 102)).

Fixpoint all_chars (p : ascii -> bool) (s : string) : bool :=
  match s with
  | "" => true
  | String c s' => p c && all_chars p s'
  end.

Definition is_digit (c : ascii) : bool :=
  let n := byte_of c in (48 <=? n) && (n <=? 57).

(** A digit string: one decimal digit at least, nothing else. *)
Definition digits (s : string) : bool :=
  match s with
  | "" => false
  | _ => all_chars is_digit s
  end.

(** The number a digit string denotes, leading zeros allowed. *)
Fixpoint value_from (acc : Z) (s : string) : Z :=
  match s with
  | "" => acc
  | String c s' => value_from (acc * 10 + (byte_of c - 48)) s'
  end.

Definition value (s : string) : Z := value_from 0 s.

(** A digit string whose number fits Go's [int]. *)
Definition fits_int (s : string) : Prop :=
  digits s = true /\ value s <= StrConv.maxInt.

(** The checksum ParseMigrationFile stores for a file of content [x]. *)
Definition parsed_checksum (x : string) : string :=
  Migration.Checksum
    (fst (Migration.ParseMigrationFile (fun _ => inr x)
            (Migration.mkMigration "1" "x" Migration.TypeVersioned "V1__x.cql"
                                   "V1__x.cql" "" [] ""))).

(** The condition under which the loop of GetPendingMigrations appends a
    migration. *)
Definition selects (fs : Migration.filesystem)
    (appliedMap : gmap string Migration.AppliedMigration) (mig : Migration.Migration)
  : Prop :=
  match Migration.Type_ mig with
  | Migration.TypeVersioned => appliedMap !! Migration.Version mig = None
  | Migration.TypeRepeatable =>
      let mig' := fst (Migration.ParseMigrationFile fs mig) in
      match appliedMap !! (Migration.Version mig' +:+ "_" +:+ Migration.Description mig') with
      | None => True
      | Some a => String.eqb (Migration.aChecksum a) (Migration.Checksum mig') = false
      end
  | Migration.TypeUndo => False
  end.

(** Sample data for the concrete cases. *)
Definition sample_fs : Migration.filesystem :=
  fun _ => inr "CREATE TABLE foo (id UUID PRIMARY KEY);".

Definition sample_migration (t : Migration.MigrationType) (version filename : string)
  : Migration.Migration :=
  Migration.mkMigration version "a" t filename filename "" [] "".

Definition sample_row (version type : string) (success : bool)
  : Migration.AppliedMigration :=
  Migration.mkApplied version "a" type "script.cql" "0000" "host" 0 0 success.

(** A cluster on which every statement succeeds and schema agreement is
    never reached. *)
Definition no_agreement : Driver.Cluster :=
  Driver.mkCluster
    (fun _ ev => match ev with
                 | Driver.EvWaitForSchemaAgreement _ => Some "timed out"
                 | _ => None
                 end)
    (fun _ _ => true)
    (fun _ => inl Driver.ErrNotFound)
    (fun _ _ => 1000000).

(** A cluster that refuses the statement [bad] and accepts the rest. *)
Definition fails_on (bad : string) : Driver.Cluster :=
  Driver.mkCluster
    (fun _ ev => match ev with
                 | Driver.EvExecute stmt =>
                     if String.eqb stmt bad then Some "unconfigured table" else None
                 | _ => None
                 end)
    (fun _ _ => true)
    (fun _ => inl Driver.ErrNotFound)
    (fun _ _ => 1000000).

Definition sample_context (c : Driver.Cluster) : Executor.ExecutionContext :=
  Executor.mkContext c (30 * Time.Second) false "host".

Definition sample_script : Migration.Migration :=
  Migration.mkMigration "001" "a" Migration.TypeVersioned "V001__a.cql" "V001__a.cql" ""
    ["CREATE TABLE t (id int PRIMARY KEY)"; "INSERT INTO u (id) VALUES (1)"] "".

(** A cluster whose lock is held by another owner for a long time. *)
Definition lock_held : Driver.Cluster :=
  Driver.mkCluster
    (fun _ _ => None)
    (fun _ _ => false)
    (fun _ => inr (Driver.mkLock "migration_lock" "other-0a1b2c3d" 0
                                 (3600 * LockManager.Second)))
    (fun _ _ => 0).

(** A cluster whose insert is refused though the lock row is not there
    when it is read. *)
Definition lock_absent : Driver.Cluster :=
  Driver.mkCluster
    (fun _ _ => None)
    (fun _ _ => false)
    (fun _ => inl Driver.ErrNotFound)
    (fun _ _ => 0).

Definition sample_manager (c : Driver.Cluster) : LockManager.LockManager :=
  LockManager.mkLockManager c LockManager.MigrationLockID "host-0123abcd".

Definition world0 : Driver.World := Driver.mkWorld 0 [] ∅.

End Props.

From Stdlib Require Import Sorted.

(** ** resolver.go: the queries on the scanned migrations *)
Module ResolverQueries.
Import GoStrings Migration Resolver.

(** The loop of GetUndoMigration from position [i] on; [None] is the nil
    pointer. *)
Fixpoint undo_from (i : nat) (migs : list Migration) (version : string) : option ptr :=
  match migs with
  | [] => None
  | mig :: rest =>
      if bool_decide (Type_ mig = TypeUndo) && String.eqb (Version mig) version
      then Some i
      else undo_from (S i) rest version
  end.

Definition GetUndoMigration (migrations : list Migration) (version : string)
  : option ptr :=
  undo_from 0 migrations version.

(** The loop of FilterUpToTarget.  The function only reads through the
    pointers it is given: the migrations stand for them. *)
Fixpoint filter_loop (migrations : list Migration) (target : string)
    (filtered : list Migration) : list Migration :=
  match migrations with
  | [] => filtered
  | mig :: rest =>
      if bool_decide (Type_ mig = TypeRepeatable)
      then filter_loop rest target (filtered ++ [mig])
      else if CompareVersions (Version mig) target <=? 0
           then filter_loop rest target (filtered ++ [mig])
           else filter_loop rest target filtered
  end.

Definition FilterUpToTarget (migrations : list Migration) (target : string)
  : list Migration :=
  filter_loop migrations target [].

(** What FilterUpToTarget keeps. *)
Definition up_to (target : string) (mig : Migration) : bool :=
  bool_decide (Type_ mig = TypeRepeatable)
  || (CompareVersions (Version mig) target <=? 0).

(** The migrations GetPendingMigrations has to parse. *)
Definition needs_parse (appliedMap : gmap string AppliedMigration) (mig : Migration)
  : bool :=
  match Type_ mig with
  | TypeVersioned => bool_decide (appliedMap !! Version mig = None)
  | TypeRepeatable => true
  | TypeUndo => false
  end.

(** What one applied row adds to the errors of ValidateAppliedChecksums,
    read from the files of the scanned migrations. *)
Definition row_verdict (fs : filesystem) (migrations : list Migration)
    (a : AppliedMigration) : list string :=
  if negb (aSuccess a) || String.eqb (aType a) "repeatable" then []
  else
    match fileMap_from 0 migrations ∅ !! aVersion a with
    | None => [no_file_msg a]
    | Some p =>
        match migrations !! p with
        | None => []
        | Some mig =>
            match ParseMigrationFile fs mig with
            | (_, Some e) => [parse_failed_msg a e]
            | (mig', None) =>
                if String.eqb (Checksum mig') (aChecksum a) then []
                else [mismatch_msg a (Checksum mig')]
            end
        end
    end.

(** The row [a] with the type [t] in place of its own. *)
Definition with_type (t : string) (a : AppliedMigration) : AppliedMigration :=
  mkApplied (aVersion a) (aDescription a) t (aScript a) (aChecksum a) (aAppliedBy a)
            (aAppliedAt a) (aExecutionTimeMS a) (aSuccess a).

End ResolverQueries.

(** ** executor.go: ExecuteAll and the helper of the log lines *)
Module ExecutorAll.
Import GoStrings Migration Driver Executor.

(** The loop of ExecuteAll at the migration of index [i]; [total] is the
    length of the list given to ExecuteAll. *)
Fixpoint execute_all_loop (ctx : ExecutionContext) (i : nat) (migrations : list Migration)
    (total : nat) : M (nat * option error) :=
  match migrations with
  | [] => ret (total, None)
  | mig :: rest =>
      bind (Executor.Execute ctx mig) (fun err =>
      match err with
      | Some e => ret (i, Some e)
      | None => execute_all_loop ctx (S i) rest total
      end)
  end.

Definition ExecuteAll (ctx : ExecutionContext) (migrations : list Migration)
  : M (nat * option error) :=
  execute_all_loop ctx 0 migrations (length migrations).

(** The world after the migrations [migs] have all been executed without
    error; [None] when one of them fails. *)
Fixpoint after_migrations (ctx : ExecutionContext) (migs : list Migration) (w : World)
  : option World :=
  match migs with
  | [] => Some w
  | mig :: rest =>
      match Executor.Execute ctx mig w with
      | (Some _, _) => None
      | (None, w') => after_migrations ctx rest w'
      end
  end.

(** The calls that the statements [stmts] ask for: each statement, and a
    wait for schema agreement after each DDL statement. *)
Definition calls_of (timeout : Z) (stmts : list string) : list event :=
  flat_map (fun stmt =>
              EvExecute stmt
              :: (if IsDDL stmt then [EvWaitForSchemaAgreement timeout] else []))
           stmts.

Definition is_record (ev : event) : bool :=
  match ev with
  | EvRecordMigration _ _ _ _ => true
  | _ => false
  end.

End ExecutorAll.

(** ** lock.go: Release, and what the inserts of Acquire carry *)
Module LockRelease.
Import GoStrings Driver LockManager.

(** The calls Release makes. *)
Inductive call : Type :=
| CasDelete (lockID owner : string)
| ForceDelete (lockID : string).

(** What the cluster answers to the conditional delete and, if it is
    asked, to the unconditional one. *)
Record Answers : Type := mkAnswers
  { cas_delete : result bool; force_delete : option error }.

Definition release_failed_msg (err ferr : error) : string :=
  "failed to release lock (LWT: " +:+ err +:+ ", force: " +:+ ferr +:+ ")".

(** LockManager.Release: the calls made and the error returned. *)
Definition Release (lm : LockManager) (ans : Answers) : list call * option error :=
  let cas := CasDelete (lockID lm) (owner lm) in
  match cas_delete ans with
  | inl err =>
      match force_delete ans with
      | Some ferr => ([cas; ForceDelete (lockID lm)], Some (release_failed_msg err ferr))
      | None => ([cas; ForceDelete (lockID lm)], None)
      end
  | inr false => ([cas], None)
  | inr true => ([cas], None)
  end.

(** What Acquire may call for [lm] and [timeout]: an insert of the lock
    row for the lock and the owner of the manager, a read of the lock row,
    a delete of it, a sleep; no call on the migrations.  For a timeout
    under 16777216 seconds the TTL of the insert is the whole seconds of
    the timeout plus 60: there [int(timeout.Seconds())] is the number of
    whole seconds, whereas from 16777216 seconds on the float64 sum of
    Seconds may round up to the next second.  Nothing is asked of
    locked_at and expires_at: the code reads the clock once for each. *)
Definition insert_of (lm : LockManager) (timeout : Z) (ev : event) : Prop :=
  match ev with
  | EvLockInsert id o _ _ ttl =>
      id = lockID lm /\ o = owner lm
      /\ (0 <= timeout < 16777216 * Second -> ttl = timeout ÷ Second + 60)
  | EvExecute _ | EvWaitForSchemaAgreement _ | EvRecordMigration _ _ _ _ => False
  | _ => True
  end.

(** The calls [new] made from the world [w] on end in an insert of the
    lock row for [lm], made in a world [wb] in which the cluster gives the
    [answer]. *)
Definition last_insert (lm : LockManager) (w : World) (new : list event)
    (answer : World -> event -> Prop) : Prop :=
  exists pre wb lockedAt expiresAt ttl,
    let ins := EvLockInsert (lockID lm) (owner lm) lockedAt expiresAt ttl in
    new = pre ++ [ins] /\ history wb = history w ++ pre /\ answer wb ins.

End LockRelease.

(** ** scanner.go *)
Module Scanner.
Import GoStrings Migration.

(** The longest prefix of decimal digits, [\d+] when it is not empty, and
    what follows it. *)
Fixpoint take_digits (s : string) : string * string :=
  match s with
  | "" => ("", "")
  | String c s' =>
      if Props.is_digit c
      then let '(d, rest) := take_digits s' in (String c d, rest)
      else ("", s)
  end.

(** A string of four bytes at least, cut before its last four bytes. *)
Fixpoint ext_split (s : string) : option (string * string) :=
  match s with
  | "" => None
  | String c s' =>
      match ext_split s' with
      | Some (slug, ext) => Some (String c slug, ext)
      | None => if (String.length s =? 4)%nat then Some ("", s) else None
      end
  end.

(** [(.+)\.(cql|sql)$]: the text before the extension, which is not empty
    and holds no newline ([.] does not match one). *)
Definition match_slug (s : string) : option string :=
  match ext_split s with
  | Some (slug, ext) =>
      if (String.eqb ext ".cql" || String.eqb ext ".sql")
         && negb (String.eqb slug "") && negb (Contains slug LF)
      then Some slug else None
  | None => None
  end.

(** [^L(\d+)__(.+)\.(cql|sql)$] for the letter [L]: the digits and the
    slug.  The digits are followed by an underscore, so that they are the
    longest run of digits; the extension is the end of the name, so that
    the slug is all that lies between. *)
Definition match_numbered (letter : string) (filename : string) : option (string * string) :=
  if HasPrefix filename letter then
    let '(d, rest) := take_digits (drop_bytes (String.length letter) filename) in
    if negb (String.eqb d "") && HasPrefix rest "__" then
      match match_slug (drop_bytes 2 rest) with
      | Some slug => Some (d, slug)
      | None => None
      end
    else None
  else None.

Definition versionedPattern : string -> option (string * string) := match_numbered "V".
Definition undoPattern : string -> option (string * string) := match_numbered "U".

(** [^R__(.+)\.(cql|sql)$] *)
Definition repeatablePattern (filename : string) : option string :=
  if HasPrefix filename "R__" then match_slug (drop_bytes 3 filename) else None.

Definition humanize (s : string) : string := ReplaceAll s "_" " ".

Definition parseMigrationFilename (filename fullPath : string) : result Migration :=
  match versionedPattern filename with
  | Some (d, slug) =>
      inr (mkMigration d (humanize slug) TypeVersioned filename fullPath "" [] "")
  | None =>
      match undoPattern filename with
      | Some (d, slug) =>
          inr (mkMigration d (humanize slug) TypeUndo filename fullPath "" [] "")
      | None =>
          match repeatablePattern filename with
          | Some slug =>
              inr (mkMigration "R" (humanize slug) TypeRepeatable filename fullPath "" [] "")
          | None =>
              inl ("filename does not match any migration pattern: " +:+ filename)
          end
      end
  end.

(** The function given to sort.Slice by ScanMigrationsDir. *)
Definition scan_less (mi mj : Migration) : bool :=
  if bool_decide (Type_ mi = TypeRepeatable) && negb (bool_decide (Type_ mj = TypeRepeatable))
  then false
  else if negb (bool_decide (Type_ mi = TypeRepeatable))
          && bool_decide (Type_ mj = TypeRepeatable)
  then true
  else if bool_decide (Type_ mi = TypeRepeatable) && bool_decide (Type_ mj = TypeRepeatable)
  then ltb (Description mi) (Description mj)
  else
    let cmp := CompareVersions (Version mi) (Version mj) in
    if negb (cmp =? 0) then cmp <? 0
    else bool_decide (Type_ mi = TypeVersioned).

(** A list in the order sort.Slice is asked for: no migration is less than
    one that comes before it. *)
Definition sorted_for_scan (migs : list Migration) : Prop :=
  forall i j mi mj,
    (i < j)%nat -> migs !! i = Some mi -> migs !! j = Some mj -> scan_less mj mi = false.

(** os.DirEntry *)
Record DirEntry : Type := mkEntry { Name : string; IsDir : bool }.

(** Signed 64-bit wrap-around of [int]. *)
Definition wrap_int (x : Z) : Z := (x + 2 ^ 63) mod 2 ^ 64 - 2 ^ 63.

(** One of the two blocks of the loop of GetNextVersion: [None] is the
    [continue] after a version that Atoi refuses. *)
Definition version_block (pattern : string -> option (string * string))
    (name : string) (maxVersion : Z) : option Z :=
  match pattern name with
  | Some (d, _) =>
      match StrConv.Atoi d with
      | inl _ => None
      | inr v => Some (if v >? maxVersion then v else maxVersion)
      end
  | None => Some maxVersion
  end.

Fixpoint next_loop (entries : list DirEntry) (maxVersion : Z) : Z :=
  match entries with
  | [] => maxVersion
  | entry :: rest =>
      if IsDir entry then next_loop rest maxVersion
      else
        match version_block versionedPattern (Name entry) maxVersion with
        | None => next_loop rest maxVersion
        | Some m1 =>
            match version_block undoPattern (Name entry) m1 with
            | None => next_loop rest m1
            | Some m2 => next_loop rest m2
            end
        end
  end.

(** What os.ReadDir returns: the entries, or an error that is or is not
    "does not exist". *)
Definition read_dir : Type := (bool * error + list DirEntry)%type.

Definition GetNextVersion (dir : read_dir) : Z * option error :=
  match dir with
  | inl (notExist, err) => if notExist then (1, None) else (0, Some err)
  | inr entries => (wrap_int (next_loop entries 0 + 1), None)
  end.

(** A file (not a directory) whose name matches the Versioned or the Undo
    pattern with the digits [d], a number that fits [int]. *)
Definition counted (e : DirEntry) (d : string) : Prop :=
  IsDir e = false
  /\ (exists slug, versionedPattern (Name e) = Some (d, slug)
                   \/ undoPattern (Name e) = Some (d, slug))
  /\ Props.value d <= StrConv.maxInt.

End Scanner.

(** ** parser.go: what splitStatements returns *)
Module Statements.
Import GoStrings Migration.

(** A script of ASCII bytes: there the runes of the script are its bytes,
    and the white space of strings.TrimSpace is the ASCII white space. *)
Definition ascii_only (s : string) : Prop :=
  Props.all_chars (fun c => byte_of c <? 128) s = true.

(** No single or double quote, no [--] and no [/*]. *)
Fixpoint plain_script (runes : string) : bool :=
  match runes with
  | "" => true
  | String c rest =>
      negb (Ascii.eqb c "'") && negb (Ascii.eqb c (chr 34))
      && negb (Ascii.eqb c "-" && next_is rest "-")
      && negb (Ascii.eqb c "/" && next_is rest "*")
      && plain_script rest
  end.

(** strings.Split(cur + runes, ";") for a [cur] without semicolon. *)
Fixpoint split_semicolon (cur runes : string) : list string :=
  match runes with
  | "" => [cur]
  | String c rest =>
      if Ascii.eqb c ";" then cur :: split_semicolon "" rest
      else split_semicolon (cur +:+ String c "") rest
  end.

(** The pieces trimmed, the empty ones dropped. *)
Definition trimmed_pieces (pieces : list string) : list string :=
  flat_map (fun p => let s := TrimSpace p in if String.eqb s "" then [] else [s]) pieces.

(** Not empty, and without white space at either end. *)
Definition trimmed (s : string) : Prop := s <> "" /\ TrimSpace s = s.

End Statements.

(** ** schema: GetLastAppliedVersion *)
Module Metadata.
Import GoStrings Migration.

(** One turn of the loop of GetLastAppliedVersion. *)
Definition last_turn (a : AppliedMigration) (lastVersion : string) (lastNum : Z)
  : string * Z :=
  if aSuccess a && String.eqb (aType a) "versioned" then
    match StrConv.Atoi (aVersion a) with
    | inl _ =>
        if gtb (aVersion a) lastVersion then (aVersion a, lastNum)
        else (lastVersion, lastNum)
    | inr num =>
        if num >? lastNum then (aVersion a, num) else (lastVersion, lastNum)
    end
  else (lastVersion, lastNum).

Fixpoint last_loop (applied : list AppliedMigration) (lastVersion : string) (lastNum : Z)
  : string :=
  match applied with
  | [] => lastVersion
  | a :: rest =>
      let '(lastVersion, lastNum) := last_turn a lastVersion lastNum in
      last_loop rest lastVersion lastNum
  end.

(** [applied] is what GetAppliedMigrations returned. *)
Definition GetLastAppliedVersion (applied : result (list AppliedMigration))
  : string * option error :=
  match applied with
  | inl err => ("", Some err)
  | inr applied => (last_loop applied "" (-1), None)
  end.

(** The rows the loop looks at. *)
Definition versioned_ok (a : AppliedMigration) : Prop :=
  aSuccess a = true /\ aType a = "versioned".

(** What holds of the two variables of the loop after the rows [seen]:
    [lastNum] bounds the numbers seen, and either nothing was taken yet
    or [lastVersion] is a version seen and [lastNum] its number. *)
Definition last_invariant (seen : list AppliedMigration) (lastVersion : string)
    (lastNum : Z) : Prop :=
  (forall a, a ∈ seen -> versioned_ok a -> Props.value (aVersion a) <= lastNum)
  /\ ((lastVersion = "" /\ lastNum = -1 /\ forall a, a ∈ seen -> ~ versioned_ok a)
      \/ (lastNum = Props.value lastVersion
          /\ exists a, a ∈ seen /\ versioned_ok a /\ aVersion a = lastVersion)).

End Metadata.

(** ** pkg/migrate: Migrator.Migrate *)
Module Migrator.
Import GoStrings Migration Resolver Driver ExecutorAll LockRelease.

(** The migrations the pointers [ptrs] point to. *)
Definition deref (migs : list Migration) (ptrs : list ptr) : list Migration :=
  omap (fun p => migs !! p) ptrs.

(** What [%v] prints for a slice of strings. *)
Fixpoint spaced (items : list string) : string :=
  match items with
  | [] => ""
  | [s] => s
  | s :: rest => s +:+ " " +:+ spaced rest
  end.
Definition format_slice (items : list string) : string := "[" +:+ spaced items +:+ "]".

(** Migrate after the lock has been taken.  [scan] is what
    ScanMigrationsDir returns and [applied] what GetAppliedMigrations
    returns; the resolver and the executor work on the same migrations,
    through pointers. *)
Definition migrate_body (ctx : Executor.ExecutionContext) (fs : filesystem)
    (scan : result (list Migration)) (applied : result (list AppliedMigration))
  : M (option error) :=
  match scan with
  | inl err => ret (Some err)
  | inr scanned =>
      match applied with
      | inl err => ret (Some err)
      | inr applied =>
          let '(migs, errors) := ValidateAppliedChecksums fs scanned applied in
          if (0 <? length errors)%nat
          then ret (Some ("checksum validation failed: " +:+ format_slice errors))
          else
            let '(migs, pending) := GetPendingMigrations fs migs applied in
            match pending with
            | inl err => ret (Some err)
            | inr pending =>
                if (length pending =? 0)%nat then ret None
                else bind (ExecuteAll ctx (deref migs pending)) (fun r => ret (snd r))
            end
      end
  end.

(** Migrator.Migrate: the error returned and the calls of the deferred
    Release, whose error is logged only.  [None] when the loop of Acquire
    runs out of [fuel]. *)
Definition Migrate (fuel : nat) (lm : LockManager.LockManager)
    (ctx : Executor.ExecutionContext) (fs : filesystem) (LockTimeout : Z)
    (scan : result (list Migration)) (applied : result (list AppliedMigration))
    (ans : Answers) : M (option (option error * list call)) :=
  bind (LockManager.Acquire fuel lm LockTimeout) (fun r =>
  match r with
  | None => ret None
  | Some (Some err) => ret (Some (Some ("failed to acquire lock: " +:+ err), []))
  | Some None =>
      bind (migrate_body ctx fs scan applied) (fun err =>
      ret (Some (err, fst (Release lm ans))))
  end).

End Migrator.

(** ** config and driver: the consistency level *)
Module Config.
Import GoStrings.

(** gocql.Consistency; [Any] is its zero value. *)
Inductive Consistency : Type :=
| Any | One | Two | Three | Quorum | All | LocalQuorum | EachQuorum | LocalOne.

(** Config.GetConsistency on the field [Consistency] of the configuration. *)
Definition GetConsistency (level : string) : Consistency * option error :=
  if String.eqb level "any" then (Any, None)
  else if String.eqb level "one" then (One, None)
  else if String.eqb level "two" then (Two, None)
  else if String.eqb level "three" then (Three, None)
  else if String.eqb level "quorum" then (Quorum, None)
  else if String.eqb level "all" then (All, None)
  else if String.eqb level "local_quorum" then (LocalQuorum, None)
  else if String.eqb level "each_quorum" then (EachQuorum, None)
  else if String.eqb level "local_one" then (LocalOne, None)
  else (Any, Some ("unsupported consistency level: " +:+ level)).

(** mustConsistency of the driver, which NewSession applies to the same
    field. *)
Definition mustConsistency (level : string) : Consistency :=
  if String.eqb level "any" then Any
  else if String.eqb level "one" then One
  else if String.eqb level "two" then Two
  else if String.eqb level "three" then Three
  else if String.eqb level "all" then All
  else if String.eqb level "local_quorum" then LocalQuorum
  else if String.eqb level "each_quorum" then EachQuorum
  else if String.eqb level "local_one" then LocalOne
  else Quorum.

Definition levels : list string :=
  ["any"; "one"; "two"; "three"; "quorum"; "all"; "local_quorum"; "each_quorum";
   "local_one"].

End Config.

(** ** cmd/repair.go: the recalculation of the checksums *)
Module Repair.
Import GoStrings Migration Resolver.

Definition set_aChecksum (c : string) (a : AppliedMigration) : AppliedMigration :=
  mkApplied (aVersion a) (aDescription a) (aType a) (aScript a) c (aAppliedBy a)
            (aAppliedAt a) (aExecutionTimeMS a) (aSuccess a).

(** The table schema_migrations is a map from its primary key [version]
    to the row. *)

(** [UPDATE schema_migrations SET checksum = ? WHERE version = ?]: the
    row is written also when it is not there, its other columns null. *)
Definition UpdateChecksum (t : gmap string AppliedMigration) (version newChecksum : string)
  : gmap string AppliedMigration :=
  match t !! version with
  | Some r => <[version := set_aChecksum newChecksum r]> t
  | None => <[version := mkApplied version "" "" "" newChecksum "" 0 0 false]> t
  end.

(** The first loop: the Versioned migrations are parsed, and those that
    parse are entered by version.  Nothing writes to a migration after the
    loop, so the map holds the migrations as the loop leaves them. *)
Fixpoint parse_versioned (fs : filesystem) (scanned : list Migration)
    (fileMap : gmap string Migration) : gmap string Migration :=
  match scanned with
  | [] => fileMap
  | mig :: rest =>
      if decide (Type_ mig = TypeVersioned) then
        match ParseMigrationFile fs mig with
        | (_, Some _) => parse_versioned fs rest fileMap
        | (mig', None) => parse_versioned fs rest (<[Version mig' := mig']> fileMap)
        end
      else parse_versioned fs rest fileMap
  end.

(** The loop over the applied rows; [update_error] is the answer of the
    cluster to UpdateChecksum. *)
Fixpoint recalc_loop (update_error : string -> string -> option error)
    (fileMap : gmap string Migration) (applied : list AppliedMigration)
    (t : gmap string AppliedMigration) (updated : nat) : gmap string AppliedMigration * nat :=
  match applied with
  | [] => (t, updated)
  | a :: rest =>
      if negb (aSuccess a) || negb (String.eqb (aType a) "versioned")
      then recalc_loop update_error fileMap rest t updated
      else
        match fileMap !! aVersion a with
        | None => recalc_loop update_error fileMap rest t updated
        | Some fileMig =>
            if negb (String.eqb (Checksum fileMig) (aChecksum a)) then
              match update_error (aVersion a) (Checksum fileMig) with
              | Some _ => recalc_loop update_error fileMap rest t updated
              | None =>
                  recalc_loop update_error fileMap rest
                    (UpdateChecksum t (aVersion a) (Checksum fileMig)) (S updated)
              end
            else recalc_loop update_error fileMap rest t updated
        end
  end.

(** [repair --recalculate-checksums] on the scanned migrations and the
    rows [applied] read from the table [t]: the table as it is left, and
    the number of rows updated. *)
Definition RecalculateChecksums (fs : filesystem)
    (update_error : string -> string -> option error)
    (scanned : list Migration) (applied : list AppliedMigration) (t : gmap string AppliedMigration)
  : gmap string AppliedMigration * nat :=
  recalc_loop update_error (parse_versioned fs scanned ∅) applied t 0.

(** [rows] are the rows of the table [t], in some order: what
    GetAppliedMigrations returns. *)
Definition rows_of (t : gmap string AppliedMigration) (rows : list AppliedMigration) : Prop :=
  (forall a, a ∈ rows -> t !! aVersion a = Some a)
  /\ (forall v a, t !! v = Some a -> a ∈ rows /\ aVersion a = v).

(** A row as the repair may leave the row [a]. *)
Definition repaired (fileMap : gmap string Migration) (a r : AppliedMigration) : Prop :=
  r = a \/ exists x, fileMap !! aVersion a = Some x /\ r = set_aChecksum (Checksum x) a.

End Repair.

(** * Properties *)

Import GoStrings Migration Props.

(** ** The standard library models against known values *)

Example sha256_constants :
  length Sha256.primes = 64%nat /\ last Sha256.primes = Some 311
  /\ nth 0 Sha256.K 0 = 0x428a2f98 /\ nth 63 Sha256.K 0 = 0xc67178f2
  /\ Sha256.h0 Sha256.init = 0x6a09e667 /\ Sha256.h7 Sha256.init = 0x5be0cd19.
Proof. vm_compute. repeat split. Qed.

Example sha256_empty :
  Fmt.hex (Sha256.Sum256 (bytes_of "")) =
  "e3b0c44298fc1c149afbf4c8996fb92427ae41e4649b934ca495991b7852b855".
Proof. vm_compute. reflexivity. Qed.

Example sha256_abc :
  Fmt.hex (Sha256.Sum256 (bytes_of "abc")) =
  "ba7816bf8f01cfea414140de5dae2223b00361a396177a9cb410ff61f20015ad".
Proof. vm_compute. reflexivity. Qed.

Example sha256_two_blocks :
  Fmt.hex (Sha256.Sum256
    (bytes_of "abcdbcdecdefdefgefghfghighijhijkijkljklmklmnlmnomnopnopq")) =
  "248d6a61d20638b8e5c026930c3e6039a33ce45964ff2167f6ecedd419db06c1".
Proof. vm_compute. reflexivity. Qed.

Example Itoa_examples :
  Fmt.Itoa 0 = "0" /\ Fmt.Itoa 7 = "7" /\ Fmt.Itoa 10 = "10" /\
  Fmt.Itoa 9223372036854775808 = "9223372036854775808".
Proof. vm_compute. repeat split. Qed.

(** ** The tests of the repository *)

Example split_test_multi :
  splitStatements ("CREATE TABLE foo (id UUID PRIMARY KEY);" +:+ LF +:+ "CREATE INDEX ON foo (name);")
  = inr ["CREATE TABLE foo (id UUID PRIMARY KEY)"; "CREATE INDEX ON foo (name)"].
Proof. vm_compute. reflexivity. Qed.

Example split_test_comments :
  splitStatements ("-- just a comment" +:+ LF +:+ "/* another one */") = inr [].
Proof. vm_compute. reflexivity. Qed.

Example split_test_unterminated_string :
  splitStatements "INSERT INTO foo VALUES ('unterminated);"
  = inl "unterminated single quote in CQL".
Proof. vm_compute. reflexivity. Qed.

Example CompareVersions_tests :
  CompareVersions "1" "2" = -1 /\ CompareVersions "10" "9" = 1 /\
  CompareVersions "001" "001" = 0 /\ CompareVersions "abc" "def" = -1 /\
  CompareVersions "def" "abc" = 1 /\ CompareVersions "99" "100" = -1.
Proof. vm_compute. repeat split. Qed.

Example IsDDL_tests :
  IsDDL "  CREATE INDEX ON foo (name)" = true /\ IsDDL "alter table x" = true /\
  IsDDL "SELECT * FROM foo" = false.
Proof. vm_compute. repeat split. Qed.

Example checksum_test_CRLF :
  CalculateChecksumFromContent
    ("CREATE TABLE foo (" +:+ LF +:+ "    id UUID PRIMARY KEY" +:+ LF +:+ ");" +:+ LF)
  = CalculateChecksumFromContent
    ("CREATE TABLE foo (" +:+ CRLF +:+ "    id UUID PRIMARY KEY" +:+ CRLF +:+ ");" +:+ CRLF).
Proof. vm_compute. reflexivity. Qed.

(** ** The statement splitter *)

(** C7. Scenario S5 of the splitter: the statement with the doubled
    apostrophe comes out as one statement, the escape kept as written and
    the literal still open after it; a block comment left open at the end
    of the script is an error; a semicolon inside a double-quoted
    identifier does not end the statement. *)
Theorem splitStatements_scenario_S5 :
  splitStatements "INSERT INTO t(name) VALUES ('it''s a test');"
    = inr ["INSERT INTO t(name) VALUES ('it''s a test')"]
  /\ inSingleQuote
       (scan_loop false "INSERT INTO t(name) VALUES ('it''s"
          (mkScanner [] "" false false false false)) = true
  /\ splitStatements "/* x" = inl "unterminated block comment in CQL"
  /\ splitStatements
       ("CREATE TABLE " +:+ DQUOTE +:+ "my;table" +:+ DQUOTE +:+ " (id UUID PRIMARY KEY);")
     = inr ["CREATE TABLE " +:+ DQUOTE +:+ "my;table" +:+ DQUOTE +:+ " (id UUID PRIMARY KEY)"].
Proof. vm_compute. repeat split. Qed.

(** ** Checksum and parser *)

Lemma ReplaceAll_absent (s old new : string) :
  Contains s old = false -> ReplaceAll s old new = s.
Proof.
  unfold ReplaceAll. induction s as [|c s IH]; [reflexivity|].
  cbn [Contains replace_from]. intros H.
  apply orb_false_iff in H as [Hp Hc]. rewrite Hp, (IH Hc). reflexivity.
Qed.

Lemma HasPrefix_app (p s : string) : HasPrefix (p +:+ s) p = true.
Proof.
  induction p as [|c p IH]; [destruct s; reflexivity|].
  simpl. rewrite Ascii.eqb_refl. exact IH.
Qed.

Lemma drop_bytes_app (p s : string) : drop_bytes (String.length p) (p +:+ s) = s.
Proof. induction p as [|c p IH]; [reflexivity | exact IH]. Qed.

Lemma TrimPrefix_app (p s : string) : TrimPrefix (p +:+ s) p = s.
Proof. unfold TrimPrefix. rewrite HasPrefix_app. apply drop_bytes_app. Qed.

Lemma hex_length (bs : list Z) : String.length (Fmt.hex bs) = (2 * length bs)%nat.
Proof. induction bs as [|b bs IH]; [reflexivity|]. cbn [Fmt.hex String.length length]. lia. Qed.

Lemma Sum256_length (msg : list Z) : length (Sha256.Sum256 msg) = 32%nat.
Proof. unfold Sha256.Sum256. rewrite !length_app. reflexivity. Qed.

Lemma hexdigit_lower (n : Z) : 0 <= n < 16 -> is_lower_hex (Fmt.hexdigit n) = true.
Proof.
  intros H.
  assert (forallb (fun k => is_lower_hex (Fmt.hexdigit (Z.of_nat k))) (seq 0 16) = true)
    as Hall by reflexivity.
  rewrite forallb_forall in Hall. specialize (Hall (Z.to_nat n)).
  rewrite Z2Nat.id in Hall by lia. apply Hall, in_seq. lia.
Qed.

Lemma hex_lower (bs : list Z) :
  Forall (fun b => 0 <= b < 256) bs -> all_chars is_lower_hex (Fmt.hex bs) = true.
Proof.
  induction 1 as [|b bs Hb _ IH]; [reflexivity|].
  cbn [Fmt.hex all_chars]. rewrite IH, !hexdigit_lower; [reflexivity | |].
  - apply Z.mod_pos_bound. lia.
  - split; [apply Z.div_pos; lia | apply Z.div_lt_upper_bound; lia].
Qed.

Lemma be_bytes_range (n : nat) (x : Z) : Forall (fun b => 0 <= b < 256) (Sha256.be_bytes n x).
Proof.
  induction n as [|n IH]; cbn [Sha256.be_bytes]; constructor; [|exact IH].
  apply Z.mod_pos_bound. lia.
Qed.

Lemma Sum256_range (msg : list Z) : Forall (fun b => 0 <= b < 256) (Sha256.Sum256 msg).
Proof.
  unfold Sha256.Sum256, Sha256.word_bytes.
  repeat (apply Forall_app; split); apply be_bytes_range.
Qed.

Lemma parsed_checksum_eq (x : string) :
  parsed_checksum x =
  fst (CalculateChecksumFromContent (ReplaceAll (TrimPrefix x BOM) CRLF LF)).
Proof.
  unfold parsed_checksum, ParseMigrationFile, CalculateChecksumFromContent.
  cbv zeta. cbn [fst].
  destruct (splitStatements _); reflexivity.
Qed.

(** C2, as the code has it. The checksum of a content is the lower-case
    hexadecimal SHA-256, 64 characters, of the content after one pass of
    CRLF-to-LF replacement, and the function never fails; it equals the
    checksum of the replaced content whenever the replaced content holds
    no CRLF any more.  The function itself keeps a byte order mark: the
    mark is removed by ParseMigrationFile before the content is hashed, so
    the checksum stored for a file is the same with and without one mark in
    front of a content that does not start with a mark itself. *)
Theorem checksum_normalized_sha256 (x : string) :
  let checksum c := fst (CalculateChecksumFromContent c) in
  checksum x = Fmt.hex (Sha256.Sum256 (bytes_of (ReplaceAll x CRLF LF)))
  /\ snd (CalculateChecksumFromContent x) = None
  /\ String.length (checksum x) = 64%nat
  /\ all_chars is_lower_hex (checksum x) = true
  /\ (Contains (ReplaceAll x CRLF LF) CRLF = false ->
      checksum x = checksum (ReplaceAll x CRLF LF))
  /\ (HasPrefix x BOM = false -> parsed_checksum (BOM +:+ x) = parsed_checksum x).
Proof.
  cbv zeta. unfold CalculateChecksumFromContent. cbn [fst snd].
  split; [reflexivity|]. split; [reflexivity|].
  split; [|split; [|split]].
  - rewrite hex_length, Sum256_length. reflexivity.
  - apply hex_lower, Sum256_range.
  - intros H. rewrite (ReplaceAll_absent _ _ _ H). reflexivity.
  - intros H. rewrite !parsed_checksum_eq, TrimPrefix_app.
    unfold TrimPrefix. rewrite H. reflexivity.
Qed.

Lemma checksum_normalized_sha256_witness :
  let x := "CREATE TABLE foo (" +:+ CRLF +:+ "  id UUID PRIMARY KEY);" +:+ CRLF in
  Contains (ReplaceAll x CRLF LF) CRLF = false
  /\ HasPrefix x BOM = false
  /\ fst (CalculateChecksumFromContent x)
     = fst (CalculateChecksumFromContent (ReplaceAll x CRLF LF))
  /\ parsed_checksum (BOM +:+ x) = parsed_checksum x.
Proof.
  intros x.
  pose proof (checksum_normalized_sha256 x) as (_ & _ & _ & _ & H1 & H2).
  assert (Contains (ReplaceAll x CRLF LF) CRLF = false) as Hc by (vm_compute; reflexivity).
  assert (HasPrefix x BOM = false) as Hb by (vm_compute; reflexivity).
  exact (conj Hc (conj Hb (conj (H1 Hc) (H2 Hb)))).
Defined.

(** C2 as stated fails on the code.  CalculateChecksumFromContent keeps a
    byte order mark, and one pass of replacement can leave a CRLF behind
    (CR CR LF becomes CR LF); the checksum stored by ParseMigrationFile is
    taken after a second pass and after removing one mark only. *)
Lemma checksum_stability_counterexample :
  let checksum c := fst (CalculateChecksumFromContent c) in
  checksum (BOM +:+ "") <> checksum ""
  /\ checksum (CR +:+ CRLF) <> checksum (ReplaceAll (CR +:+ CRLF) CRLF LF)
  /\ parsed_checksum (BOM +:+ BOM) <> parsed_checksum BOM
  /\ parsed_checksum (CR +:+ CR +:+ CRLF)
     <> parsed_checksum (ReplaceAll (CR +:+ CR +:+ CRLF) CRLF LF).
Proof. vm_compute. repeat split; discriminate. Qed.

(** C9, as the code has it. After a successful ParseMigrationFile the
    field RawContent holds the bytes of the file with one leading byte
    order mark removed; the line endings are those of the file.  The
    checksum and the statements are taken from the content with CRLF
    replaced. *)
Theorem ParseMigrationFile_RawContent (fs : filesystem) (mig mig' : Migration) :
  ParseMigrationFile fs mig = (mig', None) ->
  exists content,
    fs (FilePath mig) = inr content
    /\ RawContent mig' = TrimPrefix content BOM
    /\ Checksum mig' = fst (CalculateChecksumFromContent (ReplaceAll (RawContent mig') CRLF LF))
    /\ splitStatements (ReplaceAll (RawContent mig') CRLF LF) = inr (Statements mig').
Proof.
  unfold ParseMigrationFile. destruct (fs (FilePath mig)) as [e|content]; [discriminate|].
  cbv zeta. unfold CalculateChecksumFromContent at 1.
  destruct (splitStatements _) as [e|stmts] eqn:Hs; [discriminate|].
  intros [= <-]. exists content. cbn. auto.
Qed.

Lemma ParseMigrationFile_RawContent_witness :
  let fs : filesystem := fun _ => inr (BOM +:+ "SELECT 1;" +:+ CRLF) in
  let mig := mkMigration "001" "a" TypeVersioned "V001__a.cql" "V001__a.cql" "" [] "" in
  snd (ParseMigrationFile fs mig) = None
  /\ RawContent (fst (ParseMigrationFile fs mig)) = "SELECT 1;" +:+ CRLF.
Proof.
  intros fs mig.
  assert (ParseMigrationFile fs mig = (fst (ParseMigrationFile fs mig), None)) as H
    by (vm_compute; reflexivity).
  destruct (ParseMigrationFile_RawContent fs mig _ H) as (content & Hc & Hr & _).
  split; [vm_compute; reflexivity|].
  rewrite Hr. injection Hc as <-. vm_compute. reflexivity.
Defined.

(** C9 as stated fails on the code: the CRLF of the file is still in
    RawContent after a successful parse. *)
Lemma RawContent_normalized_counterexample :
  let fs : filesystem := fun _ => inr ("SELECT 1;" +:+ CRLF) in
  let mig := mkMigration "001" "a" TypeVersioned "V001__a.cql" "V001__a.cql" "" [] "" in
  snd (ParseMigrationFile fs mig) = None
  /\ RawContent (fst (ParseMigrationFile fs mig))
     <> ReplaceAll (TrimPrefix ("SELECT 1;" +:+ CRLF) BOM) CRLF LF.
Proof. vm_compute. split; [reflexivity | discriminate]. Qed.

(** ** Version comparison *)

Lemma is_digit_digit_of (c : ascii) :
  is_digit c = true -> StrConv.digit_of c = Some (byte_of c - 48).
Proof. unfold is_digit, StrConv.digit_of. cbv zeta. intros ->. reflexivity. Qed.

Lemma parse_digits_value (s : string) (acc : Z) :
  all_chars is_digit s = true -> StrConv.parse_digits s acc = Some (value_from acc s).
Proof.
  revert acc. induction s as [|c s IH]; intros acc H; [reflexivity|].
  cbn [all_chars] in H. apply andb_true_iff in H as [Hc Hs].
  cbn [StrConv.parse_digits value_from]. rewrite (is_digit_digit_of _ Hc). apply IH, Hs.
Qed.

Lemma value_from_lower (s : string) (acc : Z) :
  all_chars is_digit s = true -> 0 <= acc -> 0 <= value_from acc s.
Proof.
  revert acc. induction s as [|c s IH]; intros acc H Hacc; [exact Hacc|].
  cbn [all_chars] in H. apply andb_true_iff in H as [Hc Hs].
  cbn [value_from]. apply IH; [exact Hs|]. unfold is_digit in Hc. cbv zeta in Hc. lia.
Qed.

(** On a digit string that fits [int], Atoi yields the number denoted. *)
Lemma Atoi_digits (s : string) :
  digits s = true -> value s <= StrConv.maxInt -> StrConv.Atoi s = inr (value s).
Proof.
  intros Hd Hmax. destruct s as [|c s]; [discriminate|].
  unfold digits in Hd. pose proof Hd as Hall.
  cbn [all_chars] in Hd. apply andb_true_iff in Hd as [Hc _].
  pose proof (value_from_lower _ 0 Hall ltac:(lia)) as Hpos.
  unfold StrConv.Atoi.
  assert (Ascii.eqb c "-" = false /\ Ascii.eqb c "+" = false) as [-> ->].
  { unfold is_digit in Hc. cbv zeta in Hc.
    split; apply Ascii.eqb_neq; intros ->; vm_compute in Hc; discriminate. }
  rewrite (parse_digits_value _ 0 Hall). fold (value (String c s)) in *.
  change StrConv.minInt with (- 9223372036854775808).
  change StrConv.maxInt with 9223372036854775807 in *.
  destruct (_ <=? value _) eqn:H1; [|lia].
  destruct (value _ <=? _) eqn:H2; [reflexivity | lia].
Qed.

Lemma CompareVersions_digits (s t : string) :
  digits s = true -> digits t = true ->
  value s <= StrConv.maxInt -> value t <= StrConv.maxInt ->
  CompareVersions s t = Z.sgn (value s - value t).
Proof.
  intros Hs Ht Hms Hmt. unfold CompareVersions.
  rewrite (Atoi_digits s Hs Hms), (Atoi_digits t Ht Hmt).
  destruct (value s <? value t) eqn:H1; [lia|].
  destruct (value s >? value t) eqn:H2; lia.
Qed.

Lemma digit_char (u : N) :
  (u < 10)%N ->
  is_digit (ascii_of_N (48 + u)) = true /\ byte_of (ascii_of_N (48 + u)) - 48 = Z.of_N u.
Proof.
  intros H. unfold is_digit, byte_of. cbv zeta.
  rewrite N_ascii_embedding by lia.
  split; [|lia]. apply andb_true_iff. split; apply Z.leb_le; lia.
Qed.

(** What formatBits writes in front of [acc] are the decimal digits of
    [u]: read after any number [k], they shift [k] by a power of ten and
    add [u]. *)
Lemma formatBits_digits (f : nat) : forall (u : N) (acc : string),
  (u < 2 ^ N.of_nat f)%N ->
  all_chars is_digit acc = true ->
  all_chars is_digit (Fmt.formatBits (S f) u acc) = true
  /\ Fmt.formatBits (S f) u acc <> ""
  /\ exists p, forall k,
       value_from k (Fmt.formatBits (S f) u acc) = value_from (k * p + Z.of_N u) acc.
Proof.
  induction f as [|f IH]; intros u acc Hu Hacc.
  - assert (u = 0%N) as -> by (cbn in Hu; lia).
    cbn [Fmt.formatBits N.ltb N.compare all_chars value_from].
    split; [rewrite Hacc; reflexivity | split; [discriminate|]].
    exists 10. intros k. f_equal.
  - cbn [Fmt.formatBits]. destruct (u <? 10)%N eqn:Hlt.
    + apply N.ltb_lt in Hlt. destruct (digit_char u Hlt) as [Hd Hv].
      cbn [all_chars value_from]. rewrite Hd, Hacc.
      split; [reflexivity | split; [discriminate|]]. exists 10. intros k. rewrite Hv. reflexivity.
    + apply N.ltb_ge in Hlt.
      assert (u mod 10 < 10)%N as Hm by (apply N.mod_lt; lia).
      destruct (digit_char _ Hm) as [Hd Hv].
      assert (u / 10 < 2 ^ N.of_nat f)%N as Hq.
      { apply N.Div0.div_lt_upper_bound.
        replace (N.of_nat (S f)) with (N.succ (N.of_nat f)) in Hu by lia.
        rewrite N.pow_succ_r' in Hu. lia. }
      destruct (IH (u / 10)%N (String (ascii_of_N (48 + u mod 10)) acc) Hq)
        as (Ha & Hne & p & Hp).
      { cbn [all_chars]. rewrite Hd, Hacc. reflexivity. }
      split; [exact Ha | split; [exact Hne|]].
      exists (p * 10). intros k. rewrite Hp. cbn [value_from]. rewrite Hv.
      f_equal. rewrite N2Z.inj_mod.
      pose proof (Z.div_mod (Z.of_N u) 10 ltac:(lia)) as Hdm.
      rewrite N2Z.inj_div. lia.
Qed.

(** The decimal representation is a digit string denoting the number. *)
Lemma Itoa_digits (n : N) : digits (Fmt.Itoa n) = true /\ value (Fmt.Itoa n) = Z.of_N n.
Proof.
  unfold Fmt.Itoa.
  destruct (formatBits_digits (N.to_nat (N.size n)) n "") as (Ha & Hne & p & Hp);
    [rewrite N2Nat.id; apply N.size_gt | reflexivity |].
  split.
  - unfold digits. destruct (Fmt.formatBits _ _ _); [congruence | exact Ha].
  - unfold value. rewrite Hp. cbn [value_from]. lia.
Qed.

(** C6, as the code has it. For natural numbers up to the largest [int]
    (2^63 - 1) the comparison of the decimal representations is the sign
    of the difference; so it is for "9" and "10" and for "001" and "002".
    On the digit strings whose number fits [int] the comparison is the one
    of the numbers: reflexive, antisymmetric in sign, total and
    transitive, with result 0 exactly for equal numbers (so leading zeros
    are not told apart), and on decimal representations result 0 means
    the same number. *)
Theorem CompareVersions_numeric_within_int :
  (forall a b : N,
      Z.of_N a <= StrConv.maxInt -> Z.of_N b <= StrConv.maxInt ->
      CompareVersions (Fmt.Itoa a) (Fmt.Itoa b) = Z.sgn (Z.of_N a - Z.of_N b))
  /\ CompareVersions "9" "10" = -1
  /\ CompareVersions "001" "002" = -1
  /\ (forall s t u : string,
        fits_int s -> fits_int t -> fits_int u ->
        CompareVersions s t = Z.sgn (value s - value t)
        /\ CompareVersions s s = 0
        /\ CompareVersions t s = - CompareVersions s t
        /\ (CompareVersions s t <= 0 \/ CompareVersions t s <= 0)
        /\ (CompareVersions s t <= 0 -> CompareVersions t u <= 0 -> CompareVersions s u <= 0)
        /\ (CompareVersions s t = 0 <-> value s = value t))
  /\ (forall a b : N,
        Z.of_N a <= StrConv.maxInt -> Z.of_N b <= StrConv.maxInt ->
        CompareVersions (Fmt.Itoa a) (Fmt.Itoa b) = 0 -> a = b).
Proof.
  assert (forall a b : N,
      Z.of_N a <= StrConv.maxInt -> Z.of_N b <= StrConv.maxInt ->
      CompareVersions (Fmt.Itoa a) (Fmt.Itoa b) = Z.sgn (Z.of_N a - Z.of_N b)) as Hnum.
  { intros a b Ha Hb.
    destruct (Itoa_digits a) as [Hda Hva], (Itoa_digits b) as [Hdb Hvb].
    rewrite CompareVersions_digits by (try assumption; lia).
    rewrite Hva, Hvb. reflexivity. }
  split; [exact Hnum|].
  split; [vm_compute; reflexivity|]. split; [vm_compute; reflexivity|].
  split.
  - intros s t u [Hs Hs'] [Ht Ht'] [Hu Hu'].
    rewrite !CompareVersions_digits by assumption. lia.
  - intros a b Ha Hb H. rewrite (Hnum a b Ha Hb) in H. lia.
Qed.

Lemma CompareVersions_numeric_within_int_witness :
  fits_int "007" /\ fits_int "10" /\ fits_int "9"
  /\ CompareVersions "007" "10" = Z.sgn (value "007" - value "10")
  /\ (CompareVersions "9" "007" <= 0 \/ CompareVersions "007" "9" <= 0)
  /\ CompareVersions (Fmt.Itoa 9) (Fmt.Itoa 10) = Z.sgn (Z.of_N 9 - Z.of_N 10).
Proof.
  assert (fits_int "007") as H1 by (split; [reflexivity | vm_compute; discriminate]).
  assert (fits_int "10") as H2 by (split; [reflexivity | vm_compute; discriminate]).
  assert (fits_int "9") as H3 by (split; [reflexivity | vm_compute; discriminate]).
  destruct CompareVersions_numeric_within_int as (Hn & _ & _ & Hd & _).
  destruct (Hd "007" "10" "9" H1 H2 H3) as (Ha & _).
  destruct (Hd "9" "007" "10" H3 H1 H2) as (_ & _ & _ & Hb & _).
  refine (conj H1 (conj H2 (conj H3 (conj Ha (conj Hb _))))).
  apply Hn; vm_compute; discriminate.
Defined.

(** C6 as stated fails on the code: 2^63 does not fit [int], Atoi fails
    and the strings are compared byte by byte, so that 9223372036854775808
    comes before 93; and the comparison on digit strings has a cycle. *)
Lemma CompareVersions_sign_counterexample :
  CompareVersions (Fmt.Itoa 9223372036854775808) (Fmt.Itoa 93)
    <> Z.sgn (Z.of_N 9223372036854775808 - Z.of_N 93)
  /\ (CompareVersions "93" "100" = -1
      /\ CompareVersions "100" "9223372036854775808" = -1
      /\ CompareVersions "9223372036854775808" "93" = -1).
Proof. vm_compute. split; [discriminate | repeat split]. Qed.

(** ** Resolver *)

Import Resolver.

Lemma appliedMap_fold (applied : list AppliedMigration) :
  forall (m : gmap string AppliedMigration) (v : string),
    is_Some (foldl (fun m a => if aSuccess a then <[aVersion a := a]> m else m) m applied !! v)
    <-> is_Some (m !! v)
        \/ exists a, a ∈ applied /\ aSuccess a = true /\ aVersion a = v.
Proof.
  induction applied as [|a applied IH]; intros m v; cbn [foldl].
  - split; [auto|]. intros [H | (a & Ha & _)]; [exact H|]. inversion Ha.
  - rewrite IH. split.
    + intros [H | (b & Hb & Hs & Hv)].
      * destruct (aSuccess a) eqn:Hs; [|auto].
        destruct (decide (aVersion a = v)) as [Heq|Hne].
        -- right. exists a. split; [left | auto].
        -- rewrite lookup_insert_ne in H by exact Hne. auto.
      * right. exists b. split; [right; exact Hb | auto].
    + intros [H | (b & Hb & Hs & Hv)].
      * left. destruct (aSuccess a); [|exact H].
        destruct (decide (aVersion a = v)) as [<-|Hne];
          [rewrite lookup_insert_eq; eauto | rewrite lookup_insert_ne by exact Hne; exact H].
      * apply elem_of_cons in Hb as [->|Hb].
        -- left. rewrite Hs, <- Hv, lookup_insert_eq. eauto.
        -- right. exists b. auto.
Qed.

(** The applied map has a key exactly for the versions of the successful
    rows, of whatever type. *)
Lemma appliedMap_of_key (applied : list AppliedMigration) (v : string) :
  is_Some (appliedMap_of applied !! v)
  <-> exists a, a ∈ applied /\ aSuccess a = true /\ aVersion a = v.
Proof.
  unfold appliedMap_of. rewrite appliedMap_fold, lookup_empty.
  split; [intros [[x Hx] | H]; [discriminate | exact H] | auto].
Qed.

Lemma position_cons {A} (P : A -> Prop) (x : A) (l : list A) (i p : nat) :
  (exists j y, (x :: l) !! j = Some y /\ p = (i + j)%nat /\ P y)
  <-> (p = i /\ P x) \/ (exists j y, l !! j = Some y /\ p = (S i + j)%nat /\ P y).
Proof.
  split.
  - intros (j & y & Hj & -> & Hy). destruct j as [|j].
    + injection Hj as ->. left. split; [lia | exact Hy].
    + right. exists j, y. repeat split; [exact Hj | lia | exact Hy].
  - intros [[-> Hx] | (j & y & Hj & -> & Hy)].
    + exists 0%nat, x. repeat split; [lia | exact Hx].
    + exists (S j), y. repeat split; [exact Hj | lia | exact Hy].
Qed.

(** The pointers the loop returns are those it was given and the
    positions of the migrations it selects. *)
Lemma pending_loop_elem (fs : filesystem) (appliedMap : gmap string AppliedMigration)
    (todo : list Migration) :
  forall (i : nat) (pending : list ptr) (migs' : list Migration) (res : list ptr),
    pending_loop fs appliedMap i todo pending = (migs', inr res) ->
    forall p, p ∈ res
              <-> p ∈ pending
                  \/ exists j mig, todo !! j = Some mig /\ p = (i + j)%nat
                                   /\ selects fs appliedMap mig.
Proof.
  induction todo as [|mig rest IH]; intros i pending migs' res H p.
  - injection H as _ <-. split; [auto|].
    intros [Hp | (j & m & Hj & _)]; [exact Hp | discriminate].
  - rewrite position_cons. unfold selects at 1. cbn [pending_loop] in H.
    destruct (Type_ mig) eqn:Hty.
    + destruct (appliedMap !! Version mig) as [a|] eqn:Hl.
      * destruct (pending_loop fs appliedMap (S i) rest pending) as [rest' r] eqn:Hrec.
        injection H as _ ->. rewrite (IH _ _ _ _ Hrec p).
        split; [tauto|]. intros [Hp | [[_ Hn] | Hr]]; [tauto | discriminate | tauto].
      * destruct (ParseMigrationFile fs mig) as [mig' [err|]]; [discriminate|].
        destruct (pending_loop fs appliedMap (S i) rest (pending ++ [i]))
          as [rest' r] eqn:Hrec.
        injection H as _ ->. rewrite (IH _ _ _ _ Hrec p), elem_of_app, list_elem_of_singleton.
        tauto.
    + destruct (pending_loop fs appliedMap (S i) rest pending) as [rest' r] eqn:Hrec.
      injection H as _ ->. rewrite (IH _ _ _ _ Hrec p). tauto.
    + destruct (ParseMigrationFile fs mig) as [mig' [err|]] eqn:Hp; [discriminate|].
      cbv zeta in H. cbn [fst].
      destruct (pending_loop fs appliedMap (S i) rest _) as [rest' r] eqn:Hrec.
      injection H as _ ->. rewrite (IH _ _ _ _ Hrec p).
      destruct (appliedMap !! _) as [a|].
      * destruct (String.eqb (aChecksum a) (Checksum mig')).
        -- split; [tauto|]. intros [H | [[_ H] | H]]; [tauto | discriminate | tauto].
        -- rewrite elem_of_app, list_elem_of_singleton. tauto.
      * rewrite elem_of_app, list_elem_of_singleton. tauto.
Qed.

(** C1, as the code has it. The applied map of GetPendingMigrations has
    a key exactly for the versions of the rows with success=true, the rows
    of type undo included; when the call succeeds, a scanned Versioned
    migration is in the pending result exactly when no successful row, of
    whatever type, has its version. *)
Theorem GetPendingMigrations_versioned (fs : filesystem) (migrations : list Migration)
    (applied : list AppliedMigration) (migs' : list Migration) (pending : list ptr) :
  GetPendingMigrations fs migrations applied = (migs', inr pending) ->
  (forall v, is_Some (appliedMap_of applied !! v)
             <-> exists a, a ∈ applied /\ aSuccess a = true /\ aVersion a = v)
  /\ forall (i : nat) (mig : Migration),
       migrations !! i = Some mig -> Type_ mig = TypeVersioned ->
       (i ∈ pending
        <-> ~ exists a, a ∈ applied /\ aSuccess a = true /\ aVersion a = Version mig).
Proof.
  intros H. split; [intros v; apply appliedMap_of_key|].
  intros i mig Hi Hty. unfold GetPendingMigrations in H.
  rewrite (pending_loop_elem _ _ _ _ _ _ _ H i), <- appliedMap_of_key.
  rewrite <- eq_None_not_Some. split.
  - intros [Hn | (j & m & Hj & Hij & Hsel)]; [inversion Hn|].
    cbn in Hij. subst j. rewrite Hi in Hj. injection Hj as <-.
    unfold selects in Hsel. rewrite Hty in Hsel. exact Hsel.
  - intros Hnone. right. exists i, mig. repeat split; [exact Hi|].
    unfold selects. rewrite Hty. exact Hnone.
Qed.

Lemma GetPendingMigrations_versioned_witness :
  let migrations := [sample_migration TypeVersioned "001" "V001__a.cql";
                     sample_migration TypeVersioned "002" "V002__a.cql"] in
  let applied := [sample_row "001" "versioned" true] in
  snd (GetPendingMigrations sample_fs migrations applied) = inr [1%nat]
  /\ (1%nat ∈ [1%nat]
      <-> ~ exists a, a ∈ applied /\ aSuccess a = true /\ aVersion a = "002").
Proof.
  intros migrations applied.
  assert (GetPendingMigrations sample_fs migrations applied
          = (fst (GetPendingMigrations sample_fs migrations applied), inr [1%nat])) as H
    by (vm_compute; reflexivity).
  split; [vm_compute; reflexivity|].
  exact (proj2 (GetPendingMigrations_versioned _ _ _ _ _ H) 1%nat
               (sample_migration TypeVersioned "002" "V002__a.cql") eq_refl eq_refl).
Defined.

(** C1 as stated fails on the code: a successful row of type undo with
    the version of a Versioned migration keeps the migration out of the
    pending result, though no successful row of another type has that
    version. *)
Lemma GetPendingMigrations_undo_row_counterexample :
  let migrations := [sample_migration TypeVersioned "001" "V001__a.cql"] in
  let applied := [sample_row "001" "undo" true] in
  (forall a, a ∈ applied -> aSuccess a = true -> aVersion a = "001" -> aType a = "undo")
  /\ is_Some (appliedMap_of applied !! "001")
  /\ snd (GetPendingMigrations sample_fs migrations applied) = inr [].
Proof.
  cbv zeta. split; [|split].
  - intros a Ha _ _. apply list_elem_of_singleton in Ha as ->. reflexivity.
  - vm_compute. eauto.
  - vm_compute. reflexivity.
Qed.

Lemma validate_row_skipped (fs : filesystem) (fileMap : gmap string ptr)
    (st : list Migration * list string) (a : AppliedMigration) :
  aSuccess a = false \/ aType a = "repeatable" ->
  validate_row fs fileMap st a = st.
Proof.
  intros H. unfold validate_row. destruct st as [migs errors].
  destruct H as [-> | ->]; [reflexivity|].
  rewrite String.eqb_refl, orb_true_r. reflexivity.
Qed.

(** ** Status *)

Lemma ParseMigrationFile_keeps (fs : filesystem) (mig : Migration) :
  let mig' := fst (ParseMigrationFile fs mig) in
  Version mig' = Version mig /\ Type_ mig' = Type_ mig
  /\ Description mig' = Description mig /\ Filename mig' = Filename mig.
Proof.
  unfold ParseMigrationFile. destruct (fs (FilePath mig)); [cbn; auto|].
  cbv zeta. unfold CalculateChecksumFromContent.
  destruct (splitStatements _); cbn; auto.
Qed.

Lemma status_appliedMap_fold (formatTime : Z -> string) (applied : list AppliedMigration) :
  forall (m : gmap string StatusCmd.appliedInfo) (v : string),
    is_Some (foldl (fun m a =>
                      <[aVersion a := StatusCmd.mkInfo (formatTime (aAppliedAt a))
                                        (aChecksum a) (aSuccess a)]> m) m applied !! v)
    <-> is_Some (m !! v) \/ exists a, a ∈ applied /\ aVersion a = v.
Proof.
  induction applied as [|a applied IH]; intros m v; cbn [foldl].
  - split; [auto|]. intros [H | (a & Ha & _)]; [exact H | inversion Ha].
  - rewrite IH. destruct (decide (aVersion a = v)) as [Heq|Hne].
    + rewrite <- Heq at 1. rewrite lookup_insert_eq. split; [|eauto].
      intros _. right. exists a. split; [left | exact Heq].
    + rewrite lookup_insert_ne by exact Hne. split.
      * intros [H | (b & Hb & Hv)]; [auto|]. right. exists b. split; [right|]; assumption.
      * intros [H | (b & Hb & Hv)]; [auto|]. right. exists b.
        apply elem_of_cons in Hb as [->|Hb]; [contradiction | auto].
Qed.

Lemma status_appliedMap_key (formatTime : Z -> string) (applied : list AppliedMigration)
    (v : string) :
  is_Some (StatusCmd.appliedMap_of formatTime applied !! v)
  <-> exists a, a ∈ applied /\ aVersion a = v.
Proof.
  unfold StatusCmd.appliedMap_of. rewrite status_appliedMap_fold, lookup_empty.
  split; [intros [[x Hx] | H]; [discriminate | exact H] | auto].
Qed.

(** C10. In the status command the applied rows are indexed by their
    version alone, whatever their type and outcome.  The entry of an Undo
    file is "Applied" or "Failed" as soon as some applied row has the
    version of the file, and "Available" exactly when no applied row has
    it. *)
Theorem status_undo_entry (formatTime : Z -> string) (fs : filesystem)
    (scanned : list Migration) (applied : list AppliedMigration)
    (i : nat) (mig : Migration) :
  scanned !! i = Some mig -> Type_ mig = TypeUndo ->
  (forall v, is_Some (StatusCmd.appliedMap_of formatTime applied !! v)
             <-> exists a, a ∈ applied /\ aVersion a = v)
  /\ exists e,
       StatusCmd.status_entries formatTime fs scanned applied !! i = Some e
       /\ StatusCmd.eVersion e = Version mig
       /\ StatusCmd.eType e = "undo"
       /\ ((exists a, a ∈ applied /\ aVersion a = Version mig) ->
           StatusCmd.eStatus e = "Applied" \/ StatusCmd.eStatus e = "Failed")
       /\ (StatusCmd.eStatus e = "Available"
           <-> forall a, a ∈ applied -> aVersion a <> Version mig).
Proof.
  intros Hi Hty. split; [intros v; apply status_appliedMap_key|].
  unfold StatusCmd.status_entries. cbv zeta.
  rewrite !list_lookup_fmap, Hi. cbn [fmap option_fmap option_map].
  eexists. split; [reflexivity|].
  destruct (ParseMigrationFile_keeps fs mig) as (Hv & Ht & _).
  cbv zeta in Hv, Ht. unfold StatusCmd.entry_of, StatusCmd.key_of.
  rewrite Ht, Hty, Hv.
  destruct (decide (TypeUndo = TypeRepeatable)) as [?|_]; [discriminate|].
  pose proof (status_appliedMap_key formatTime applied (Version mig)) as Hk.
  destruct (StatusCmd.appliedMap_of formatTime applied !! Version mig) as [a|].
  - cbn. split; [reflexivity | split; [reflexivity|]].
    destruct (proj1 Hk ltac:(eauto)) as (b & Hb & Hbv).
    split; [intros _; destruct (StatusCmd.iSuccess a); auto|].
    split; [destruct (StatusCmd.iSuccess a); discriminate|].
    intros H. destruct (H b Hb Hbv).
  - cbn. split; [reflexivity | split; [reflexivity|]].
    assert (forall a, a ∈ applied -> aVersion a <> Version mig) as Hno.
    { intros a Ha Hv'. destruct (proj2 Hk) as [x Hx]; [eauto | discriminate]. }
    split; [intros (a & Ha & Hav); destruct (Hno a Ha Hav)|].
    split; [intros _; exact Hno | reflexivity].
Qed.

Lemma status_undo_entry_witness :
  let scanned := [sample_migration TypeVersioned "001" "V001__a.cql";
                  sample_migration TypeUndo "001" "U001__a.cql";
                  sample_migration TypeUndo "002" "U002__a.cql"] in
  let applied := [sample_row "001" "versioned" true] in
  StatusCmd.eStatus <$> StatusCmd.status_entries (fun _ => "-") sample_fs scanned applied
    = ["Applied"; "Applied"; "Available"]
  /\ exists e,
       StatusCmd.status_entries (fun _ => "-") sample_fs scanned applied !! 1%nat = Some e
       /\ (StatusCmd.eStatus e = "Applied" \/ StatusCmd.eStatus e = "Failed").
Proof.
  intros scanned applied. split; [vm_compute; reflexivity|].
  destruct (status_undo_entry (fun _ => "-") sample_fs scanned applied 1%nat
              (sample_migration TypeUndo "001" "U001__a.cql") eq_refl eq_refl)
    as (_ & e & He & _ & _ & Hsome & _).
  exists e. split; [exact He|]. apply Hsome.
  exists (sample_row "001" "versioned" true). split; [left | reflexivity].
Defined.

(** ** Executor *)

Import Driver.

Lemma RecordMigration_effect (c : Cluster) (rec : MigrationRecord) (d : Z)
    (success : bool) (host : string) (w : World) :
  let r := RecordMigration c rec d success host w in
  fst r = exec_error c w (EvRecordMigration rec d success host)
  /\ history (snd r) = history w ++ [EvRecordMigration rec d success host]
  /\ (fst r = None ->
      schema_migrations (snd r) !! rVersion rec
      = Some (mkApplied (rVersion rec) (rDescription rec) (rType rec) (rFilename rec)
                        (rChecksum rec) host (now w) (Milliseconds d) success)).
Proof.
  unfold RecordMigration. cbv zeta.
  destruct (exec_error c w _); cbn; split; try reflexivity; split; try reflexivity.
  - discriminate.
  - intros _. apply lookup_insert_eq.
Qed.

(** The statements that succeed are passed by the loop. *)
Lemma execute_loop_after (ctx : Executor.ExecutionContext) (mig : Migration)
    (rec : MigrationRecord) (start : Z) (stmts1 stmts2 : list string) :
  forall (k : nat) (w w1 : World),
    Executor.after_statements ctx stmts1 w = Some w1 ->
    Executor.execute_loop ctx mig rec start k (stmts1 ++ stmts2) w
    = Executor.execute_loop ctx mig rec start (k + length stmts1) stmts2 w1.
Proof.
  induction stmts1 as [|stmt rest IH]; intros k w w1 H.
  - injection H as <-. cbn. rewrite Nat.add_0_r. reflexivity.
  - cbn [Executor.after_statements] in H.
    cbn [app Executor.execute_loop length]. unfold bind at 1.
    destruct (Driver.Execute (Executor.cluster ctx) stmt w) as [[e|] w'] eqn:He;
      [discriminate|].
    replace (k + S (length rest))%nat with (S k + length rest)%nat by lia.
    destruct (IsDDL stmt); [|apply IH, H].
    unfold bind at 1.
    destruct (WaitForSchemaAgreement _ _ w') as [[e|] w''] eqn:Hw; [discriminate|].
    apply IH, H.
Qed.

(** C8, as the code has it (not in dry-run). When the statements before
    the statement of index [i] have succeeded, with the waits for schema
    agreement after the DDL statements among them, and the statement of
    index [i] fails, Execute calls RecordMigration for the migration with
    success=false and the time elapsed since its start, and returns the
    error that names the statement number [i+1] and the file; the row is in
    the table when that write succeeds.  When every statement succeeds
    and every wait for schema agreement after a DDL statement succeeds,
    Execute calls RecordMigration with success=true and the total time
    elapsed, and fails only if that write fails.  When the statement of
    index [i] is a DDL statement that succeeds and the wait for schema
    agreement after it fails, Execute calls RecordMigration with
    success=false and the time elapsed, although no statement has failed,
    and returns the error of the wait under the statement number [i+1]
    and the file; no later statement is executed. *)
Theorem Execute_records_outcome (ctx : Executor.ExecutionContext) (mig : Migration)
    (w : World) :
  Executor.DryRun ctx = false ->
  (forall (i : nat) (stmt : string) (e : error) (w_i : World),
      Statements mig !! i = Some stmt ->
      Executor.after_statements ctx (take i (Statements mig)) w = Some w_i ->
      exec_error (Executor.cluster ctx) w_i (EvExecute stmt) = Some e ->
      let w_f := passed (Executor.cluster ctx) (EvExecute stmt) w_i in
      let elapsed := now w_f - now w in
      let recorded :=
        RecordMigration (Executor.cluster ctx) (Executor.toRecord mig) elapsed false
                        (Executor.hostname ctx) w_f in
      Executor.Execute ctx mig w
      = (Some ("failed to execute statement " +:+ Fmt.Itoa (N.of_nat (i + 1)) +:+ " in "
               +:+ Filename mig +:+ ": " +:+ e), snd recorded)
      /\ history (snd recorded)
         = history w_i ++ [EvExecute stmt;
                           EvRecordMigration (Executor.toRecord mig) elapsed false
                                             (Executor.hostname ctx)]
      /\ (fst recorded = None ->
          exists row,
            schema_migrations (snd recorded) !! rVersion (Executor.toRecord mig) = Some row
            /\ aSuccess row = false
            /\ aExecutionTimeMS row = Milliseconds elapsed
            /\ aScript row = Filename mig))
  /\ (forall w_n : World,
        Executor.after_statements ctx (Statements mig) w = Some w_n ->
        let elapsed := now w_n - now w in
        let recorded :=
          RecordMigration (Executor.cluster ctx) (Executor.toRecord mig) elapsed true
                          (Executor.hostname ctx) w_n in
        Executor.Execute ctx mig w
        = (match fst recorded with
           | Some e => Some ("migration executed successfully but failed to record metadata: "
                             +:+ e)
           | None => None
           end, snd recorded)
        /\ history (snd recorded)
           = history w_n ++ [EvRecordMigration (Executor.toRecord mig) elapsed true
                                               (Executor.hostname ctx)]
        /\ (fst recorded = None ->
            exists row,
              schema_migrations (snd recorded) !! rVersion (Executor.toRecord mig) = Some row
              /\ aSuccess row = true
              /\ aExecutionTimeMS row = Milliseconds elapsed
              /\ aScript row = Filename mig))
  /\ (forall (i : nat) (stmt : string) (e : error) (w_i : World),
        Statements mig !! i = Some stmt ->
        Executor.after_statements ctx (take i (Statements mig)) w = Some w_i ->
        IsDDL stmt = true ->
        exec_error (Executor.cluster ctx) w_i (EvExecute stmt) = None ->
        let w_s := passed (Executor.cluster ctx) (EvExecute stmt) w_i in
        let wait := EvWaitForSchemaAgreement (Executor.SchemaAgreementTimeout ctx) in
        exec_error (Executor.cluster ctx) w_s wait = Some e ->
        let w_f := passed (Executor.cluster ctx) wait w_s in
        let elapsed := now w_f - now w in
        let recorded :=
          RecordMigration (Executor.cluster ctx) (Executor.toRecord mig) elapsed false
                          (Executor.hostname ctx) w_f in
        Executor.Execute ctx mig w
        = (Some ("schema agreement timeout after statement " +:+ Fmt.Itoa (N.of_nat (i + 1))
                 +:+ " in " +:+ Filename mig +:+ ": " +:+ e), snd recorded)
        /\ history (snd recorded)
           = history w_i ++ [EvExecute stmt; wait;
                             EvRecordMigration (Executor.toRecord mig) elapsed false
                                               (Executor.hostname ctx)]
        /\ (fst recorded = None ->
            exists row,
              schema_migrations (snd recorded) !! rVersion (Executor.toRecord mig) = Some row
              /\ aSuccess row = false
              /\ aExecutionTimeMS row = Milliseconds elapsed
              /\ aScript row = Filename mig)).
Proof.
  intros Hdry. split; [|split].
  - intros i stmt e w_i Hi Hpre He w_f elapsed recorded.
    destruct (RecordMigration_effect (Executor.cluster ctx) (Executor.toRecord mig)
                elapsed false (Executor.hostname ctx) w_f) as (Hfst & Hhist & Hrow).
    fold recorded in Hfst, Hhist, Hrow.
    split; [|split].
    + unfold Executor.Execute, bind, Now. rewrite Hdry.
      rewrite <- (take_drop_middle _ _ _ Hi).
      rewrite (execute_loop_after _ _ _ _ _ _ 0%nat w w_i Hpre).
      rewrite length_take_le by (apply Nat.lt_le_incl, (lookup_lt_Some _ _ _ Hi)).
      cbn [Executor.execute_loop]. unfold bind, Driver.Execute, Since, ret.
      rewrite He. fold w_f. fold elapsed. fold recorded.
      destruct recorded as [r w']. reflexivity.
    + rewrite Hhist. unfold w_f, passed. cbn [history]. rewrite <- app_assoc. reflexivity.
    + intros Hnone. eexists. split; [apply Hrow, Hnone|]. cbn. auto.
  - intros w_n Hall elapsed recorded.
    destruct (RecordMigration_effect (Executor.cluster ctx) (Executor.toRecord mig)
                elapsed true (Executor.hostname ctx) w_n) as (Hfst & Hhist & Hrow).
    fold recorded in Hfst, Hhist, Hrow.
    split; [|split].
    + unfold Executor.Execute, bind, Now. rewrite Hdry.
      rewrite <- (app_nil_r (Statements mig)).
      rewrite (execute_loop_after _ _ _ _ _ _ 0%nat w w_n Hall).
      cbn [Executor.execute_loop]. unfold bind, Since, ret.
      fold elapsed. fold recorded. destruct recorded as [[e|] w']; reflexivity.
    + exact Hhist.
    + intros Hnone. eexists. split; [apply Hrow, Hnone|]. cbn. auto.
  - intros i stmt e w_i Hi Hpre Hddl Hok w_s wait He w_f elapsed recorded.
    destruct (RecordMigration_effect (Executor.cluster ctx) (Executor.toRecord mig)
                elapsed false (Executor.hostname ctx) w_f) as (Hfst & Hhist & Hrow).
    fold recorded in Hfst, Hhist, Hrow.
    split; [|split].
    + unfold Executor.Execute, bind, Now. rewrite Hdry.
      rewrite <- (take_drop_middle _ _ _ Hi).
      rewrite (execute_loop_after _ _ _ _ _ _ 0%nat w w_i Hpre).
      rewrite length_take_le by (apply Nat.lt_le_incl, (lookup_lt_Some _ _ _ Hi)).
      cbn [Executor.execute_loop]. unfold bind, Driver.Execute, Since, ret.
      rewrite Hok, Hddl. fold w_s. unfold WaitForSchemaAgreement. cbv zeta.
      fold wait. rewrite He. fold w_f. fold elapsed. fold recorded.
      destruct recorded as [r w']. reflexivity.
    + rewrite Hhist. unfold w_f, w_s, passed. cbn [history]. rewrite <- !app_assoc.
      reflexivity.
    + intros Hnone. eexists. split; [apply Hrow, Hnone|]. cbn. auto.
Qed.

Lemma Execute_records_outcome_witness :
  let ctx := sample_context (fails_on "INSERT INTO u (id) VALUES (1)") in
  let w_i := mkWorld 2000000
               [EvExecute "CREATE TABLE t (id int PRIMARY KEY)";
                EvWaitForSchemaAgreement (30 * Time.Second)] ∅ in
  let late := sample_context no_agreement in
  Executor.after_statements ctx (take 1 (Statements sample_script)) world0 = Some w_i
  /\ fst (Executor.Execute ctx sample_script world0)
     = Some ("failed to execute statement " +:+ Fmt.Itoa (N.of_nat (1 + 1)) +:+ " in "
             +:+ "V001__a.cql" +:+ ": " +:+ "unconfigured table")
  /\ (aSuccess <$> schema_migrations (snd (Executor.Execute ctx sample_script world0)) !! "001")
     = Some false
  /\ fst (Executor.Execute late sample_script world0)
     = Some ("schema agreement timeout after statement " +:+ Fmt.Itoa (N.of_nat (0 + 1))
             +:+ " in " +:+ "V001__a.cql" +:+ ": " +:+ "timed out")
  /\ (aSuccess <$> schema_migrations (snd (Executor.Execute late sample_script world0)) !! "001")
     = Some false.
Proof.
  intros ctx w_i late.
  assert (Executor.after_statements ctx (take 1 (Statements sample_script)) world0 = Some w_i)
    as Hpre by (vm_compute; reflexivity).
  destruct (proj1 (Execute_records_outcome ctx sample_script world0 eq_refl)
              1%nat "INSERT INTO u (id) VALUES (1)" "unconfigured table" w_i
              eq_refl Hpre eq_refl) as (Hres & _ & Hrow).
  destruct (proj2 (proj2 (Execute_records_outcome late sample_script world0 eq_refl))
              0%nat "CREATE TABLE t (id int PRIMARY KEY)" "timed out" world0
              eq_refl eq_refl eq_refl eq_refl eq_refl) as (Hres' & _ & Hrow').
  split; [exact Hpre|]. split; [rewrite Hres; reflexivity|]. split; [|split].
  - rewrite Hres. cbn [snd]. destruct (Hrow eq_refl) as (row & Hl & Hs & _).
    change (rVersion (Executor.toRecord sample_script)) with "001" in Hl.
    rewrite Hl. cbn. rewrite Hs. reflexivity.
  - rewrite Hres'. reflexivity.
  - rewrite Hres'. cbn [snd]. destruct (Hrow' eq_refl) as (row & Hl & Hs & _).
    change (rVersion (Executor.toRecord sample_script)) with "001" in Hl.
    rewrite Hl. cbn. rewrite Hs. reflexivity.
Defined.

(** C8 as stated fails on the code: every statement of the migration
    succeeds, the wait for schema agreement after the DDL statement times
    out, and the row that is recorded has success=false. *)
Lemma Execute_agreement_counterexample :
  let ctx := sample_context no_agreement in
  let mig := mkMigration "001" "a" TypeVersioned "V001__a.cql" "V001__a.cql" ""
               ["CREATE TABLE t (id int PRIMARY KEY)"] "" in
  (forall w stmt, exec_error (Executor.cluster ctx) w (EvExecute stmt) = None)
  /\ fst (Executor.Execute ctx mig world0)
     = Some "schema agreement timeout after statement 1 in V001__a.cql: timed out"
  /\ (aSuccess <$> schema_migrations (snd (Executor.Execute ctx mig world0)) !! "001")
     = Some false
  /\ forall rec d host,
       EvRecordMigration rec d true host ∉ history (snd (Executor.Execute ctx mig world0)).
Proof.
  cbv zeta. split; [reflexivity|]. split; [vm_compute; reflexivity|].
  split; [vm_compute; reflexivity|].
  intros rec d host H. vm_compute in H.
  repeat (apply elem_of_cons in H as [H|H]; [discriminate|]). inversion H.
Qed.

(** ** Lock manager *)

Import LockManager.

Lemma sleeps_app (h1 h2 : list event) : sleeps (h1 ++ h2) = sleeps h1 ++ sleeps h2.
Proof. apply omap_app. Qed.

(** One turn of the loop either returns or goes on with the same backoff
    without having slept, or sleeps the backoff once and goes on with the
    next one. *)
Lemma attempt_sleeps (lm : LockManager) (timeout ttl backoff : Z) (w : World) :
  let r := attempt lm timeout ttl backoff w in
  (sleeps (history (snd r)) = sleeps (history w)
   /\ (fst r = Continue backoff \/ exists e, fst r = Return e))
  \/ (sleeps (history (snd r)) = sleeps (history w) ++ [backoff]
      /\ fst r = Continue (next_backoff backoff)).
Proof.
  unfold attempt, bind, Now, executeLWT, GetCurrentLock, forceRelease, Sleep, ret, passed.
  cbv zeta.
  destruct (exec_error (cluster lm) w _) as [e|].
  { left. cbn. rewrite sleeps_app, app_nil_r. eauto. }
  destruct (cas_applied (cluster lm) w _).
  { left. cbn. rewrite sleeps_app, app_nil_r. eauto. }
  destruct (lock_row (cluster lm) _) as [e|lock].
  { right. cbn. rewrite !sleeps_app, !app_nil_r. auto. }
  cbn [now history]. destruct (_ >? ExpiresAt lock).
  - left. cbn. rewrite !sleeps_app, !app_nil_r. auto.
  - right. cbn. rewrite !sleeps_app, !app_nil_r. auto.
Qed.

Lemma acquire_loop_sleeps (lm : LockManager) (timeout ttl deadline : Z) (fuel : nat) :
  forall (j : nat) (w : World),
  exists n : nat,
    sleeps (history (snd (acquire_loop fuel lm timeout ttl deadline (backoff_at j) w)))
    = sleeps (history w) ++ (backoff_at <$> seq j n).
Proof.
  induction fuel as [|fuel IH]; intros j w.
  - exists 0%nat. cbn. rewrite app_nil_r. reflexivity.
  - cbn [acquire_loop]. unfold bind at 1. unfold Now at 1.
    destruct (now w <? deadline).
    + unfold bind at 1.
      pose proof (attempt_sleeps lm timeout ttl (backoff_at j) w) as H. cbv zeta in H.
      destruct (attempt lm timeout ttl (backoff_at j) w) as [r w']. cbn [fst snd] in H.
      destruct H as [[Hs [-> | [e ->]]] | [Hs ->]].
      * destruct (IH j w') as [n Hn]. exists n. rewrite Hn, Hs. reflexivity.
      * exists 0%nat. cbn. rewrite Hs, app_nil_r. reflexivity.
      * change (next_backoff (backoff_at j)) with (backoff_at (S j)).
        destruct (IH (S j) w') as [n Hn]. exists (S n).
        rewrite Hn, Hs, <- app_assoc. reflexivity.
    + exists 0%nat. cbn. rewrite app_nil_r. reflexivity.
Qed.

Lemma backoff_at_closed (k : nat) : backoff_at k = Second * 2 ^ Z.of_nat (Nat.min k 4).
Proof.
  assert (forall n, backoff_at (4 + n) = Second * 16) as Hbig.
  { induction n as [|n IH]; [reflexivity|].
    replace (4 + S n)%nat with (S (4 + n)) by lia.
    change (backoff_at (S (4 + n))) with (next_backoff (backoff_at (4 + n))).
    rewrite IH. reflexivity. }
  destruct (Nat.le_gt_cases 4 k) as [Hk|Hk].
  - replace k with (4 + (k - 4))%nat at 1 by lia.
    rewrite Hbig, Nat.min_r by lia. reflexivity.
  - assert (k = 0 \/ k = 1 \/ k = 2 \/ k = 3)%nat as [-> | [-> | [-> | ->]]] by lia;
      reflexivity.
Qed.

(** C4, as the code has it. The sleep between attempts starts at 1
    second, and after each sleep the backoff is doubled if it is below 10
    seconds and kept otherwise.  The sleeps of one call of Acquire are
    therefore, in order, 1, 2, 4, 8, 16, 16, ... seconds: no single sleep
    exceeds 16 seconds. *)
Theorem Acquire_backoff (fuel : nat) (lm : LockManager) (timeout : Z) (w : World) :
  backoff_at 0 = 1 * Second
  /\ (forall k, backoff_at (S k)
                = if backoff_at k <? 10 * Second then backoff_at k * 2 else backoff_at k)
  /\ (forall k, backoff_at k = Second * 2 ^ Z.of_nat (Nat.min k 4)
                /\ backoff_at k <= 16 * Second)
  /\ exists n : nat,
       sleeps (history (snd (Acquire fuel lm timeout w)))
       = sleeps (history w) ++ (backoff_at <$> seq 0 n).
Proof.
  split; [reflexivity|]. split; [reflexivity|]. split.
  - intros k. rewrite backoff_at_closed. split; [reflexivity|].
    assert (2 ^ Z.of_nat (Nat.min k 4) <= 2 ^ 4)
      by (apply Z.pow_le_mono_r; lia).
    unfold Second, Time.Second. lia.
  - unfold Acquire, bind, Now.
    apply (acquire_loop_sleeps lm timeout (timeout ÷ Second + 60) (now w + timeout) fuel 0 w).
Qed.

(** C4 as stated fails on the code: while the lock is held by another
    owner, a call of Acquire with the default timeout of 60 seconds sleeps
    16 seconds, three times over, before it gives up; after the sleep of 8
    seconds the backoff is 16 seconds, not min(2*8, 10). *)
Lemma Acquire_backoff_counterexample :
  let run := Acquire 100 (sample_manager lock_held) (60 * Second) world0 in
  fst run = Some (Some (timeout_msg (60 * Second)))
  /\ sleeps (history (snd run))
     = [1 * Second; 2 * Second; 4 * Second; 8 * Second;
        16 * Second; 16 * Second; 16 * Second]
  /\ 16 * Second > 10 * Second
  /\ next_backoff (8 * Second) <> Z.min (2 * (8 * Second)) (10 * Second).
Proof. vm_compute. repeat split; discriminate. Qed.

(** C5, as the code has it. In a turn of the loop of Acquire whose insert
    is not applied: when the lock row is read and the time is after its
    expires_at, the row is force-released (whatever the delete returns)
    and the next turn starts at once, with the same backoff and without a
    sleep; when the lock row cannot be read, because it is absent or
    because the read fails, Acquire sleeps the backoff, as it does for a
    lock that is held and not expired, and only then starts the next
    turn. *)
Theorem Acquire_retry (lm : LockManager) (timeout ttl deadline backoff : Z)
    (fuel : nat) (w : World) :
  let ins := EvLockInsert (lockID lm) (owner lm) (now w) (now w + timeout) ttl in
  let w1 := passed (cluster lm) ins w in
  let w2 := passed (cluster lm) (EvGetCurrentLock (lockID lm)) w1 in
  now w < deadline ->
  exec_error (cluster lm) w ins = None ->
  cas_applied (cluster lm) w ins = false ->
  (forall lock : Lock,
      lock_row (cluster lm) w1 = inr lock -> now w2 > ExpiresAt lock ->
      let w3 := passed (cluster lm) (EvForceRelease (lockID lm)) w2 in
      attempt lm timeout ttl backoff w = (Continue backoff, w3)
      /\ history w3 = history w ++ [ins; EvGetCurrentLock (lockID lm);
                                    EvForceRelease (lockID lm)]
      /\ sleeps (history w3) = sleeps (history w)
      /\ acquire_loop (S fuel) lm timeout ttl deadline backoff w
         = acquire_loop fuel lm timeout ttl deadline backoff w3)
  /\ (forall err : error,
        lock_row (cluster lm) w1 = inl err ->
        let w3 := snd (Sleep backoff w2) in
        attempt lm timeout ttl backoff w = (Continue (next_backoff backoff), w3)
        /\ history w3 = history w ++ [ins; EvGetCurrentLock (lockID lm); EvSleep backoff]
        /\ now w3 = now w2 + backoff
        /\ acquire_loop (S fuel) lm timeout ttl deadline backoff w
           = acquire_loop fuel lm timeout ttl deadline (next_backoff backoff) w3).
Proof.
  intros ins w1 w2 Hnow Hins Hcas. apply Z.ltb_lt in Hnow. split.
  - intros lock Hrow Hexp w3.
    assert (attempt lm timeout ttl backoff w = (Continue backoff, w3)) as Hatt.
    { unfold attempt, bind, Now, executeLWT, GetCurrentLock, forceRelease, ret.
      fold ins. rewrite Hins, Hcas. fold w1. rewrite Hrow. fold w2.
      rewrite (proj2 (Z.gtb_lt (now w2) (ExpiresAt lock))) by lia. reflexivity. }
    split; [exact Hatt|]. split; [|split].
    + unfold w3, w2, w1, passed. cbn [history]. rewrite <- !app_assoc. reflexivity.
    + unfold w3, w2, w1, passed. cbn [history]. rewrite !sleeps_app, !app_nil_r. reflexivity.
    + cbn [acquire_loop]. unfold bind at 1. unfold Now at 1. rewrite Hnow.
      unfold bind at 1. rewrite Hatt. reflexivity.
  - intros err Hrow w3.
    assert (attempt lm timeout ttl backoff w = (Continue (next_backoff backoff), w3)) as Hatt.
    { unfold attempt, bind, Now, executeLWT, GetCurrentLock, ret.
      fold ins. rewrite Hins, Hcas. fold w1. rewrite Hrow. fold w2.
      unfold w3. destruct (Sleep backoff w2) as [[] w']. reflexivity. }
    split; [exact Hatt|]. split; [|split].
    + unfold w3, w2, w1, Sleep, passed. cbn [snd history]. rewrite <- !app_assoc. reflexivity.
    + reflexivity.
    + cbn [acquire_loop]. unfold bind at 1. unfold Now at 1. rewrite Hnow.
      unfold bind at 1. rewrite Hatt. reflexivity.
Qed.

Lemma Acquire_retry_witness :
  let expired := mkCluster (fun _ _ => None) (fun _ _ => false)
                   (fun _ => inr (mkLock "migration_lock" "other-0a1b2c3d" (-100) (-1)))
                   (fun _ _ => 0) in
  fst (attempt (sample_manager expired) (60 * Second) 120 (1 * Second) world0)
    = Continue (1 * Second)
  /\ sleeps (history (snd (attempt (sample_manager expired) (60 * Second) 120 (1 * Second)
                                   world0))) = []
  /\ fst (attempt (sample_manager lock_absent) (60 * Second) 120 (1 * Second) world0)
     = Continue (2 * Second)
  /\ sleeps (history (snd (attempt (sample_manager lock_absent) (60 * Second) 120
                                   (1 * Second) world0))) = [1 * Second].
Proof.
  intros expired.
  destruct (proj1 (Acquire_retry (sample_manager expired) (60 * Second) 120 (60 * Second)
                     (1 * Second) 0 world0 eq_refl eq_refl eq_refl)
              (mkLock "migration_lock" "other-0a1b2c3d" (-100) (-1)) eq_refl eq_refl)
    as (Ha & _ & Hs & _).
  destruct (proj2 (Acquire_retry (sample_manager lock_absent) (60 * Second) 120
                     (60 * Second) (1 * Second) 0 world0 eq_refl eq_refl eq_refl)
              ErrNotFound eq_refl)
    as (Hb & Hh & _).
  rewrite Ha, Hb. cbn [fst snd]. rewrite Hs, Hh. repeat split.
Defined.

(** C5 as stated fails on the code: the insert is not applied and the
    lock row is not found when it is read; Acquire sleeps one second
    before the next attempt. *)
Lemma Acquire_absent_row_counterexample :
  let lm := sample_manager lock_absent in
  (forall w, lock_row (cluster lm) w = inl ErrNotFound)
  /\ history (snd (Acquire 2 lm (60 * Second) world0))
     = [EvLockInsert "migration_lock" "host-0123abcd" 0 (60 * Second) 120;
        EvGetCurrentLock "migration_lock";
        EvSleep (1 * Second);
        EvLockInsert "migration_lock" "host-0123abcd" (1 * Second) (61 * Second) 120;
        EvGetCurrentLock "migration_lock";
        EvSleep (2 * Second)].
Proof. cbv zeta. split; [reflexivity | vm_compute; reflexivity]. Qed.

(** * Further properties of the engine *)

(** ** Parser and resolver *)

Import ResolverQueries.

Lemma parse_twice (fs : filesystem) (mig : Migration) :
  ParseMigrationFile fs (fst (ParseMigrationFile fs mig)) = ParseMigrationFile fs mig.
Proof.
  unfold ParseMigrationFile at 2. destruct (fs (FilePath mig)) as [e|content] eqn:Hfs.
  - cbn [fst]. unfold ParseMigrationFile. rewrite Hfs. reflexivity.
  - cbv zeta. unfold CalculateChecksumFromContent.
    destruct (splitStatements _) as [e|stmts] eqn:Hs;
      cbn [fst]; unfold ParseMigrationFile; cbn [FilePath set_Checksum set_RawContent
        set_Statements]; rewrite Hfs; cbv zeta; unfold CalculateChecksumFromContent;
      rewrite Hs; reflexivity.
Qed.

(** X1. ParseMigrationFile is idempotent: parsing a migration that has
    been parsed, with the files unchanged, leaves it as it is and returns
    the same error; and whatever the outcome, the version, type,
    description, file name and file path of the migration are not
    touched. *)
Theorem ParseMigrationFile_idempotent (fs : filesystem) (mig : Migration) :
  ParseMigrationFile fs (fst (ParseMigrationFile fs mig)) = ParseMigrationFile fs mig
  /\ Version (fst (ParseMigrationFile fs mig)) = Version mig
  /\ Type_ (fst (ParseMigrationFile fs mig)) = Type_ mig
  /\ Description (fst (ParseMigrationFile fs mig)) = Description mig
  /\ Filename (fst (ParseMigrationFile fs mig)) = Filename mig
  /\ FilePath (fst (ParseMigrationFile fs mig)) = FilePath mig.
Proof.
  split; [apply parse_twice|].
  destruct (ParseMigrationFile_keeps fs mig) as (Hv & Ht & Hd & Hf).
  repeat split; try assumption.
  unfold ParseMigrationFile. destruct (fs (FilePath mig)); [reflexivity|].
  cbv zeta. unfold CalculateChecksumFromContent. destruct (splitStatements _); reflexivity.
Qed.

Lemma undo_from_spec (version : string) (migs : list Migration) :
  forall i : nat,
    match undo_from i migs version with
    | Some p =>
        exists j mig, p = (i + j)%nat /\ migs !! j = Some mig
                      /\ Type_ mig = TypeUndo /\ Version mig = version
                      /\ forall k m, (k < j)%nat -> migs !! k = Some m ->
                                     ~ (Type_ m = TypeUndo /\ Version m = version)
    | None =>
        forall m, m ∈ migs -> ~ (Type_ m = TypeUndo /\ Version m = version)
    end.
Proof.
  induction migs as [|mig rest IH]; intros i; cbn [undo_from].
  - intros m Hm. inversion Hm.
  - destruct (bool_decide (Type_ mig = TypeUndo) && String.eqb (Version mig) version)
      eqn:Htest.
    + apply andb_true_iff in Htest as [Ht Hv].
      apply bool_decide_eq_true in Ht. apply String.eqb_eq in Hv.
      exists 0%nat, mig. repeat split; [lia | assumption | assumption |].
      intros k m Hk. lia.
    + assert (~ (Type_ mig = TypeUndo /\ Version mig = version)) as Hno.
      { intros [Ht Hv]. apply andb_false_iff in Htest as [H|H].
        - apply bool_decide_eq_false in H. contradiction.
        - apply String.eqb_neq in H. contradiction. }
      specialize (IH (S i)). destruct (undo_from (S i) rest version) as [p|].
      * destruct IH as (j & m & -> & Hj & Ht & Hv & Hfirst).
        exists (S j), m. repeat split; [lia | assumption | assumption | assumption |].
        intros k m' Hk Hm'. destruct k as [|k]; [injection Hm' as <-; exact Hno|].
        apply (Hfirst k m'); [lia | exact Hm'].
      * intros m Hm. apply elem_of_cons in Hm as [-> | Hm]; [exact Hno | apply IH, Hm].
Qed.

(** X2. GetUndoMigration returns the first Undo migration of the scanned
    list that has the version asked for, and nil exactly when the list has
    no Undo migration of that version; a Versioned or Repeatable migration
    of the same version is never returned. *)
Theorem GetUndoMigration_first (migrations : list Migration) (version : string) :
  match GetUndoMigration migrations version with
  | Some p =>
      exists mig, migrations !! p = Some mig
                  /\ Type_ mig = TypeUndo /\ Version mig = version
                  /\ forall k m, (k < p)%nat -> migrations !! k = Some m ->
                                 ~ (Type_ m = TypeUndo /\ Version m = version)
  | None =>
      forall m, m ∈ migrations -> ~ (Type_ m = TypeUndo /\ Version m = version)
  end.
Proof.
  unfold GetUndoMigration. pose proof (undo_from_spec version migrations 0) as H.
  destruct (undo_from 0 migrations version) as [p|]; [|exact H].
  destruct H as (j & mig & -> & H). exists mig. exact H.
Qed.

Lemma filter_loop_filter (target : string) (migrations : list Migration) :
  forall filtered,
    filter_loop migrations target filtered
    = filtered ++ List.filter (up_to target) migrations.
Proof.
  induction migrations as [|mig rest IH]; intros filtered; cbn [filter_loop List.filter].
  - rewrite app_nil_r. reflexivity.
  - unfold up_to at 1. destruct (bool_decide (Type_ mig = TypeRepeatable)); cbn [orb].
    + rewrite IH, <- app_assoc. reflexivity.
    + destruct (CompareVersions (Version mig) target <=? 0).
      * rewrite IH, <- app_assoc. reflexivity.
      * apply IH.
Qed.

(** X3. FilterUpToTarget keeps, in their order, exactly the Repeatable
    migrations and the others whose version compares at most equal to the
    target; filtering twice changes nothing.  For versions and a target
    that are digit strings fitting [int], a migration that is not
    Repeatable is kept exactly when its number is at most the number of
    the target. *)
Theorem FilterUpToTarget_keeps (migrations : list Migration) (target : string) :
  FilterUpToTarget migrations target = List.filter (up_to target) migrations
  /\ FilterUpToTarget (FilterUpToTarget migrations target) target
     = FilterUpToTarget migrations target
  /\ (forall mig, Type_ mig = TypeRepeatable -> mig ∈ migrations ->
                  mig ∈ FilterUpToTarget migrations target)
  /\ (forall mig,
        Type_ mig <> TypeRepeatable -> fits_int (Version mig) -> fits_int target ->
        (mig ∈ FilterUpToTarget migrations target
         <-> mig ∈ migrations /\ value (Version mig) <= value target)).
Proof.
  assert (forall l, FilterUpToTarget l target = List.filter (up_to target) l) as Heq.
  { intros l. unfold FilterUpToTarget. rewrite filter_loop_filter. reflexivity. }
  split; [apply Heq|]. split; [|split].
  - rewrite !Heq. induction migrations as [|mig rest IH]; [reflexivity|].
    cbn [List.filter]. destruct (up_to target mig) eqn:Hu; [|exact IH].
    cbn [List.filter]. rewrite Hu, IH. reflexivity.
  - intros mig Hty Hin. rewrite Heq. apply list_elem_of_In, filter_In.
    split; [apply list_elem_of_In, Hin|]. unfold up_to.
    rewrite (bool_decide_eq_true_2 _ Hty). reflexivity.
  - intros mig Hty [Hd Hm] [Htd Htm]. rewrite Heq, list_elem_of_In, filter_In,
      <- list_elem_of_In. unfold up_to.
    rewrite (bool_decide_eq_false_2 _ Hty). cbn [orb].
    rewrite (CompareVersions_digits _ _ Hd Htd Hm Htm), Z.leb_le. split.
    + intros [Hin Hs]. split; [exact Hin | lia].
    + intros [Hin Hs]. split; [exact Hin | lia].
Qed.

Lemma FilterUpToTarget_keeps_witness :
  let migs := [sample_migration TypeVersioned "001" "V001__a.cql";
               sample_migration TypeVersioned "002" "V002__a.cql";
               sample_migration TypeVersioned "003" "V003__a.cql";
               sample_migration TypeRepeatable "R" "R__a.cql"] in
  FilterUpToTarget migs "002"
    = [sample_migration TypeVersioned "001" "V001__a.cql";
       sample_migration TypeVersioned "002" "V002__a.cql";
       sample_migration TypeRepeatable "R" "R__a.cql"]
  /\ sample_migration TypeRepeatable "R" "R__a.cql" ∈ FilterUpToTarget migs "002"
  /\ sample_migration TypeVersioned "003" "V003__a.cql" ∉ FilterUpToTarget migs "002".
Proof.
  intros migs. split; [vm_compute; reflexivity|].
  destruct (FilterUpToTarget_keeps migs "002") as (_ & _ & Hr & Hv). split.
  - apply Hr; [reflexivity|]. do 3 right. left.
  - intros Hin.
    apply (Hv (sample_migration TypeVersioned "003" "V003__a.cql")) in Hin as [_ Hle].
    + vm_compute in Hle. apply Hle. reflexivity.
    + discriminate.
    + split; [reflexivity | vm_compute; discriminate].
    + split; [reflexivity | vm_compute; discriminate].
Defined.

(** The pointers the loop adds are increasing positions of [todo], each
    of a migration that was parsed without error and is left parsed. *)
Lemma pending_loop_shape (fs : filesystem) (appliedMap : gmap string AppliedMigration)
    (todo : list Migration) :
  forall (i : nat) (pending : list ptr) (migs' : list Migration) (res : list ptr),
    pending_loop fs appliedMap i todo pending = (migs', inr res) ->
    length migs' = length todo
    /\ exists extra,
         res = pending ++ extra
         /\ StronglySorted lt extra
         /\ Forall (fun p =>
                      exists j mig, p = (i + j)%nat /\ todo !! j = Some mig
                                    /\ migs' !! j = Some (fst (ParseMigrationFile fs mig))
                                    /\ snd (ParseMigrationFile fs mig) = None) extra.
Proof.
  assert (forall i (rest rest' : list Migration) (m m' : Migration) extra,
    Forall (fun p => exists j mig, p = (S i + j)%nat /\ rest !! j = Some mig
                       /\ rest' !! j = Some (fst (ParseMigrationFile fs mig))
                       /\ snd (ParseMigrationFile fs mig) = None) extra ->
    Forall (fun p => exists j mig, p = (i + j)%nat /\ (m :: rest) !! j = Some mig
                       /\ (m' :: rest') !! j = Some (fst (ParseMigrationFile fs mig))
                       /\ snd (ParseMigrationFile fs mig) = None) extra
    /\ Forall (lt i) extra) as Hshift.
  { intros i rest rest' m m' extra H. split.
    - eapply Forall_impl; [exact H|]. intros p (j & mig & -> & Hj & Hj' & Hp).
      exists (S j), mig. repeat split; [lia | exact Hj | exact Hj' | exact Hp].
    - eapply Forall_impl; [exact H|]. intros p (j & mig & -> & _). lia. }
  induction todo as [|mig rest IH]; intros i pending migs' res H.
  - injection H as <- <-. split; [reflexivity|]. exists [].
    rewrite app_nil_r. repeat split; constructor.
  - cbn [pending_loop] in H. destruct (Type_ mig) eqn:Hty.
    + destruct (appliedMap !! Version mig) as [a|] eqn:Hl.
      * destruct (pending_loop fs appliedMap (S i) rest pending) as [rest' r] eqn:Hrec.
        injection H as <- ->. destruct (IH _ _ _ _ Hrec) as (Hlen & extra & -> & Hs & Hf).
        split; [cbn; lia|]. exists extra. destruct (Hshift i rest rest' mig mig extra Hf).
        auto.
      * destruct (ParseMigrationFile fs mig) as [mig' [err|]] eqn:Hp; [discriminate|].
        destruct (pending_loop fs appliedMap (S i) rest (pending ++ [i]))
          as [rest' r] eqn:Hrec.
        injection H as <- ->. destruct (IH _ _ _ _ Hrec) as (Hlen & extra & -> & Hs & Hf).
        split; [cbn; lia|]. exists (i :: extra).
        destruct (Hshift i rest rest' mig mig' extra Hf) as [Hf' Hlt].
        split; [rewrite <- app_assoc; reflexivity|].
        split; [constructor; assumption|]. constructor; [|exact Hf'].
        exists 0%nat, mig. rewrite Hp. repeat split. lia.
    + destruct (pending_loop fs appliedMap (S i) rest pending) as [rest' r] eqn:Hrec.
      injection H as <- ->. destruct (IH _ _ _ _ Hrec) as (Hlen & extra & -> & Hs & Hf).
      split; [cbn; lia|]. exists extra. destruct (Hshift i rest rest' mig mig extra Hf).
      auto.
    + destruct (ParseMigrationFile fs mig) as [mig' [err|]] eqn:Hp; [discriminate|].
      cbv zeta in H.
      destruct (pending_loop fs appliedMap (S i) rest _) as [rest' r] eqn:Hrec.
      injection H as <- ->. destruct (IH _ _ _ _ Hrec) as (Hlen & extra & Hres & Hs & Hf).
      split; [cbn; lia|].
      destruct (Hshift i rest rest' mig mig' extra Hf) as [Hf' Hlt].
      assert (Forall (fun p => exists j m, p = (i + j)%nat /\ (mig :: rest) !! j = Some m
                /\ (mig' :: rest') !! j = Some (fst (ParseMigrationFile fs m))
                /\ snd (ParseMigrationFile fs m) = None) (i :: extra)) as Hcons.
      { constructor; [|exact Hf']. exists 0%nat, mig. rewrite Hp. repeat split. lia. }
      destruct (appliedMap !! _) as [a|];
        [destruct (String.eqb (aChecksum a) (Checksum mig'))|].
      * exists extra. auto.
      * exists (i :: extra). rewrite Hres, <- app_assoc.
        split; [reflexivity|]. split; [constructor; assumption | exact Hcons].
      * exists (i :: extra). rewrite Hres, <- app_assoc.
        split; [reflexivity|]. split; [constructor; assumption | exact Hcons].
Qed.

(** X4. When GetPendingMigrations succeeds, the pending pointers are in
    scanner order without repetition, and each of them points to a
    migration that has been parsed without error and is left parsed (its
    checksum and statements are loaded).  An Undo migration is never
    pending.  A Repeatable migration is pending exactly when the applied
    map has no successful row under "R_<description>" or that row has
    another checksum than the file. *)
Theorem GetPendingMigrations_pending (fs : filesystem) (migrations : list Migration)
    (applied : list AppliedMigration) (migs' : list Migration) (pending : list ptr) :
  GetPendingMigrations fs migrations applied = (migs', inr pending) ->
  StronglySorted lt pending
  /\ length migs' = length migrations
  /\ (forall p, p ∈ pending ->
        exists mig, migrations !! p = Some mig
                    /\ migs' !! p = Some (fst (ParseMigrationFile fs mig))
                    /\ snd (ParseMigrationFile fs mig) = None)
  /\ (forall i mig, migrations !! i = Some mig -> Type_ mig = TypeUndo -> i ∉ pending)
  /\ (forall i mig,
        migrations !! i = Some mig -> Type_ mig = TypeRepeatable ->
        (i ∈ pending
         <-> match appliedMap_of applied !! (Version mig +:+ "_" +:+ Description mig) with
             | None => True
             | Some a => aChecksum a <> Checksum (fst (ParseMigrationFile fs mig))
             end)).
Proof.
  intros H. unfold GetPendingMigrations in H.
  destruct (pending_loop_shape _ _ _ _ _ _ _ H) as (Hlen & extra & Hres & Hs & Hf).
  cbn [app] in Hres. subst extra.
  pose proof (pending_loop_elem _ _ _ _ _ _ _ H) as Hel.
  split; [exact Hs|]. split; [exact Hlen|]. split; [|split].
  - intros p Hp. rewrite Forall_forall in Hf.
    destruct (Hf p Hp) as (j & mig & -> & Hj & Hj' & Hok). exists mig. auto.
  - intros i mig Hi Hty Hin. apply Hel in Hin as [Hin | (j & m & Hj & Hij & Hsel)];
      [inversion Hin|].
    cbn in Hij. subst j. rewrite Hi in Hj. injection Hj as <-.
    unfold selects in Hsel. rewrite Hty in Hsel. exact Hsel.
  - intros i mig Hi Hty. rewrite (Hel i).
    destruct (ParseMigrationFile_keeps fs mig) as (Hv & _ & Hd & _). cbv zeta in Hv, Hd.
    assert (selects fs (appliedMap_of applied) mig
            <-> match appliedMap_of applied !! (Version mig +:+ "_" +:+ Description mig) with
                | None => True
                | Some a => aChecksum a <> Checksum (fst (ParseMigrationFile fs mig))
                end) as Hsel.
    { unfold selects. rewrite Hty. cbv zeta. rewrite Hv, Hd.
      destruct (appliedMap_of applied !! _); [apply String.eqb_neq | reflexivity]. }
    rewrite <- Hsel. split.
    + intros [Hin | (j & m & Hj & Hij & Hs')]; [inversion Hin|].
      cbn in Hij. subst j. rewrite Hi in Hj. injection Hj as <-. exact Hs'.
    + intros Hs'. right. exists i, mig. auto.
Qed.

Lemma GetPendingMigrations_pending_witness :
  let migrations := [sample_migration TypeVersioned "001" "V001__a.cql";
                     sample_migration TypeUndo "001" "U001__a.cql";
                     sample_migration TypeRepeatable "R" "R__a.cql"] in
  let applied := [sample_row "001" "versioned" true; sample_row "R_a" "repeatable" true] in
  snd (GetPendingMigrations sample_fs migrations applied) = inr [2%nat]
  /\ StronglySorted lt [2%nat]
  /\ 1%nat ∉ [2%nat].
Proof.
  intros migrations applied.
  assert (GetPendingMigrations sample_fs migrations applied
          = (fst (GetPendingMigrations sample_fs migrations applied), inr [2%nat])) as H
    by (vm_compute; reflexivity).
  destruct (GetPendingMigrations_pending _ _ _ _ _ H) as (Hs & _ & _ & Hu & _).
  split; [vm_compute; reflexivity|]. split; [exact Hs|].
  exact (Hu 1%nat (sample_migration TypeUndo "001" "U001__a.cql") eq_refl eq_refl).
Defined.

Lemma pending_loop_error (fs : filesystem) (appliedMap : gmap string AppliedMigration)
    (todo : list Migration) :
  forall (i : nat) (pending : list ptr),
    match snd (pending_loop fs appliedMap i todo pending) with
    | inl e =>
        exists mig perr,
          mig ∈ todo /\ needs_parse appliedMap mig = true
          /\ snd (ParseMigrationFile fs mig) = Some perr
          /\ e = "failed to parse migration " +:+ Filename mig +:+ ": " +:+ perr
    | inr _ =>
        forall mig, mig ∈ todo -> needs_parse appliedMap mig = true ->
                    snd (ParseMigrationFile fs mig) = None
    end.
Proof.
  induction todo as [|mig rest IH]; intros i pending.
  - cbn. intros mig Hm. inversion Hm.
  - assert (forall (q : list ptr) (P : Prop),
      (needs_parse appliedMap mig = true -> snd (ParseMigrationFile fs mig) = None) ->
      match snd (pending_loop fs appliedMap (S i) rest q) with
      | inl e => exists m perr, m ∈ mig :: rest /\ needs_parse appliedMap m = true
                   /\ snd (ParseMigrationFile fs m) = Some perr
                   /\ e = "failed to parse migration " +:+ Filename m +:+ ": " +:+ perr
      | inr _ => forall m, m ∈ mig :: rest -> needs_parse appliedMap m = true ->
                           snd (ParseMigrationFile fs m) = None
      end) as Hstep.
    { intros q _ Hmig. specialize (IH (S i) q).
      destruct (snd (pending_loop fs appliedMap (S i) rest q)) as [e|r].
      - destruct IH as (m & perr & Hm & H). exists m, perr. split; [right; exact Hm | exact H].
      - intros m Hm. apply elem_of_cons in Hm as [-> | Hm]; [exact Hmig | apply IH, Hm]. }
    cbn [pending_loop]. unfold needs_parse in Hstep. destruct (Type_ mig) eqn:Hty.
    + destruct (appliedMap !! Version mig) as [a|] eqn:Hl.
      * specialize (Hstep pending True).
        destruct (pending_loop fs appliedMap (S i) rest pending) as [rest' r].
        apply Hstep. intros Hb. apply bool_decide_eq_true in Hb. discriminate.
      * destruct (ParseMigrationFile fs mig) as [mig' [err|]] eqn:Hp.
        -- cbn [snd]. exists mig, err. rewrite Hp. unfold needs_parse. rewrite Hty, Hl.
           repeat split. left.
        -- specialize (Hstep (pending ++ [i]) True).
           destruct (pending_loop fs appliedMap (S i) rest (pending ++ [i])) as [rest' r].
           apply Hstep. reflexivity.
    + specialize (Hstep pending True).
      destruct (pending_loop fs appliedMap (S i) rest pending) as [rest' r].
      apply Hstep. discriminate.
    + destruct (ParseMigrationFile fs mig) as [mig' [err|]] eqn:Hp.
      * cbn [snd]. exists mig, err. rewrite Hp. unfold needs_parse. rewrite Hty.
        repeat split. left.
      * cbv zeta. match goal with |- context [pending_loop _ _ _ _ ?q] =>
          specialize (Hstep q True);
          destruct (pending_loop fs appliedMap (S i) rest q) as [rest' r] end.
        apply Hstep. reflexivity.
Qed.

(** X5. GetPendingMigrations fails exactly when a file it has to parse
    cannot be parsed: a Versioned migration without a successful applied
    row, or any Repeatable migration; the error names the file.  The
    Versioned migrations that are applied and the Undo migrations are not
    read, so that a broken file among them does not make the call fail. *)
Theorem GetPendingMigrations_failure (fs : filesystem) (migrations : list Migration)
    (applied : list AppliedMigration) :
  match snd (GetPendingMigrations fs migrations applied) with
  | inl e =>
      exists mig perr,
        mig ∈ migrations /\ needs_parse (appliedMap_of applied) mig = true
        /\ snd (ParseMigrationFile fs mig) = Some perr
        /\ e = "failed to parse migration " +:+ Filename mig +:+ ": " +:+ perr
  | inr _ =>
      forall mig, mig ∈ migrations -> needs_parse (appliedMap_of applied) mig = true ->
                  snd (ParseMigrationFile fs mig) = None
  end.
Proof. apply pending_loop_error. Qed.

Lemma fileMap_from_none (migs : list Migration) :
  forall (i : nat) (m : gmap string ptr) (v : string),
    fileMap_from i migs m !! v = None ->
    forall mig, mig ∈ migs -> ~ (Type_ mig = TypeVersioned /\ Version mig = v).
Proof.
  induction migs as [|mig rest IH]; intros i m v H mig' Hin; [inversion Hin|].
  cbn [fileMap_from] in H. apply elem_of_cons in Hin as [-> | Hin].
  - intros [Hty Hv].
    assert (forall l j (m0 : gmap string ptr), is_Some (m0 !! v) ->
              is_Some (fileMap_from j l m0 !! v)) as Hkeep.
    { induction l as [|x l IHl]; intros j m0 Hs; [exact Hs|].
      cbn [fileMap_from]. apply IHl. destruct (decide (Type_ x = TypeVersioned)); [|exact Hs].
      destruct (decide (Version x = v)) as [->|Hne];
        [rewrite lookup_insert_eq; eauto | rewrite lookup_insert_ne by exact Hne; exact Hs]. }
    destruct (Hkeep rest (S i)
                (if decide (Type_ mig = TypeVersioned) then <[Version mig := i]> m else m))
      as [x Hx]; [|congruence].
    destruct (decide (Type_ mig = TypeVersioned)); [|contradiction].
    rewrite Hv, lookup_insert_eq. eauto.
  - eapply IH; [exact H | exact Hin].
Qed.

(** The map of the files holds, for a version, the last Versioned
    migration of that version. *)
Lemma fileMap_from_lookup (migs : list Migration) :
  forall (i : nat) (m : gmap string ptr) (v : string) (p : ptr),
    fileMap_from i migs m !! v = Some p ->
    (m !! v = Some p
     /\ forall mig, mig ∈ migs -> ~ (Type_ mig = TypeVersioned /\ Version mig = v))
    \/ exists j mig, p = (i + j)%nat /\ migs !! j = Some mig
                     /\ Type_ mig = TypeVersioned /\ Version mig = v
                     /\ forall k m', (j < k)%nat -> migs !! k = Some m' ->
                                     ~ (Type_ m' = TypeVersioned /\ Version m' = v).
Proof.
  induction migs as [|mig rest IH]; intros i m v p H.
  { left. split; [exact H|]. intros mig Hin. inversion Hin. }
  cbn [fileMap_from] in H.
  apply IH in H as [[H Hnone] | (j & mig' & -> & Hj & Ht & Hv & Hlast)].
  - destruct (decide (Type_ mig = TypeVersioned /\ Version mig = v)) as [[Hty Hv]|Hno].
    + destruct (decide (Type_ mig = TypeVersioned)); [|contradiction].
      rewrite Hv, lookup_insert_eq in H. injection H as <-.
      right. exists 0%nat, mig. repeat split; [lia | assumption | assumption |].
      intros k m' Hk Hm'. destruct k as [|k]; [lia|].
      apply Hnone, list_elem_of_lookup. exists k. exact Hm'.
    + left. split.
      * destruct (decide (Type_ mig = TypeVersioned)) as [Hty|Hty]; [|exact H].
        rewrite lookup_insert_ne in H; [exact H|]. intros Hv. apply Hno. auto.
      * intros m' Hin. apply elem_of_cons in Hin as [-> | Hin]; [exact Hno | apply Hnone, Hin].
  - right. exists (S j), mig'.
    repeat split; [lia | assumption | assumption | assumption |].
    intros k m' Hk Hm'. destruct k as [|k]; [lia|]. apply (Hlast k m'); [lia | exact Hm'].
Qed.

Lemma validate_fold (fs : filesystem) (migrations : list Migration)
    (applied : list AppliedMigration) :
  forall (store : list Migration) (errors : list string),
    Forall2 (fun m m0 => ParseMigrationFile fs m = ParseMigrationFile fs m0)
            store migrations ->
    snd (foldl (validate_row fs (fileMap_from 0 migrations ∅)) (store, errors) applied)
    = errors ++ flat_map (row_verdict fs migrations) applied.
Proof.
  induction applied as [|a applied IH]; intros store errors Hrel; cbn [foldl flat_map].
  - rewrite app_nil_r. reflexivity.
  - unfold validate_row at 2. unfold row_verdict at 1.
    destruct (negb (aSuccess a) || String.eqb (aType a) "repeatable").
    { rewrite (IH _ _ Hrel). reflexivity. }
    destruct (fileMap_from 0 migrations ∅ !! aVersion a) as [p|].
    2:{ rewrite (IH _ _ Hrel), <- app_assoc. reflexivity. }
    destruct (store !! p) as [fileMig|] eqn:Hs;
      destruct (migrations !! p) as [m0|] eqn:Hm.
    2:{ destruct (Forall2_lookup_l _ _ _ _ _ Hrel Hs) as (y & Hy & _).
        pose proof (eq_trans (eq_sym Hy) Hm) as Hcontra. discriminate. }
    2:{ destruct (Forall2_lookup_r _ _ _ _ _ Hrel Hm) as (x & Hx & _).
        pose proof (eq_trans (eq_sym Hx) Hs) as Hcontra. discriminate. }
    2:{ rewrite (IH _ _ Hrel). reflexivity. }
    pose proof (Forall2_lookup_lr _ _ _ _ _ _ Hrel Hs Hm) as Heq. cbv beta in Heq.
    rewrite <- Heq.
    assert (Forall2 (fun m m1 => ParseMigrationFile fs m = ParseMigrationFile fs m1)
              (<[p := fst (ParseMigrationFile fs fileMig)]> store) migrations) as Hrel'.
    { rewrite <- (list_insert_id migrations p m0 Hm). apply Forall2_insert; [exact Hrel|].
      rewrite parse_twice. exact Heq. }
    destruct (ParseMigrationFile fs fileMig) as [fileMig' [e|]]; cbn [fst] in Hrel'.
    + rewrite (IH _ _ Hrel'), <- app_assoc. reflexivity.
    + destruct (String.eqb (Checksum fileMig') (aChecksum a)).
      * rewrite (IH _ _ Hrel'). reflexivity.
      * rewrite (IH _ _ Hrel'), <- app_assoc. reflexivity.
Qed.

Lemma flat_map_nil {A B} (f : A -> list B) (l : list A) :
  flat_map f l = [] <-> forall a, a ∈ l -> f a = [].
Proof.
  induction l as [|x l IH]; cbn [flat_map].
  - split; [intros _ a Ha; inversion Ha | reflexivity].
  - split.
    + intros H. apply app_eq_nil in H as [Hx Hl]. intros a Ha.
      apply elem_of_cons in Ha as [-> | Ha]; [exact Hx | apply IH; assumption].
    + intros H. rewrite (H x) by left. apply IH. intros a Ha. apply H. right. exact Ha.
Qed.

Lemma flat_map_length_le {A B} (f : A -> list B) (l : list A) :
  (forall a, length (f a) <= 1)%nat -> (length (flat_map f l) <= length l)%nat.
Proof.
  intros H. induction l as [|x l IH]; [reflexivity|].
  cbn [flat_map length]. rewrite length_app. specialize (H x). lia.
Qed.

Lemma ValidateAppliedChecksums_errors (fs : filesystem) (migrations : list Migration)
    (applied : list AppliedMigration) :
  snd (ValidateAppliedChecksums fs migrations applied)
  = flat_map (row_verdict fs migrations) applied.
Proof.
  unfold ValidateAppliedChecksums. rewrite validate_fold; [reflexivity|].
  apply Forall_Forall2_diag, Forall_forall. reflexivity.
Qed.

(** The entry of a version in the file map is the last Versioned
    migration of that version. *)
Lemma fileMap_from_last (migrations : list Migration) (p : nat) (mig : Migration) :
  migrations !! p = Some mig -> Type_ mig = TypeVersioned ->
  (forall k m, (p < k)%nat -> migrations !! k = Some m ->
               ~ (Type_ m = TypeVersioned /\ Version m = Version mig)) ->
  fileMap_from 0 migrations ∅ !! Version mig = Some p.
Proof.
  intros Hp Hty Hlast.
  destruct (fileMap_from 0 migrations ∅ !! Version mig) as [q|] eqn:Hq.
  - apply fileMap_from_lookup in Hq as [[Hq _] | (j & m & -> & Hj & Htj & Hvj & Hlastj)].
    + rewrite lookup_empty in Hq. discriminate.
    + cbn [Nat.add]. f_equal. destruct (lt_eq_lt_dec j p) as [[Hlt | ->] | Hgt];
        [|reflexivity|].
      * exfalso. apply (Hlastj p mig Hlt Hp). auto.
      * exfalso. apply (Hlast j m Hgt Hj). auto.
  - exfalso. apply (fileMap_from_none migrations 0%nat ∅ (Version mig) Hq mig); [|auto].
    apply list_elem_of_lookup. exists p. exact Hp.
Qed.

Lemma fileMap_from_absent (migrations : list Migration) (v : string) :
  (forall mig, mig ∈ migrations -> ~ (Type_ mig = TypeVersioned /\ Version mig = v)) ->
  fileMap_from 0 migrations ∅ !! v = None.
Proof.
  intros Hno. destruct (fileMap_from 0 migrations ∅ !! v) as [q|] eqn:Hq; [|reflexivity].
  exfalso.
  apply fileMap_from_lookup in Hq as [[Hq _] | (j & m & _ & Hj & Htj & Hvj & _)].
  - rewrite lookup_empty in Hq. discriminate.
  - apply (Hno m); [|auto]. apply list_elem_of_lookup. exists j. exact Hj.
Qed.

Lemma row_verdict_with_type (fs : filesystem) (migrations : list Migration)
    (a : AppliedMigration) (t : string) :
  aType a <> "repeatable" -> t <> "repeatable" ->
  row_verdict fs migrations (with_type t a) = row_verdict fs migrations a.
Proof.
  intros Ha Ht. apply String.eqb_neq in Ha, Ht. unfold row_verdict.
  cbn [with_type aSuccess aType aVersion aChecksum]. rewrite Ha, Ht. reflexivity.
Qed.

(** C3, as the code has it. ValidateAppliedChecksums passes over the
    applied rows with success=false and over those of type "repeatable",
    and over no other: the result is the one without such a row.  Every
    other row is examined, and its type has no part in it, so that a
    successful row of type "undo" is validated like a versioned one: the
    errors are those of the rows before it, then those of the row on its
    own, then those of the rows after it; the errors of the row on its own
    are the same for every type but "repeatable"; they are the error
    that no file corresponds to it when no Versioned file has its version
    and otherwise, with the last Versioned file of its version, the error
    that the file does not parse, or the checksum mismatch, or nothing
    when the checksums agree. *)
Theorem ValidateAppliedChecksums_rows (fs : filesystem) (migrations : list Migration)
    (before after : list AppliedMigration) (a : AppliedMigration) :
  (aSuccess a = false \/ aType a = "repeatable" ->
   ValidateAppliedChecksums fs migrations (before ++ a :: after)
   = ValidateAppliedChecksums fs migrations (before ++ after))
  /\ (aSuccess a = true -> aType a <> "repeatable" ->
      snd (ValidateAppliedChecksums fs migrations (before ++ a :: after))
      = snd (ValidateAppliedChecksums fs migrations before)
        ++ snd (ValidateAppliedChecksums fs migrations [a])
        ++ snd (ValidateAppliedChecksums fs migrations after)
      /\ (forall t, t <> "repeatable" ->
            snd (ValidateAppliedChecksums fs migrations [with_type t a])
            = snd (ValidateAppliedChecksums fs migrations [a])
            /\ snd (ValidateAppliedChecksums fs migrations (before ++ with_type t a :: after))
               = snd (ValidateAppliedChecksums fs migrations (before ++ a :: after)))
      /\ ((forall mig, mig ∈ migrations ->
                       ~ (Type_ mig = TypeVersioned /\ Version mig = aVersion a)) ->
          snd (ValidateAppliedChecksums fs migrations [a]) = [no_file_msg a]
          /\ ValidateAppliedChecksums fs migrations (before ++ [a])
             = (fst (ValidateAppliedChecksums fs migrations before),
                snd (ValidateAppliedChecksums fs migrations before) ++ [no_file_msg a]))
      /\ (forall p mig,
            migrations !! p = Some mig ->
            Type_ mig = TypeVersioned -> Version mig = aVersion a ->
            (forall k m, (p < k)%nat -> migrations !! k = Some m ->
                         ~ (Type_ m = TypeVersioned /\ Version m = aVersion a)) ->
            snd (ValidateAppliedChecksums fs migrations [a])
            = match ParseMigrationFile fs mig with
              | (_, Some e) => [parse_failed_msg a e]
              | (mig', None) =>
                  if String.eqb (Checksum mig') (aChecksum a) then []
                  else [mismatch_msg a (Checksum mig')]
              end)).
Proof.
  split.
  - intros H. unfold ValidateAppliedChecksums. rewrite !foldl_app. cbn [foldl].
    rewrite (validate_row_skipped _ _ _ _ H). reflexivity.
  - intros Hs Ht. pose proof Ht as Hneq. apply String.eqb_neq in Ht.
    assert (row_verdict fs migrations a
            = match fileMap_from 0 migrations ∅ !! aVersion a with
              | None => [no_file_msg a]
              | Some p =>
                  match migrations !! p with
                  | None => []
                  | Some mig =>
                      match ParseMigrationFile fs mig with
                      | (_, Some e) => [parse_failed_msg a e]
                      | (mig', None) =>
                          if String.eqb (Checksum mig') (aChecksum a) then []
                          else [mismatch_msg a (Checksum mig')]
                      end
                  end
              end) as Hrow.
    { unfold row_verdict. rewrite Hs, Ht. reflexivity. }
    assert (snd (ValidateAppliedChecksums fs migrations [a]) = row_verdict fs migrations a)
      as Hone.
    { rewrite ValidateAppliedChecksums_errors. cbn [flat_map]. apply app_nil_r. }
    split; [|split; [|split]].
    + rewrite Hone, !ValidateAppliedChecksums_errors, flat_map_app. reflexivity.
    + intros t Hty. rewrite !ValidateAppliedChecksums_errors, !flat_map_app.
      cbn [flat_map]. rewrite !app_nil_r, (row_verdict_with_type _ _ _ _ Hneq Hty).
      split; reflexivity.
    + intros Hno. pose proof (fileMap_from_absent _ _ Hno) as Hf.
      split; [rewrite Hone, Hrow, Hf; reflexivity|].
      unfold ValidateAppliedChecksums. rewrite foldl_app. cbn [foldl].
      destruct (foldl _ _ before) as [migs errors]. unfold validate_row.
      rewrite Hs, Ht. cbn [negb orb].
      destruct (fileMap_from 0 migrations ∅ !! aVersion a) as [q|];
        [discriminate Hf | reflexivity].
    + intros p mig Hp Hty Hv Hlast. rewrite <- Hv in Hlast.
      pose proof (fileMap_from_last _ _ _ Hp Hty Hlast) as Hf. rewrite Hv in Hf.
      rewrite Hone. unfold row_verdict. rewrite Hs, Ht. cbn [negb orb].
      unfold ptr in *. rewrite Hf, Hp. reflexivity.
Qed.

Lemma ValidateAppliedChecksums_rows_witness :
  let migrations := [sample_migration TypeVersioned "001" "V001__a.cql"] in
  let failed := sample_row "001" "versioned" false in
  let undo := sample_row "001" "undo" true in
  let stray := sample_row "002" "undo" true in
  snd (ValidateAppliedChecksums sample_fs migrations ([] ++ failed :: []))
    = snd (ValidateAppliedChecksums sample_fs migrations ([] ++ []))
  /\ snd (ValidateAppliedChecksums sample_fs migrations [undo])
     = [mismatch_msg undo (parsed_checksum "CREATE TABLE foo (id UUID PRIMARY KEY);")]
  /\ snd (ValidateAppliedChecksums sample_fs migrations [with_type "versioned" undo])
     = snd (ValidateAppliedChecksums sample_fs migrations [undo])
  /\ snd (ValidateAppliedChecksums sample_fs migrations [stray]) = [no_file_msg stray].
Proof.
  intros migrations failed undo stray. split; [|split; [|split]].
  - exact (f_equal snd
             (proj1 (ValidateAppliedChecksums_rows sample_fs migrations [] [] failed)
                    (or_introl eq_refl))).
  - destruct (proj2 (ValidateAppliedChecksums_rows sample_fs migrations [] [] undo)
                eq_refl ltac:(discriminate)) as (_ & _ & _ & Hfile).
    rewrite (Hfile 0%nat (sample_migration TypeVersioned "001" "V001__a.cql")
               eq_refl eq_refl eq_refl).
    + vm_compute. reflexivity.
    + intros k m Hk Hm. destruct k as [|k]; [lia | discriminate Hm].
  - destruct (proj2 (ValidateAppliedChecksums_rows sample_fs migrations [] [] undo)
                eq_refl ltac:(discriminate)) as (_ & Htype & _).
    exact (proj1 (Htype "versioned" ltac:(discriminate))).
  - destruct (proj2 (ValidateAppliedChecksums_rows sample_fs migrations [] [] stray)
                eq_refl ltac:(discriminate)) as (_ & _ & Hnone & _).
    apply Hnone. intros mig Hin [_ Hv]. apply list_elem_of_singleton in Hin as ->.
    discriminate Hv.
Defined.

(** C3 as stated fails on the code: a successful row of type undo is
    examined and adds an error, be it that no file has its version or
    that the Versioned file of its version has another checksum. *)
Lemma ValidateAppliedChecksums_undo_counterexample :
  let migrations := [sample_migration TypeVersioned "001" "V001__a.cql"] in
  snd (ValidateAppliedChecksums sample_fs migrations [sample_row "002" "undo" true])
    = ["applied migration V002 (a) has no corresponding file"]
  /\ snd (ValidateAppliedChecksums sample_fs migrations [sample_row "002" "undo" true])
     <> snd (ValidateAppliedChecksums sample_fs migrations [])
  /\ snd (ValidateAppliedChecksums sample_fs migrations [sample_row "001" "undo" true])
     = [mismatch_msg (sample_row "001" "undo" true)
          (parsed_checksum "CREATE TABLE foo (id UUID PRIMARY KEY);")].
Proof. vm_compute. split; [reflexivity | split; [discriminate | reflexivity]]. Qed.

(** X6. The errors of ValidateAppliedChecksums are the verdicts of the
    applied rows, one after the other: a row adds at most one error, and
    the verdict of a row depends on the files only, not on the rows seen
    before it.  The result is empty exactly when, for every successful row
    that is not of type "repeatable", the last Versioned migration of the
    scanned list with the version of the row exists, parses, and has the
    recorded checksum. *)
Theorem ValidateAppliedChecksums_verdicts (fs : filesystem) (migrations : list Migration)
    (applied : list AppliedMigration) :
  let errors := snd (ValidateAppliedChecksums fs migrations applied) in
  errors = flat_map (row_verdict fs migrations) applied
  /\ (length errors <= length applied)%nat
  /\ (errors = []
      <-> forall a, a ∈ applied -> aSuccess a = true -> aType a <> "repeatable" ->
            exists p mig,
              migrations !! p = Some mig
              /\ Type_ mig = TypeVersioned /\ Version mig = aVersion a
              /\ (forall k m, (p < k)%nat -> migrations !! k = Some m ->
                               ~ (Type_ m = TypeVersioned /\ Version m = aVersion a))
              /\ snd (ParseMigrationFile fs mig) = None
              /\ Checksum (fst (ParseMigrationFile fs mig)) = aChecksum a).
Proof.
  cbv zeta.
  assert (snd (ValidateAppliedChecksums fs migrations applied)
          = flat_map (row_verdict fs migrations) applied) as Heq.
  { unfold ValidateAppliedChecksums. rewrite validate_fold; [reflexivity|].
    apply Forall_Forall2_diag, Forall_forall. reflexivity. }
  split; [exact Heq|]. rewrite Heq. split.
  - apply flat_map_length_le. intros a. unfold row_verdict.
    repeat (match goal with |- context [match ?x with _ => _ end] => destruct x end);
      cbn; lia.
  - rewrite flat_map_nil. split.
    + intros H a Ha Hs Ht. specialize (H a Ha). unfold row_verdict in H.
      apply String.eqb_neq in Ht. rewrite Hs, Ht in H. cbn [negb orb] in H.
      destruct (fileMap_from 0 migrations ∅ !! aVersion a) as [p|] eqn:Hp; [|discriminate].
      apply fileMap_from_lookup in Hp
        as [[Hp _] | (j & mig & -> & Hj & Hty & Hv & Hlast)];
        [rewrite lookup_empty in Hp; discriminate|].
      cbn [Nat.add] in H. unfold ptr in H. rewrite Hj in H. exists j, mig.
      split; [exact Hj|]. split; [exact Hty|]. split; [exact Hv|]. split; [exact Hlast|].
      destruct (ParseMigrationFile fs mig) as [mig' [e|]]; [discriminate|].
      destruct (String.eqb (Checksum mig') (aChecksum a)) eqn:Hc; [|discriminate].
      apply String.eqb_eq in Hc. auto.
    + intros H a Ha. unfold row_verdict.
      destruct (aSuccess a) eqn:Hs; [|reflexivity].
      destruct (String.eqb (aType a) "repeatable") eqn:Ht; [reflexivity|].
      apply String.eqb_neq in Ht. cbn [negb orb].
      destruct (H a Ha Hs Ht) as (p & mig & Hp & Hty & Hv & Hlast & Hok & Hc).
      destruct (fileMap_from 0 migrations ∅ !! aVersion a) as [q|] eqn:Hq.
      2:{ destruct (fileMap_from_none _ _ _ _ Hq mig); [|auto].
          apply list_elem_of_lookup. eauto. }
      apply fileMap_from_lookup in Hq
        as [[Hq _] | (j & mig2 & -> & Hj & Hty2 & Hv2 & Hlast2)];
        [rewrite lookup_empty in Hq; discriminate|].
      cbn [Nat.add].
      assert (j = p) as ->.
      { destruct (Nat.lt_trichotomy j p) as [Hlt | [Heq' | Hgt]]; [|exact Heq'|].
        - destruct (Hlast2 p mig Hlt Hp). auto.
        - destruct (Hlast j mig2 Hgt Hj). auto. }
      unfold ptr. rewrite Hp.
      destruct (ParseMigrationFile fs mig) as [mig' [e|]]; [discriminate|].
      cbn [fst] in Hc. rewrite Hc, String.eqb_refl. reflexivity.
Qed.

(** ** Executor *)

Import ExecutorAll.

(** X7. In dry-run neither Execute nor ExecuteAll calls the cluster: the
    world (clock, calls made, rows of schema_migrations) is left as it
    is, Execute returns nil and ExecuteAll returns the number of
    migrations it was given. *)
Theorem DryRun_touches_nothing (ctx : Executor.ExecutionContext)
    (migrations : list Migration) (w : World) :
  Executor.DryRun ctx = true ->
  (forall mig, Executor.Execute ctx mig w = (None, w))
  /\ ExecuteAll ctx migrations w = ((length migrations, None), w).
Proof.
  intros Hdry.
  assert (forall mig w0, Executor.Execute ctx mig w0 = (None, w0)) as Hexec.
  { intros mig w0. unfold Executor.Execute, bind, Now, ret. rewrite Hdry. reflexivity. }
  split; [intros mig; apply Hexec|].
  unfold ExecuteAll. generalize (length migrations) as total. generalize 0%nat as i.
  induction migrations as [|mig rest IH]; intros i total; cbn [execute_all_loop].
  - reflexivity.
  - unfold bind. rewrite Hexec. apply IH.
Qed.

Lemma DryRun_touches_nothing_witness :
  let ctx := Executor.mkContext (fails_on "CREATE TABLE t (id int PRIMARY KEY)")
               (30 * Time.Second) true "host" in
  ExecuteAll ctx [sample_script; sample_script] world0 = ((2%nat, None), world0).
Proof.
  intros ctx. exact (proj2 (DryRun_touches_nothing ctx [sample_script; sample_script]
                              world0 eq_refl)).
Defined.

Lemma execute_all_loop_after (ctx : Executor.ExecutionContext) (total : nat)
    (migs1 migs2 : list Migration) :
  forall (i : nat) (w w1 : World),
    after_migrations ctx migs1 w = Some w1 ->
    execute_all_loop ctx i (migs1 ++ migs2) total w
    = execute_all_loop ctx (i + length migs1) migs2 total w1.
Proof.
  induction migs1 as [|mig rest IH]; intros i w w1 H.
  - injection H as <-. cbn. rewrite Nat.add_0_r. reflexivity.
  - cbn [after_migrations] in H. cbn [app execute_all_loop length]. unfold bind at 1.
    destruct (Executor.Execute ctx mig w) as [[e|] w']; [discriminate|].
    rewrite (IH (S i) w' w1 H). f_equal. lia.
Qed.

(** X8. ExecuteAll runs the migrations in order and stops at the first
    one that fails: when the first [n] migrations succeed and the next one
    fails, ExecuteAll returns [n] with the error of that migration, and
    the world is the one that migration left, so that no later migration
    is touched; when all succeed it returns their number and no error. *)
Theorem ExecuteAll_stops_at_first_failure (ctx : Executor.ExecutionContext)
    (migrations : list Migration) (w : World) (n : nat) (w_n : World) :
  after_migrations ctx (take n migrations) w = Some w_n ->
  (forall mig e w',
      migrations !! n = Some mig -> Executor.Execute ctx mig w_n = (Some e, w') ->
      ExecuteAll ctx migrations w = ((n, Some e), w'))
  /\ ((length migrations <= n)%nat ->
      ExecuteAll ctx migrations w = ((length migrations, None), w_n)).
Proof.
  intros Hpre. unfold ExecuteAll. split.
  - intros mig e w' Hn He.
    rewrite <- (take_drop_middle _ _ _ Hn) at 1.
    rewrite (execute_all_loop_after _ _ _ _ 0%nat w w_n Hpre).
    rewrite length_take_le by (apply Nat.lt_le_incl, (lookup_lt_Some _ _ _ Hn)).
    cbn [execute_all_loop Nat.add]. unfold bind. rewrite He. reflexivity.
  - intros Hlen. rewrite take_ge in Hpre by exact Hlen.
    rewrite <- (app_nil_r migrations) at 1.
    rewrite (execute_all_loop_after _ _ _ _ 0%nat w w_n Hpre). reflexivity.
Qed.

Lemma ExecuteAll_stops_at_first_failure_witness :
  let ctx := sample_context (fails_on "INSERT INTO u (id) VALUES (1)") in
  let ok := mkMigration "000" "a" TypeVersioned "V000__a.cql" "V000__a.cql" ""
              ["CREATE TABLE u0 (id int PRIMARY KEY)"] "" in
  fst (ExecuteAll ctx [ok; sample_script; ok] world0)
  = (1%nat, Some ("failed to execute statement " +:+ Fmt.Itoa (N.of_nat (1 + 1)) +:+ " in "
                  +:+ "V001__a.cql" +:+ ": " +:+ "unconfigured table")).
Proof.
  intros ctx ok.
  pose (w1 := default world0 (after_migrations ctx (take 1 [ok; sample_script; ok]) world0)).
  assert (after_migrations ctx (take 1 [ok; sample_script; ok]) world0 = Some w1) as Hpre
    by (vm_compute; reflexivity).
  rewrite (proj1 (ExecuteAll_stops_at_first_failure ctx [ok; sample_script; ok] world0
                    1%nat w1 Hpre)
             sample_script
             ("failed to execute statement " +:+ Fmt.Itoa (N.of_nat (1 + 1)) +:+ " in "
              +:+ "V001__a.cql" +:+ ": " +:+ "unconfigured table")
             (snd (Executor.Execute ctx sample_script w1)) eq_refl);
    [reflexivity | vm_compute; reflexivity].
Defined.

Lemma calls_of_no_record (timeout : Z) (stmts : list string) :
  Forall (fun ev => is_record ev = false) (calls_of timeout stmts).
Proof.
  induction stmts as [|stmt rest IH]; [constructor|].
  unfold calls_of. cbn [flat_map]. fold (calls_of timeout rest).
  constructor; [reflexivity|]. destruct (IsDDL stmt); [constructor; [reflexivity|]|]; exact IH.
Qed.

(** What a run of the statement loop leaves: the calls of a prefix of the
    statements, then one call of RecordMigration. *)
Lemma execute_loop_trace (ctx : Executor.ExecutionContext) (mig : Migration)
    (rec : MigrationRecord) (start : Z) (stmts : list string) :
  forall (k : nat) (w : World),
    let r := Executor.execute_loop ctx mig rec start k stmts w in
    exists calls d b,
      history (snd r)
      = history w ++ calls ++ [EvRecordMigration rec d b (Executor.hostname ctx)]
      /\ calls `prefix_of` calls_of (Executor.SchemaAgreementTimeout ctx) stmts
      /\ (b = true -> calls = calls_of (Executor.SchemaAgreementTimeout ctx) stmts)
      /\ (fst r = None ->
          b = true
          /\ exists row,
               schema_migrations (snd r) !! rVersion rec = Some row
               /\ aVersion row = rVersion rec /\ aType row = rType rec
               /\ aChecksum row = rChecksum rec /\ aSuccess row = true).
Proof.
  assert (forall (w0 : World) (flag : bool) (msg : option error) (res : option error)
                 (w' : World) (calls : list event),
    (let '(_, w1) := RecordMigration (Executor.cluster ctx) rec (now w0 - start) flag
                                     (Executor.hostname ctx) w0 in (msg, w1)) = (res, w') ->
    flag = false -> msg <> None ->
    history w' = history w0
                 ++ [EvRecordMigration rec (now w0 - start) false (Executor.hostname ctx)]
    /\ res <> None) as Hfail.
  { intros w0 flag msg res w' calls Hrun -> Hmsg.
    pose proof (RecordMigration_effect (Executor.cluster ctx) rec (now w0 - start) false
                  (Executor.hostname ctx) w0) as (_ & Hhist & _). cbv zeta in Hhist.
    destruct (RecordMigration _ rec (now w0 - start) false _ w0) as [x w1].
    injection Hrun as <- <-. split; [exact Hhist | exact Hmsg]. }
  induction stmts as [|stmt rest IH]; intros k w; cbv zeta;
    destruct (Executor.execute_loop ctx mig rec start k _ w) as [res w'] eqn:Hrun;
    cbn [fst snd]; cbn [Executor.execute_loop] in Hrun.
  - unfold bind, Since, ret in Hrun.
    pose proof (RecordMigration_effect (Executor.cluster ctx) rec (now w - start) true
                  (Executor.hostname ctx) w) as (Hfst & Hhist & Hrow). cbv zeta in *.
    destruct (RecordMigration _ rec (now w - start) true _ w) as [[e|] w1];
      cbn [fst snd] in *; injection Hrun as <- <-;
      exists [], (now w - start), true; (split; [exact Hhist|]);
      (split; [reflexivity|]); (split; [reflexivity|]).
    + intros Hnone. discriminate Hnone.
    + intros _. split; [reflexivity|].
      eexists. split; [apply Hrow; reflexivity|]. cbn. auto.
  - unfold calls_of. cbn [flat_map].
    fold (calls_of (Executor.SchemaAgreementTimeout ctx) rest).
    unfold bind at 1 in Hrun. unfold Driver.Execute at 1 in Hrun.
    set (w1 := passed (Executor.cluster ctx) (EvExecute stmt) w) in *.
    assert (history w1 = history w ++ [EvExecute stmt]) as Hw1 by reflexivity.
    destruct (exec_error (Executor.cluster ctx) w (EvExecute stmt)) as [e|].
    + unfold bind, Since, ret in Hrun.
      destruct (Hfail _ _ _ _ _ [] Hrun eq_refl ltac:(discriminate)) as [Hh Hres].
      exists [EvExecute stmt], (now w1 - start), false.
      split; [rewrite Hh, Hw1, <- app_assoc; reflexivity|].
      split; [eexists; reflexivity|].
      split; [intros Hb; discriminate Hb | intros Hnone; contradiction].
    + destruct (IsDDL stmt).
      * unfold bind at 1 in Hrun. unfold WaitForSchemaAgreement at 1 in Hrun.
        set (wait := EvWaitForSchemaAgreement (Executor.SchemaAgreementTimeout ctx)) in *.
        set (w2 := passed (Executor.cluster ctx) wait w1) in *.
        assert (history w2 = history w ++ [EvExecute stmt; wait]) as Hw2
          by (unfold w2, passed; cbn [history]; rewrite Hw1, <- app_assoc; reflexivity).
        destruct (exec_error (Executor.cluster ctx) w1 wait) as [e|].
        -- unfold bind, Since, ret in Hrun.
           destruct (Hfail _ _ _ _ _ [] Hrun eq_refl ltac:(discriminate)) as [Hh Hres].
           exists [EvExecute stmt; wait], (now w2 - start), false.
           split; [rewrite Hh, Hw2, <- app_assoc; reflexivity|].
           split; [eexists; reflexivity|].
           split; [intros Hb; discriminate Hb | intros Hnone; contradiction].
        -- specialize (IH (S k) w2). cbv zeta in IH. rewrite Hrun in IH. cbn [fst snd] in IH.
           destruct IH as (calls & d & b & Hh & Hp & Hb & Hok).
           exists (EvExecute stmt :: wait :: calls), d, b.
           split; [rewrite Hh, Hw2, <- app_assoc; reflexivity|].
           split; [do 2 apply prefix_cons; exact Hp|].
           split; [intros ->; rewrite (Hb eq_refl); reflexivity | exact Hok].
      * specialize (IH (S k) w1). cbv zeta in IH. rewrite Hrun in IH. cbn [fst snd] in IH.
        destruct IH as (calls & d & b & Hh & Hp & Hb & Hok).
        exists (EvExecute stmt :: calls), d, b.
        split; [rewrite Hh, Hw1, <- app_assoc; reflexivity|].
        split; [apply prefix_cons; exact Hp|].
        split; [intros ->; rewrite (Hb eq_refl); reflexivity | exact Hok].
Qed.

(** X9. Outside dry-run, whatever the cluster answers, Execute makes the
    calls of a prefix of the statements of the migration, in file order
    and with a wait for schema agreement after each DDL statement, and
    then calls RecordMigration exactly once, as its last call.  The row is
    recorded with success=true only if the calls of all the statements
    were made, and Execute returns nil only if moreover the row of the
    migration is in schema_migrations with success=true and the checksum
    of the migration. *)
Theorem Execute_calls (ctx : Executor.ExecutionContext) (mig : Migration) (w : World) :
  Executor.DryRun ctx = false ->
  let r := Executor.Execute ctx mig w in
  exists calls d b,
    history (snd r)
    = history w ++ calls
      ++ [EvRecordMigration (Executor.toRecord mig) d b (Executor.hostname ctx)]
    /\ calls `prefix_of` calls_of (Executor.SchemaAgreementTimeout ctx) (Statements mig)
    /\ Forall (fun ev => is_record ev = false) calls
    /\ (b = true -> calls = calls_of (Executor.SchemaAgreementTimeout ctx) (Statements mig))
    /\ (fst r = None ->
        b = true
        /\ exists row,
             schema_migrations (snd r) !! rVersion (Executor.toRecord mig) = Some row
             /\ aVersion row = rVersion (Executor.toRecord mig)
             /\ aType row = type_string (Type_ mig)
             /\ aChecksum row = Checksum mig /\ aSuccess row = true).
Proof.
  intros Hdry. cbv zeta.
  assert (Executor.Execute ctx mig w
          = Executor.execute_loop ctx mig (Executor.toRecord mig) (now w) 0
              (Statements mig) w) as ->
    by (unfold Executor.Execute, bind, Now; rewrite Hdry; reflexivity).
  destruct (execute_loop_trace ctx mig (Executor.toRecord mig) (now w) (Statements mig)
              0%nat w) as (calls & d & b & Hh & Hp & Hb & Hok).
  exists calls, d, b. split; [exact Hh|]. split; [exact Hp|]. split; [|split; assumption].
  destruct Hp as [rest Hrest]. pose proof (calls_of_no_record
    (Executor.SchemaAgreementTimeout ctx) (Statements mig)) as Hno.
  rewrite Hrest in Hno. apply Forall_app in Hno as [Hno _]. exact Hno.
Qed.

Lemma Execute_calls_witness :
  let ctx := sample_context no_agreement in
  exists calls d b,
    history (snd (Executor.Execute ctx sample_script world0))
    = history world0 ++ calls
      ++ [EvRecordMigration (Executor.toRecord sample_script) d b "host"]
    /\ Forall (fun ev => is_record ev = false) calls.
Proof.
  intros ctx.
  destruct (Execute_calls ctx sample_script world0 eq_refl)
    as (calls & d & b & Hh & _ & Hno & _).
  exists calls, d, b. split; [exact Hh | exact Hno].
Defined.

Lemma appliedMap_of_value (applied : list AppliedMigration) (v : string)
    (a : AppliedMigration) :
  appliedMap_of applied !! v = Some a ->
  a ∈ applied /\ aSuccess a = true /\ aVersion a = v.
Proof.
  unfold appliedMap_of.
  assert (forall (m : gmap string AppliedMigration),
    foldl (fun m a => if aSuccess a then <[aVersion a := a]> m else m) m applied !! v = Some a ->
    m !! v = Some a \/ (a ∈ applied /\ aSuccess a = true /\ aVersion a = v)) as H.
  { induction applied as [|x applied IH]; intros m Hm; cbn [foldl] in Hm; [left; exact Hm|].
    apply IH in Hm as [Hm | (Hin & Hs & Hv)].
    - destruct (aSuccess x) eqn:Hs; [|left; exact Hm].
      destruct (decide (aVersion x = v)) as [Hv|Hv].
      + rewrite Hv, lookup_insert_eq in Hm. injection Hm as ->.
        right. split; [left | auto].
      + rewrite lookup_insert_ne in Hm by exact Hv. left. exact Hm.
    - right. split; [right; exact Hin | auto]. }
  intros Hl. apply H in Hl as [Hl | Hl]; [rewrite lookup_empty in Hl; discriminate | exact Hl].
Qed.

(** X10. A migration that has been applied is no longer pending. When a
    Versioned or Repeatable migration has been parsed and Execute has
    returned nil for it outside dry-run, then for every list of applied
    rows that holds the row written by Execute, as the only successful row
    of its key, a GetPendingMigrations that succeeds does not list the
    migration. *)
Theorem executed_not_pending (ctx : Executor.ExecutionContext) (fs : filesystem)
    (migrations : list Migration) (i : nat) (mig0 mig : Migration) (w w' : World)
    (applied : list AppliedMigration) (migs' : list Migration) (pending : list ptr)
    (row : AppliedMigration) :
  Executor.DryRun ctx = false ->
  migrations !! i = Some mig0 ->
  ParseMigrationFile fs mig0 = (mig, None) ->
  Executor.Execute ctx mig w = (None, w') ->
  schema_migrations w' !! rVersion (Executor.toRecord mig) = Some row ->
  row ∈ applied ->
  (forall a, a ∈ applied -> aSuccess a = true -> aVersion a = aVersion row -> a = row) ->
  GetPendingMigrations fs migrations applied = (migs', inr pending) ->
  i ∉ pending.
Proof.
  intros Hdry Hi Hparse Hexec Hrow Hin Huniq Hpend Hip.
  assert (Executor.Execute ctx mig w
          = Executor.execute_loop ctx mig (Executor.toRecord mig) (now w) 0
              (Statements mig) w) as Hrun
    by (unfold Executor.Execute, bind, Now; rewrite Hdry; reflexivity).
  destruct (execute_loop_trace ctx mig (Executor.toRecord mig) (now w) (Statements mig)
              0%nat w) as (calls & d & b & _ & _ & _ & Hok).
  rewrite <- Hrun, Hexec in Hok. cbn [fst snd] in Hok.
  destruct (Hok eq_refl) as (_ & row' & Hrow' & Hv & _ & Hc & Hs).
  assert (row' = row) as Heq by congruence. clear Hok. subst row'.
  pose proof (ParseMigrationFile_keeps fs mig0) as (Hkv & Hkt & Hkd & _).
  rewrite Hparse in Hkv, Hkt, Hkd. cbn [fst] in Hkv, Hkt, Hkd.
  unfold GetPendingMigrations in Hpend.
  apply (pending_loop_elem _ _ _ _ _ _ _ Hpend i) in Hip
    as [Hip | (j & m & Hj & Hij & Hsel)]; [inversion Hip|].
  cbn in Hij. subst j. rewrite Hi in Hj. injection Hj as <-.
  unfold selects in Hsel. destruct (Type_ mig0) eqn:Hty.
  - assert (is_Some (appliedMap_of applied !! Version mig0)) as [x Hx];
      [|rewrite Hx in Hsel; discriminate].
    apply appliedMap_of_key. exists row.
    split; [exact Hin|]. split; [exact Hs|]. rewrite Hv.
    unfold Executor.toRecord. rewrite Hkt.
    destruct (decide (TypeVersioned = TypeRepeatable)); [discriminate|]. exact Hkv.
  - exact Hsel.
  - cbv zeta in Hsel. rewrite Hparse in Hsel. cbn [fst] in Hsel.
    assert (aVersion row = Version mig +:+ "_" +:+ Description mig) as Hkey.
    { rewrite Hv. unfold Executor.toRecord. rewrite Hkt.
      destruct (decide (TypeRepeatable = TypeRepeatable)); [|contradiction].
      reflexivity. }
    destruct (appliedMap_of applied !! _) as [a|] eqn:Hl.
    + apply appliedMap_of_value in Hl as (Ha & Has & Hav).
      rewrite <- Hkey in Hav. rewrite (Huniq a Ha Has Hav), Hc, String.eqb_refl in Hsel.
      discriminate.
    + assert (is_Some (appliedMap_of applied !! (Version mig +:+ "_" +:+ Description mig)))
        as [x Hx]; [|rewrite Hx in Hl; discriminate].
      apply appliedMap_of_key. exists row. rewrite <- Hkey. auto.
Qed.

Lemma executed_not_pending_witness :
  let ctx := sample_context lock_absent in
  let mig0 := sample_migration TypeRepeatable "R" "R__a.cql" in
  let mig := fst (ParseMigrationFile sample_fs mig0) in
  let w' := snd (Executor.Execute ctx mig world0) in
  let row := default (sample_row "" "" false)
               (schema_migrations w' !! rVersion (Executor.toRecord mig)) in
  aVersion row = "R_a" /\ aSuccess row = true
  /\ snd (GetPendingMigrations sample_fs [mig0] [row]) = inr []
  /\ 0%nat ∉ ([] : list ptr).
Proof.
  intros ctx mig0 mig w' row.
  split; [vm_compute; reflexivity|]. split; [vm_compute; reflexivity|].
  split; [vm_compute; reflexivity|].
  apply (executed_not_pending ctx sample_fs [mig0] 0 mig0 mig world0 w' [row]
           (fst (GetPendingMigrations sample_fs [mig0] [row])) [] row).
  - reflexivity.
  - reflexivity.
  - vm_compute. reflexivity.
  - vm_compute. reflexivity.
  - vm_compute. reflexivity.
  - left.
  - intros a Ha _ _. apply list_elem_of_singleton in Ha. exact Ha.
  - vm_compute. reflexivity.
Defined.

(** ** Lock manager *)

Import LockRelease.

(** X11. Release reports an error exactly when the conditional delete
    fails at the driver and the unconditional delete that follows fails
    too.  The unconditional delete is made exactly when the conditional
    one fails at the driver: a conditional delete that is not applied,
    because the lock is held by another owner or is gone, is not followed
    by any delete and is not an error.  The first call is always the
    conditional delete for the lock and the owner of the manager. *)
Theorem Release_outcome (lm : LockManager) (ans : Answers) :
  (is_Some (snd (Release lm ans))
   <-> (exists err, cas_delete ans = inl err) /\ is_Some (force_delete ans))
  /\ (ForceDelete (lockID lm) ∈ fst (Release lm ans) <-> exists err, cas_delete ans = inl err)
  /\ (forall applied, cas_delete ans = inr applied ->
        Release lm ans = ([CasDelete (lockID lm) (owner lm)], None))
  /\ head (fst (Release lm ans)) = Some (CasDelete (lockID lm) (owner lm)).
Proof.
  unfold Release. destruct (cas_delete ans) as [err|[|]];
    [destruct (force_delete ans) as [ferr|]|..]; cbn [fst snd head].
  - split; [split; eauto|]. split; [split; [eauto | intros _; right; left]|].
    split; [intros ? [=] | reflexivity].
  - split; [split; [intros [x [=]] | intros [_ [x [=]]]]|].
    split; [split; [eauto | intros _; right; left]|].
    split; [intros ? [=] | reflexivity].
  - split; [split; [intros [x [=]] | intros [[x [=]] _]]|].
    split; [split; [intros H; apply list_elem_of_singleton in H; discriminate
                   | intros [x [=]]]|].
    split; [reflexivity | reflexivity].
  - split; [split; [intros [x [=]] | intros [[x [=]] _]]|].
    split; [split; [intros H; apply list_elem_of_singleton in H; discriminate
                   | intros [x [=]]]|].
    split; [reflexivity | reflexivity].
Qed.

Lemma attempt_outcome (lm : LockManager) (timeout ttl backoff : Z) (w : World) :
  let r := attempt lm timeout ttl backoff w in
  let ins := EvLockInsert (lockID lm) (owner lm) (now w) (now w + timeout) ttl in
  schema_migrations (snd r) = schema_migrations w
  /\ exists rest,
       history (snd r) = history w ++ ins :: rest
       /\ Forall (fun ev => match ev with
                            | EvGetCurrentLock _ | EvForceRelease _ | EvSleep _ => True
                            | _ => False
                            end) rest
       /\ (forall e, fst r = Return e ->
             rest = []
             /\ match e with
                | None => exec_error (cluster lm) w ins = None
                          /\ cas_applied (cluster lm) w ins = true
                | Some msg => exists err, exec_error (cluster lm) w ins = Some err
                                          /\ msg = "failed to execute lock query: " +:+ err
                end).
Proof.
  cbv zeta.
  unfold attempt, bind, Now, executeLWT, GetCurrentLock, forceRelease, Sleep, ret, passed.
  destruct (exec_error (cluster lm) w _) as [err|] eqn:Herr.
  { cbn. split; [reflexivity|]. exists []. split; [reflexivity|]. split; [constructor|].
    intros e [= <-]. split; [reflexivity|]. eauto. }
  destruct (cas_applied (cluster lm) w _) eqn:Hcas.
  { cbn. split; [reflexivity|]. exists []. split; [reflexivity|]. split; [constructor|].
    intros e [= <-]. auto. }
  destruct (lock_row (cluster lm) _) as [e|lock].
  { cbn. split; [reflexivity|]. eexists. rewrite <- !app_assoc.
    split; [reflexivity|]. split; [repeat constructor | intros e' [=]]. }
  cbn [now history]. destruct (_ >? ExpiresAt lock).
  - cbn. split; [reflexivity|]. eexists. rewrite <- !app_assoc.
    split; [reflexivity|]. split; [repeat constructor | intros e' [=]].
  - cbn. split; [reflexivity|]. eexists. rewrite <- !app_assoc.
    split; [reflexivity|]. split; [repeat constructor | intros e' [=]].
Qed.

Lemma acquire_loop_outcome (lm : LockManager) (timeout ttl deadline : Z) (fuel : nat) :
  ttl = timeout ÷ Second + 60 ->
  forall (backoff : Z) (w : World) (r : option error) (w' : World),
    acquire_loop fuel lm timeout ttl deadline backoff w = (Some r, w') ->
    schema_migrations w' = schema_migrations w
    /\ exists new,
         history w' = history w ++ new
         /\ Forall (insert_of lm timeout) new
         /\ match r with
            | None =>
                last_insert lm w new
                  (fun wb ins => exec_error (cluster lm) wb ins = None
                                 /\ cas_applied (cluster lm) wb ins = true)
            | Some e =>
                (e = timeout_msg timeout /\ deadline <= now w')
                \/ exists err,
                     e = "failed to execute lock query: " +:+ err
                     /\ last_insert lm w new
                          (fun wb ins => exec_error (cluster lm) wb ins = Some err)
            end.
Proof.
  intros Httl. induction fuel as [|fuel IH]; intros backoff w r w' H; [discriminate|].
  cbn [acquire_loop] in H. unfold bind at 1 in H. unfold Now at 1 in H.
  destruct (now w <? deadline) eqn:Hnow.
  - unfold bind at 1 in H.
    pose proof (attempt_outcome lm timeout ttl backoff w) as (Hsch & rest & Hh & Hrest & Hret).
    cbv zeta in *.
    destruct (attempt lm timeout ttl backoff w) as [t w1]. cbn [fst snd] in *.
    assert (Forall (insert_of lm timeout)
              (EvLockInsert (lockID lm) (owner lm) (now w) (now w + timeout) ttl :: rest))
      as Hins.
    { constructor; [cbn; auto|]. eapply Forall_impl; [exact Hrest|].
      intros [] Hev; cbn in *; tauto. }
    destruct t as [e|backoff'].
    + injection H as <- <-. destruct (Hret e eq_refl) as [-> He].
      split; [exact Hsch|]. eexists. split; [exact Hh|]. split; [exact Hins|].
      destruct e as [msg|].
      * right. destruct He as (err & Herr & ->). exists err. split; [reflexivity|].
        exists [], w, (now w), (now w + timeout), ttl. cbv zeta.
        split; [reflexivity|]. split; [rewrite app_nil_r; reflexivity | exact Herr].
      * exists [], w, (now w), (now w + timeout), ttl. cbv zeta.
        split; [reflexivity|]. split; [rewrite app_nil_r; reflexivity | exact He].
    + destruct (IH _ _ _ _ H) as (Hsch' & new & Hh' & Hnew & Hr).
      split; [congruence|]. eexists. rewrite Hh', Hh, <- app_assoc.
      split; [reflexivity|]. split; [apply Forall_app; auto|].
      assert (forall answer, last_insert lm w1 new answer ->
                last_insert lm w
                  ((EvLockInsert (lockID lm) (owner lm) (now w) (now w + timeout) ttl
                      :: rest) ++ new) answer) as Hshift.
      { intros answer (pre & wb & t1 & t2 & ttl' & Hn & Hb & Ha). cbv zeta in *.
        eexists (_ ++ pre), wb, t1, t2, ttl'. cbv zeta.
        split; [rewrite Hn, <- app_assoc; reflexivity|].
        split; [rewrite Hb, Hh, <- app_assoc; reflexivity | exact Ha]. }
      destruct r as [e|]; [|apply Hshift, Hr].
      destruct Hr as [Hr | (err & He & Hl)]; [left; exact Hr|].
      right. exists err. split; [exact He | apply Hshift, Hl].
  - injection H as <- <-. split; [reflexivity|]. exists [].
    rewrite app_nil_r. split; [reflexivity|]. split; [constructor|].
    left. split; [reflexivity|]. apply Z.ltb_ge. exact Hnow.
Qed.

(** X12. What a call of Acquire that returns has done.  It has made no
    call on the migrations and has left schema_migrations as it was;
    every insert of the lock row it has made is for the lock and the owner
    of the manager and, when the timeout is under 16777216 seconds, has
    the whole seconds of the timeout plus 60 as its TTL.  When it returns
    nil its last call is such an insert, which the cluster has applied;
    when it returns an error, either the deadline has passed or its last
    call is such an insert, which has failed at the driver, and the error
    is the error of the driver behind "failed to execute lock query: ". *)
Theorem Acquire_outcome (fuel : nat) (lm : LockManager) (timeout : Z) (w w' : World)
    (r : option error) :
  Acquire fuel lm timeout w = (Some r, w') ->
  schema_migrations w' = schema_migrations w
  /\ exists new,
       history w' = history w ++ new
       /\ Forall (insert_of lm timeout) new
       /\ match r with
          | None =>
              last_insert lm w new
                (fun wb ins => exec_error (cluster lm) wb ins = None
                               /\ cas_applied (cluster lm) wb ins = true)
          | Some e =>
              (e = timeout_msg timeout /\ now w + timeout <= now w')
              \/ exists err,
                   e = "failed to execute lock query: " +:+ err
                   /\ last_insert lm w new
                        (fun wb ins => exec_error (cluster lm) wb ins = Some err)
          end.
Proof.
  unfold Acquire, bind, Now. intros H.
  exact (acquire_loop_outcome lm timeout _ _ fuel eq_refl _ _ _ _ H).
Qed.

Lemma Acquire_outcome_witness :
  let run := Acquire 100 (sample_manager lock_held) (60 * Second) world0 in
  let won := Acquire 100 (sample_manager no_agreement) (60 * Second) world0 in
  fst run = Some (Some (timeout_msg (60 * Second)))
  /\ schema_migrations (snd run) = schema_migrations world0
  /\ (exists new, history (snd run) = history world0 ++ new
                  /\ Forall (insert_of (sample_manager lock_held) (60 * Second)) new)
  /\ fst won = Some None
  /\ exists new, history (snd won) = history world0 ++ new
                 /\ last_insert (sample_manager no_agreement) world0 new
                      (fun wb ins => cas_applied no_agreement wb ins = true).
Proof.
  intros run won.
  assert (run = (Some (Some (timeout_msg (60 * Second))), snd run)) as H
    by (vm_compute; reflexivity).
  assert (won = (Some None, snd won)) as H' by (vm_compute; reflexivity).
  destruct (Acquire_outcome _ _ _ _ _ _ H) as (Hs & new & Hh & Hf & _).
  destruct (Acquire_outcome _ _ _ _ _ _ H') as (_ & new' & Hh' & _ & Hlast).
  split; [vm_compute; reflexivity|]. split; [exact Hs|]. split; [exists new; auto|].
  split; [vm_compute; reflexivity|]. exists new'. split; [exact Hh'|].
  destruct Hlast as (pre & wb & t1 & t2 & ttl & Hn & Hb & _ & Hcas).
  exists pre, wb, t1, t2, ttl. auto.
Defined.

Lemma attempt_clock (lm : LockManager) (timeout ttl backoff : Z) (w : World) :
  (forall w0 ev, 1 <= latency (cluster lm) w0 ev) -> 0 <= backoff ->
  forall backoff' w',
    attempt lm timeout ttl backoff w = (Continue backoff', w') ->
    now w + 1 <= now w' /\ 0 <= backoff'.
Proof.
  intros Hlat Hb backoff' w'.
  unfold attempt, bind, Now, executeLWT, GetCurrentLock, forceRelease, Sleep, ret, passed.
  destruct (exec_error (cluster lm) w _) as [err|]; [discriminate|].
  destruct (cas_applied (cluster lm) w _); [discriminate|].
  assert (0 <= next_backoff backoff) as Hnext
    by (unfold next_backoff; destruct (backoff <? _); lia).
  destruct (lock_row (cluster lm) _) as [e|lock]; cbn [now history].
  - intros [= <- <-]. cbn [now].
    pose proof (Hlat w (EvLockInsert (lockID lm) (owner lm) (now w) (now w + timeout) ttl)).
    match goal with |- context [latency (cluster lm) ?w0 (EvGetCurrentLock ?i)] =>
      pose proof (Hlat w0 (EvGetCurrentLock i)) end.
    split; [lia | exact Hnext].
  - pose proof (Hlat w (EvLockInsert (lockID lm) (owner lm) (now w) (now w + timeout) ttl)).
    destruct (_ >? ExpiresAt lock); intros [= <- <-]; cbn [now];
      repeat match goal with |- context [latency (cluster lm) ?w0 ?ev] =>
        lazymatch goal with
        | H : 1 <= latency (cluster lm) w0 ev |- _ => fail
        | _ => pose proof (Hlat w0 ev)
        end end;
      (split; [lia | assumption]).
Qed.

Lemma acquire_loop_returns (lm : LockManager) (timeout ttl deadline : Z) (fuel : nat) :
  (forall w0 ev, 1 <= latency (cluster lm) w0 ev) ->
  forall (backoff : Z) (w : World),
    0 <= backoff -> Z.max 0 (deadline - now w) < Z.of_nat fuel ->
    fst (acquire_loop fuel lm timeout ttl deadline backoff w) <> None.
Proof.
  intros Hlat. induction fuel as [|fuel IH]; intros backoff w Hb Hfuel; [lia|].
  cbn [acquire_loop]. unfold bind at 1. unfold Now at 1.
  destruct (now w <? deadline) eqn:Hnow; [|discriminate].
  apply Z.ltb_lt in Hnow. unfold bind at 1.
  pose proof (attempt_clock lm timeout ttl backoff w Hlat Hb) as Hclock.
  destruct (attempt lm timeout ttl backoff w) as [[e|backoff'] w1]; [discriminate|].
  destruct (Hclock backoff' w1 eq_refl) as [Hadv Hb']. apply IH; [exact Hb' | lia].
Qed.

(** X13. Acquire terminates when time passes: if every call to the
    cluster takes a nanosecond at least, a call of Acquire returns, with
    the lock or with an error, within as many turns of its loop as the
    timeout has nanoseconds, plus one; with a timeout of zero or less it
    makes no call at all and fails with the timeout error at once. *)
Theorem Acquire_returns (fuel : nat) (lm : LockManager) (timeout : Z) (w : World) :
  ((forall w0 ev, 1 <= latency (cluster lm) w0 ev) ->
   Z.max 0 timeout < Z.of_nat fuel ->
   fst (Acquire fuel lm timeout w) <> None)
  /\ (timeout <= 0 ->
      Acquire (S fuel) lm timeout w = (Some (Some (timeout_msg timeout)), w)).
Proof.
  split.
  - intros Hlat Hfuel. unfold Acquire, bind, Now.
    apply acquire_loop_returns; [exact Hlat | unfold Second, Time.Second; lia|].
    replace (now w + timeout - now w) with timeout by lia. exact Hfuel.
  - intros Hto. unfold Acquire, bind, Now. cbn [acquire_loop]. unfold bind, Now, ret.
    rewrite (proj2 (Z.ltb_ge (now w) (now w + timeout))) by lia. reflexivity.
Qed.

Lemma Acquire_returns_witness :
  let slow := mkCluster (fun _ _ => None) (fun _ _ => false)
                (fun _ => inl ErrNotFound) (fun _ _ => 1) in
  fst (Acquire 6 (sample_manager slow) 5 world0) <> None
  /\ Acquire 1 (sample_manager slow) 0 world0 = (Some (Some (timeout_msg 0)), world0).
Proof.
  intros slow. split.
  - apply (proj1 (Acquire_returns 6 (sample_manager slow) 5 world0)).
    + intros w0 ev. cbn. lia.
    + cbn. lia.
  - apply (proj2 (Acquire_returns 0 (sample_manager slow) 0 world0)). lia.
Defined.

(** ** Scanner *)

Import Scanner.

Example parseMigrationFilename_tests :
  parseMigrationFilename "V001__create_users_table.cql" "/t"
  = inr (mkMigration "001" "create users table" TypeVersioned
                     "V001__create_users_table.cql" "/t" "" [] "")
  /\ parseMigrationFilename "U001__drop_users_table.cql" "/t"
     = inr (mkMigration "001" "drop users table" TypeUndo
                        "U001__drop_users_table.cql" "/t" "" [] "")
  /\ parseMigrationFilename "R__refresh_views.cql" "/t"
     = inr (mkMigration "R" "refresh views" TypeRepeatable "R__refresh_views.cql" "/t"
                        "" [] "")
  /\ parseMigrationFilename "V002__add_index.sql" "/t"
     = inr (mkMigration "002" "add index" TypeVersioned "V002__add_index.sql" "/t" "" [] "")
  /\ parseMigrationFilename "readme.txt" "/t"
     = inl "filename does not match any migration pattern: readme.txt"
  /\ parseMigrationFilename "V__missing_version.cql" "/t"
     = inl "filename does not match any migration pattern: V__missing_version.cql"
  /\ fst (GetNextVersion (inr [mkEntry "V001__first.cql" false;
                               mkEntry "V003__third.cql" false])) = 4
  /\ fst (GetNextVersion (inr [])) = 1.
Proof. vm_compute. repeat split. Qed.

Lemma append_cons (c : ascii) (p x : string) : String c p +:+ x = String c (p +:+ x).
Proof. reflexivity. Qed.

Lemma append_empty (x : string) : "" +:+ x = x.
Proof. reflexivity. Qed.

Lemma HasPrefix_true (s p : string) :
  HasPrefix s p = true -> s = p +:+ drop_bytes (String.length p) s.
Proof.
  revert s. induction p as [|c p IH]; intros s H; [reflexivity|].
  destruct s as [|a s]; [discriminate|]. cbn [HasPrefix] in H.
  destruct (Ascii.eqb a c) eqn:Hac; [|discriminate]. apply Ascii.eqb_eq in Hac as ->.
  rewrite append_cons. cbn [String.length drop_bytes]. f_equal. apply IH, H.
Qed.

Lemma take_digits_spec (s : string) :
  s = fst (take_digits s) +:+ snd (take_digits s)
  /\ all_chars is_digit (fst (take_digits s)) = true.
Proof.
  induction s as [|c s [IH1 IH2]]; [split; reflexivity|].
  cbn [take_digits]. destruct (is_digit c) eqn:Hc; [|split; reflexivity].
  destruct (take_digits s) as [d rest]. cbn [fst snd] in *. split.
  - rewrite append_cons. f_equal. exact IH1.
  - cbn [all_chars]. rewrite Hc, IH2. reflexivity.
Qed.

Lemma take_digits_app (d rest : string) :
  all_chars is_digit d = true ->
  match rest with String c _ => is_digit c = false | "" => True end ->
  take_digits (d +:+ rest) = (d, rest).
Proof.
  intros Hd Hrest. induction d as [|c d IH].
  - rewrite append_empty. destruct rest as [|c rest]; [reflexivity|].
    cbn [take_digits]. rewrite Hrest. reflexivity.
  - cbn [all_chars] in Hd. apply andb_true_iff in Hd as [Hc Hd].
    rewrite append_cons. cbn [take_digits]. rewrite Hc, (IH Hd). reflexivity.
Qed.

Lemma ext_split_short (s : string) : (String.length s < 4)%nat -> ext_split s = None.
Proof.
  induction s as [|c s IH]; intros H; [reflexivity|].
  cbn [ext_split]. rewrite IH by (cbn in H; lia).
  destruct (String.length (String c s) =? 4)%nat eqn:Hl; [|reflexivity].
  apply Nat.eqb_eq in Hl. lia.
Qed.

Lemma ext_split_app (slug e : string) :
  String.length e = 4%nat -> ext_split (slug +:+ e) = Some (slug, e).
Proof.
  intros He. induction slug as [|c slug IH].
  - rewrite append_empty. destruct e as [|c e]; [discriminate|]. cbn [ext_split].
    rewrite ext_split_short by (cbn in He; lia). rewrite He. reflexivity.
  - rewrite append_cons. cbn [ext_split]. rewrite IH. reflexivity.
Qed.

Lemma ext_split_spec (s slug e : string) :
  ext_split s = Some (slug, e) -> s = slug +:+ e /\ String.length e = 4%nat.
Proof.
  revert slug. induction s as [|c s IH]; intros slug H; [discriminate|].
  cbn [ext_split] in H. destruct (ext_split s) as [[slug' e']|].
  - injection H as <- <-. destruct (IH slug' eq_refl) as [-> Hl]. split; [reflexivity | exact Hl].
  - destruct (String.length (String c s) =? 4)%nat eqn:Hl; [|discriminate].
    injection H as <- <-. apply Nat.eqb_eq in Hl. split; [reflexivity | exact Hl].
Qed.

Lemma match_slug_app (slug ext : string) :
  slug <> "" -> Contains slug LF = false -> ext = "cql" \/ ext = "sql" ->
  match_slug (slug +:+ "." +:+ ext) = Some slug.
Proof.
  intros Hne Hnl Hext. unfold match_slug.
  rewrite ext_split_app by (destruct Hext as [-> | ->]; reflexivity).
  apply String.eqb_neq in Hne. rewrite Hne, Hnl.
  destruct Hext as [-> | ->]; reflexivity.
Qed.

Lemma match_slug_spec (s slug : string) :
  match_slug s = Some slug ->
  slug <> "" /\ Contains slug LF = false
  /\ (s = slug +:+ ".cql" \/ s = slug +:+ ".sql").
Proof.
  unfold match_slug. destruct (ext_split s) as [[slug' e]|] eqn:Hs; [|discriminate].
  destruct (_ && _) eqn:Hc; [|discriminate]. intros [= <-].
  apply ext_split_spec in Hs as [-> _].
  apply andb_true_iff in Hc as [Hc Hnl]. apply andb_true_iff in Hc as [Hext Hne].
  apply negb_true_iff in Hnl, Hne. apply String.eqb_neq in Hne.
  split; [exact Hne|]. split; [exact Hnl|].
  apply orb_true_iff in Hext as [H | H]; apply String.eqb_eq in H as ->; auto.
Qed.

Lemma HasPrefix_empty (s : string) : HasPrefix s "" = true.
Proof. destruct s; reflexivity. Qed.

Lemma humanize_no_underscore (s : string) : Contains (humanize s) "_" = false.
Proof.
  unfold humanize, ReplaceAll. induction s as [|c s IH]; [reflexivity|].
  cbn [replace_from HasPrefix]. rewrite HasPrefix_empty.
  destruct (Ascii.eqb c "_") eqn:Hc.
  - cbn [String.length Nat.sub]. rewrite append_cons, append_empty.
    cbn [Contains]. rewrite IH. reflexivity.
  - cbn [Contains HasPrefix]. rewrite Hc, IH. reflexivity.
Qed.

Lemma match_numbered_app (letter d slug ext : string) :
  digits d = true -> slug <> "" -> Contains slug LF = false ->
  ext = "cql" \/ ext = "sql" ->
  match_numbered letter (letter +:+ d +:+ "__" +:+ slug +:+ "." +:+ ext) = Some (d, slug).
Proof.
  intros Hd Hne Hnl Hext. unfold match_numbered.
  rewrite HasPrefix_app, drop_bytes_app.
  assert (all_chars is_digit d = true /\ d <> "") as [Hall Hd0]
    by (destruct d; [discriminate | split; [exact Hd | discriminate]]).
  rewrite (take_digits_app d ("__" +:+ slug +:+ "." +:+ ext) Hall) by reflexivity.
  apply String.eqb_neq in Hd0. rewrite Hd0. cbn [negb andb].
  change (HasPrefix ("__" +:+ slug +:+ "." +:+ ext) "__")
    with (HasPrefix ("__" +:+ (slug +:+ "." +:+ ext)) "__").
  rewrite HasPrefix_app.
  change (drop_bytes 2%nat ("__" +:+ slug +:+ "." +:+ ext)) with (slug +:+ "." +:+ ext).
  rewrite (match_slug_app slug ext Hne Hnl Hext). reflexivity.
Qed.

Lemma match_numbered_spec (letter filename d slug : string) :
  match_numbered letter filename = Some (d, slug) ->
  digits d = true /\ slug <> "" /\ Contains slug LF = false
  /\ (filename = letter +:+ d +:+ "__" +:+ slug +:+ ".cql"
      \/ filename = letter +:+ d +:+ "__" +:+ slug +:+ ".sql").
Proof.
  unfold match_numbered. destruct (HasPrefix filename letter) eqn:Hp; [|discriminate].
  apply HasPrefix_true in Hp.
  destruct (take_digits_spec (drop_bytes (String.length letter) filename)) as [Hs Hall].
  destruct (take_digits _) as [d' rest]. cbn [fst snd] in Hs, Hall. cbv beta iota.
  destruct (negb (String.eqb d' "") && HasPrefix rest "__") eqn:Hc; [|discriminate].
  apply andb_true_iff in Hc as [Hd' Hr]. apply negb_true_iff, String.eqb_neq in Hd'.
  apply HasPrefix_true in Hr. change (String.length "__") with 2%nat in Hr.
  destruct (match_slug (drop_bytes 2%nat rest)) as [slug'|] eqn:Hm; [|discriminate].
  intros [= <- <-]. apply match_slug_spec in Hm as (Hne & Hnl & Hfile).
  split; [destruct d'; [contradiction | exact Hall]|]. split; [exact Hne|].
  split; [exact Hnl|].
  rewrite Hp, Hs, Hr. destruct Hfile as [-> | ->]; auto.
Qed.

(** X14. A name built after a pattern is read back: for a digit string
    [d], a slug that is not empty and holds no newline, and the extension
    cql or sql, parseMigrationFilename classifies "V<d>__<slug>.<ext>" as
    Versioned and "U<d>__<slug>.<ext>" as Undo, both with the version [d]
    as written (leading zeros kept), and "R__<slug>.<ext>" as Repeatable
    with version "R"; the description is the slug with every underscore
    replaced by a space, and the path is the one given. *)
Theorem parseMigrationFilename_reads_back (d slug ext fullPath : string) :
  digits d = true -> slug <> "" -> Contains slug LF = false ->
  ext = "cql" \/ ext = "sql" ->
  let v := "V" +:+ d +:+ "__" +:+ slug +:+ "." +:+ ext in
  let u := "U" +:+ d +:+ "__" +:+ slug +:+ "." +:+ ext in
  let r := "R__" +:+ slug +:+ "." +:+ ext in
  parseMigrationFilename v fullPath
  = inr (mkMigration d (humanize slug) TypeVersioned v fullPath "" [] "")
  /\ parseMigrationFilename u fullPath
     = inr (mkMigration d (humanize slug) TypeUndo u fullPath "" [] "")
  /\ parseMigrationFilename r fullPath
     = inr (mkMigration "R" (humanize slug) TypeRepeatable r fullPath "" [] "").
Proof.
  intros Hd Hne Hnl Hext v u r. unfold parseMigrationFilename, versionedPattern, undoPattern.
  split; [|split].
  - unfold v. rewrite (match_numbered_app "V" d slug ext Hd Hne Hnl Hext). reflexivity.
  - assert (match_numbered "V" u = None) as -> by reflexivity.
    unfold u. rewrite (match_numbered_app "U" d slug ext Hd Hne Hnl Hext). reflexivity.
  - assert (match_numbered "V" r = None) as -> by reflexivity.
    assert (match_numbered "U" r = None) as -> by reflexivity.
    unfold repeatablePattern, r. rewrite HasPrefix_app.
    change (drop_bytes 3%nat ("R__" +:+ slug +:+ "." +:+ ext)) with (slug +:+ "." +:+ ext).
    rewrite (match_slug_app slug ext Hne Hnl Hext). reflexivity.
Qed.

Lemma parseMigrationFilename_reads_back_witness :
  parseMigrationFilename "V007__add_index.sql" "migrations/V007__add_index.sql"
  = inr (mkMigration "007" "add index" TypeVersioned "V007__add_index.sql"
                     "migrations/V007__add_index.sql" "" [] "").
Proof.
  exact (proj1 (parseMigrationFilename_reads_back "007" "add_index" "sql"
                  "migrations/V007__add_index.sql" eq_refl ltac:(discriminate) eq_refl
                  (or_intror eq_refl))).
Defined.

(** X15. What parseMigrationFilename accepts.  A name is accepted only if
    it is "V<digits>__<slug>" or "U<digits>__<slug>" or "R__<slug>"
    followed by ".cql" or ".sql", with a slug that is not empty; the
    migration then has the digits as its version (Versioned, Undo) or "R"
    (Repeatable), a description without underscore, the name and the path
    given, and no checksum, statement or content: the file is not read. *)
Theorem parseMigrationFilename_accepts (filename fullPath : string) (mig : Migration) :
  parseMigrationFilename filename fullPath = inr mig ->
  Filename mig = filename /\ FilePath mig = fullPath
  /\ Checksum mig = "" /\ Statements mig = [] /\ RawContent mig = ""
  /\ Contains (Description mig) "_" = false
  /\ exists slug ext,
       slug <> "" /\ (ext = ".cql" \/ ext = ".sql")
       /\ Description mig = humanize slug
       /\ match Type_ mig with
          | TypeVersioned =>
              digits (Version mig) = true
              /\ filename = "V" +:+ Version mig +:+ "__" +:+ slug +:+ ext
          | TypeUndo =>
              digits (Version mig) = true
              /\ filename = "U" +:+ Version mig +:+ "__" +:+ slug +:+ ext
          | TypeRepeatable =>
              Version mig = "R" /\ filename = "R__" +:+ slug +:+ ext
          end.
Proof.
  unfold parseMigrationFilename, versionedPattern, undoPattern.
  destruct (match_numbered "V" filename) as [[d slug]|] eqn:Hv.
  { intros [= <-]. cbn. apply match_numbered_spec in Hv as (Hd & Hne & _ & Hf).
    repeat (split; [reflexivity|]). split; [apply humanize_no_underscore|].
    destruct Hf as [-> | ->]; eexists slug, _; eauto 10. }
  destruct (match_numbered "U" filename) as [[d slug]|] eqn:Hu.
  { intros [= <-]. cbn. apply match_numbered_spec in Hu as (Hd & Hne & _ & Hf).
    repeat (split; [reflexivity|]). split; [apply humanize_no_underscore|].
    destruct Hf as [-> | ->]; eexists slug, _; eauto 10. }
  unfold repeatablePattern. destruct (HasPrefix filename "R__") eqn:Hp; [|discriminate].
  apply HasPrefix_true in Hp.
  destruct (match_slug (drop_bytes 3%nat filename)) as [slug|] eqn:Hm; [|discriminate].
  intros [= <-]. cbn. apply match_slug_spec in Hm as (Hne & _ & Hf).
  repeat (split; [reflexivity|]). split; [apply humanize_no_underscore|].
  rewrite Hp. change (String.length "R__") with 3%nat.
  destruct Hf as [-> | ->]; eexists slug, _; eauto 10.
Qed.

Lemma parseMigrationFilename_accepts_witness :
  exists mig,
    parseMigrationFilename "U010__drop_users.cql" "m/U010__drop_users.cql" = inr mig
    /\ Filename mig = "U010__drop_users.cql"
    /\ Contains (Description mig) "_" = false.
Proof.
  eexists. split; [vm_compute; reflexivity|].
  destruct (parseMigrationFilename_accepts "U010__drop_users.cql" "m/U010__drop_users.cql"
              _ eq_refl) as (Hf & _ & _ & _ & _ & Hd & _).
  exact (conj Hf Hd).
Defined.

Lemma scan_less_numbered (mi mj : Migration) :
  Type_ mi <> TypeRepeatable -> Type_ mj <> TypeRepeatable ->
  fits_int (Version mi) -> fits_int (Version mj) ->
  (scan_less mi mj = true
   <-> value (Version mi) < value (Version mj)
       \/ (value (Version mi) = value (Version mj) /\ Type_ mi = TypeVersioned)).
Proof.
  intros Hi Hj [Hdi Hmi] [Hdj Hmj]. unfold scan_less.
  rewrite (bool_decide_eq_false_2 _ Hi), (bool_decide_eq_false_2 _ Hj). cbn [andb negb].
  cbv zeta. rewrite (CompareVersions_digits _ _ Hdi Hdj Hmi Hmj).
  destruct (Z.lt_trichotomy (value (Version mi) - value (Version mj)) 0) as [H | [H | H]].
  - rewrite (Z.sgn_neg _ H). cbn. split; [intros _; left; lia | reflexivity].
  - rewrite H. cbn. rewrite bool_decide_eq_true. split; [intros Ht; right; split; [lia|exact Ht]|].
    intros [Hlt | [_ Ht]]; [lia | exact Ht].
  - rewrite (Z.sgn_pos _ H). cbn. split; [discriminate | intros [Hlt | [Heq _]]; lia].
Qed.

(** X16. The order ScanMigrationsDir asks of sort.Slice.  Every
    migration that is not Repeatable is less than every Repeatable one,
    never the other way round.  Among Versioned and Undo migrations whose
    versions are digit strings fitting [int], a migration is less than
    another exactly when its number is smaller, or the numbers are equal
    and it is Versioned.  Hence, in a list where no migration is less than
    one before it, the Repeatable migrations come last, the numbers do not
    decrease, and what follows a migration of the same number is an Undo
    migration. *)
Theorem scan_less_order :
  (forall mi mj, Type_ mi <> TypeRepeatable -> Type_ mj = TypeRepeatable ->
                 scan_less mi mj = true /\ scan_less mj mi = false)
  /\ (forall mi mj,
        Type_ mi <> TypeRepeatable -> Type_ mj <> TypeRepeatable ->
        fits_int (Version mi) -> fits_int (Version mj) ->
        (scan_less mi mj = true
         <-> value (Version mi) < value (Version mj)
             \/ (value (Version mi) = value (Version mj) /\ Type_ mi = TypeVersioned)))
  /\ (forall migs i j mi mj,
        sorted_for_scan migs ->
        (i < j)%nat -> migs !! i = Some mi -> migs !! j = Some mj ->
        (Type_ mi = TypeRepeatable -> Type_ mj = TypeRepeatable)
        /\ (Type_ mi <> TypeRepeatable -> Type_ mj <> TypeRepeatable ->
            fits_int (Version mi) -> fits_int (Version mj) ->
            value (Version mi) <= value (Version mj)
            /\ (value (Version mi) = value (Version mj) -> Type_ mj = TypeUndo))).
Proof.
  assert (forall mi mj, Type_ mi <> TypeRepeatable -> Type_ mj = TypeRepeatable ->
                 scan_less mi mj = true /\ scan_less mj mi = false) as Hrep.
  { intros mi mj Hi Hj. unfold scan_less.
    rewrite (bool_decide_eq_false_2 _ Hi), (bool_decide_eq_true_2 _ Hj). split; reflexivity. }
  split; [exact Hrep|]. split; [exact scan_less_numbered|].
  intros migs i j mi mj Hsorted Hij Hi Hj. specialize (Hsorted i j mi mj Hij Hi Hj). split.
  - intros Hti. destruct (decide (Type_ mj = TypeRepeatable)) as [Htj|Htj]; [exact Htj|].
    destruct (Hrep mj mi Htj Hti) as [Hlt _]. congruence.
  - intros Hti Htj Hfi Hfj.
    pose proof (scan_less_numbered mj mi Htj Hti Hfj Hfi) as Hiff.
    assert (~ (value (Version mj) < value (Version mi)
               \/ (value (Version mj) = value (Version mi) /\ Type_ mj = TypeVersioned)))
      as Hno by (rewrite <- Hiff, Hsorted; discriminate).
    split; [lia|]. intros Heq. destruct (Type_ mj); [|reflexivity|contradiction].
    exfalso. apply Hno. right. split; [lia | reflexivity].
Qed.

Lemma scan_less_order_witness :
  let migs := [sample_migration TypeVersioned "001" "V001__a.cql";
               sample_migration TypeUndo "001" "U001__a.cql";
               sample_migration TypeVersioned "002" "V002__a.cql";
               sample_migration TypeRepeatable "R" "R__a.cql"] in
  sorted_for_scan migs
  /\ (value "001" = value "001" -> Type_ (sample_migration TypeUndo "001" "U001__a.cql")
                                   = TypeUndo).
Proof.
  intros migs.
  assert (sorted_for_scan migs) as Hs.
  { intros i j mi mj Hij Hi Hj.
    destruct i as [|[|[|[|i]]]]; destruct j as [|[|[|[|j]]]]; try lia;
      cbn in Hi, Hj; try discriminate; injection Hi as <-; injection Hj as <-;
      vm_compute; reflexivity. }
  split; [exact Hs|].
  destruct (proj2 (proj2 scan_less_order) migs 0%nat 1%nat _ _ Hs ltac:(lia) eq_refl eq_refl)
    as [_ H].
  apply H; [discriminate | discriminate | |];
    (split; [reflexivity | vm_compute; discriminate]).
Defined.

Lemma Atoi_range (s : string) (v : Z) :
  StrConv.Atoi s = inr v -> StrConv.minInt <= v <= StrConv.maxInt.
Proof.
  unfold StrConv.Atoi.
  destruct (match s with "" => _ | String c s' => _ end) as [neg body].
  destruct body; [discriminate|].
  destruct (StrConv.parse_digits _ 0) as [n|]; [|discriminate].
  destruct (_ && _) eqn:Hr; [|discriminate]. intros [= <-].
  apply andb_true_iff in Hr as [H1 H2]. apply Z.leb_le in H1, H2. lia.
Qed.

Lemma Atoi_too_large (d : string) :
  digits d = true -> StrConv.maxInt < value d -> exists e, StrConv.Atoi d = inl e.
Proof.
  intros Hd Hgt. destruct (StrConv.Atoi d) as [e|v] eqn:Ha; [exists e; reflexivity|].
  exfalso. destruct d as [|c d]; [discriminate|]. unfold digits in Hd.
  unfold StrConv.Atoi in Ha. pose proof Hd as Hall.
  cbn [all_chars] in Hd. apply andb_true_iff in Hd as [Hc _].
  assert (Ascii.eqb c "-" = false /\ Ascii.eqb c "+" = false) as [H1 H2].
  { unfold is_digit in Hc. cbv zeta in Hc.
    split; apply Ascii.eqb_neq; intros ->; vm_compute in Hc; discriminate. }
  rewrite H1, H2, (parse_digits_value _ 0 Hall) in Ha. fold (value (String c d)) in Ha.
  destruct (_ && _) eqn:Hrange; [|discriminate].
  apply andb_true_iff in Hrange as [_ Hup]. apply Z.leb_le in Hup. lia.
Qed.

(** What one block of the loop does to the running maximum. *)
Lemma version_block_bounds (letter : string) (name : string) (m : Z) :
  match version_block (match_numbered letter) name m with
  | Some m' =>
      match match_numbered letter name with
      | Some (d, _) => value d <= StrConv.maxInt /\ m' = Z.max m (value d)
      | None => m' = m
      end
  | None => exists d slug, match_numbered letter name = Some (d, slug)
                           /\ StrConv.maxInt < value d
  end.
Proof.
  unfold version_block.
  destruct (match_numbered letter name) as [[d slug]|] eqn:Hmatch; [|reflexivity].
  apply match_numbered_spec in Hmatch as (Hd & _).
  destruct (Z.le_gt_cases (value d) StrConv.maxInt) as [Hle|Hgt].
  - rewrite (Atoi_digits d Hd Hle). split; [exact Hle|].
    destruct (value d >? m) eqn:Hc; lia.
  - destruct (Atoi_too_large d Hd Hgt) as [e ->]. exists d, slug. split; [reflexivity|lia].
Qed.

Lemma match_numbered_one_letter (name : string) (x : string * string) :
  match_numbered "V" name = Some x -> match_numbered "U" name = None.
Proof.
  unfold match_numbered. destruct name as [|c name]; [discriminate|].
  cbn [HasPrefix]. destruct (Ascii.eqb c "V") eqn:Hc; [|discriminate].
  apply Ascii.eqb_eq in Hc as ->. reflexivity.
Qed.

Lemma next_loop_max (entries : list DirEntry) (m : Z) :
  0 <= m <= StrConv.maxInt ->
  m <= next_loop entries m <= StrConv.maxInt
  /\ (forall e d, e ∈ entries -> counted e d -> value d <= next_loop entries m)
  /\ (next_loop entries m = m
      \/ exists e d, e ∈ entries /\ counted e d /\ value d = next_loop entries m).
Proof.
  revert m. induction entries as [|e rest IH]; intros m Hm.
  { cbn. split; [lia|]. split; [|left; reflexivity]. intros e d He. inversion He. }
  assert (forall m', (m' = m \/ (exists d, counted e d /\ value d = m' /\ m <= m')) ->
                     (forall d, counted e d -> value d <= m') ->
                     m <= m' <= StrConv.maxInt ->
                     m <= next_loop rest m' <= StrConv.maxInt
                     /\ (forall e0 d, e0 ∈ e :: rest -> counted e0 d ->
                                      value d <= next_loop rest m')
                     /\ (next_loop rest m' = m
                         \/ exists e0 d, e0 ∈ e :: rest /\ counted e0 d
                                         /\ value d = next_loop rest m')) as Hstep.
  { intros m' Hfrom Hcov Hm'. destruct (IH m' ltac:(lia)) as (Hb & Hall & Hex).
    split; [lia|]. split.
    - intros e0 d He0 Hc. apply elem_of_cons in He0 as [-> | He0]; [|exact (Hall _ _ He0 Hc)].
      specialize (Hcov _ Hc). lia.
    - destruct Hex as [Heq | (e0 & d & He0 & Hc & Hv)].
      + destruct Hfrom as [-> | (d & Hc & Hv & _)]; [left; exact Heq|].
        right. exists e, d. split; [apply elem_of_cons; left; reflexivity|]. split; [exact Hc | congruence].
      + right. exists e0, d. split; [apply elem_of_cons; right; exact He0|]. split; assumption. }
  cbn [next_loop]. destruct (IsDir e) eqn:Hdir.
  { apply Hstep; [left; reflexivity | | lia]. intros d (Hd & _). congruence. }
  unfold versionedPattern, undoPattern.
  pose proof (version_block_bounds "V" (Name e) m) as HV.
  destruct (match_numbered "V" (Name e)) as [[dv sv]|] eqn:HmV.
  - pose proof (match_numbered_one_letter _ _ HmV) as HmU.
    assert (forall d, counted e d -> d = dv) as Honly.
    { intros d (_ & (slug & [H | H]) & _); unfold versionedPattern, undoPattern in H; congruence. }
    destruct (version_block (match_numbered "V") (Name e) m) as [m1|].
    + destruct HV as [Hle ->].
      pose proof (version_block_bounds "U" (Name e) (Z.max m (value dv))) as HU.
      rewrite HmU in HU. destruct (version_block (match_numbered "U") _ _) as [m2|].
      * subst m2. apply Hstep; [| |lia].
        -- destruct (Z.max_spec m (value dv)) as [[Hlt ->] | [_ ->]]; [|left; reflexivity].
           right. exists dv. split; [|lia]. split; [exact Hdir|]. split; [|exact Hle].
           exists sv. left. exact HmV.
        -- intros d Hc. rewrite (Honly _ Hc). lia.
      * destruct HU as (d & slug & [=] & _).
    + destruct HV as (d & slug & [= <- <-] & Hbig). apply Hstep; [left; reflexivity | | lia].
      intros d Hc. pose proof Hc as (_ & _ & Hfit). rewrite (Honly _ Hc) in Hfit. lia.
  - destruct (version_block (match_numbered "V") (Name e) m) as [m1|];
      [subst m1 | destruct HV as (d & slug & [=] & _)].
    pose proof (version_block_bounds "U" (Name e) m) as HU.
    destruct (match_numbered "U" (Name e)) as [[du su]|] eqn:HmU.
    + assert (forall d, counted e d -> d = du) as Honly.
      { intros d (_ & (slug & [H | H]) & _); unfold versionedPattern, undoPattern in H;
          congruence. }
      destruct (version_block (match_numbered "U") (Name e) m) as [m2|].
      * destruct HU as [Hle ->]. apply Hstep; [| |lia].
        -- destruct (Z.max_spec m (value du)) as [[Hlt ->] | [_ ->]]; [|left; reflexivity].
           right. exists du. split; [|lia]. split; [exact Hdir|]. split; [|exact Hle].
           exists su. right. exact HmU.
        -- intros d Hc. rewrite (Honly _ Hc). lia.
      * destruct HU as (d & slug & [= <- <-] & Hbig). apply Hstep; [left; reflexivity | | lia].
        intros d Hc. pose proof Hc as (_ & _ & Hfit). rewrite (Honly _ Hc) in Hfit. lia.
    + destruct (version_block (match_numbered "U") (Name e) m) as [m2|];
        [subst m2 | destruct HU as (d & slug & [=] & _)].
      apply Hstep; [left; reflexivity | | lia].
      intros d (_ & (slug & [H | H]) & _); unfold versionedPattern, undoPattern in H;
        congruence.
Qed.

(** X17. GetNextVersion.  A directory that does not exist gives 1
    and no error; any other failure of the listing gives 0 and that error.
    For a listed directory there is no error and the result is one more
    than the largest number among the files (directories are skipped)
    whose name matches the Versioned or the Undo pattern with a number
    that fits [int], and 1 when there is none; a name whose number
    does not fit is skipped.  When that largest number is the largest
    [int] itself, the sum wraps round to the smallest [int]. *)
Theorem GetNextVersion_next :
  (forall err, GetNextVersion (inl (true, err)) = (1, None))
  /\ (forall err, GetNextVersion (inl (false, err)) = (0, Some err))
  /\ (forall entries,
        exists top,
          0 <= top <= StrConv.maxInt
          /\ (forall e d, e ∈ entries -> counted e d -> value d <= top)
          /\ (top = 0 \/ exists e d, e ∈ entries /\ counted e d /\ value d = top)
          /\ GetNextVersion (inr entries)
             = (if top <? StrConv.maxInt then top + 1 else StrConv.minInt, None)).
Proof.
  split; [reflexivity|]. split; [reflexivity|]. intros entries.
  destruct (next_loop_max entries 0 ltac:(vm_compute; split; discriminate)) as (Hb & Hall & Hex).
  exists (next_loop entries 0). split; [lia|]. split; [exact Hall|]. split; [exact Hex|].
  unfold GetNextVersion. f_equal. unfold wrap_int.
  assert (StrConv.maxInt = 2 ^ 63 - 1) as Hmax by reflexivity.
  assert (StrConv.minInt = - 2 ^ 63) as Hmin by reflexivity.
  destruct (next_loop entries 0 <? StrConv.maxInt) eqn:Hlt.
  - apply Z.ltb_lt in Hlt. rewrite Z.mod_small; lia.
  - apply Z.ltb_ge in Hlt. assert (next_loop entries 0 = 2 ^ 63 - 1) as -> by lia.
    rewrite Hmin. reflexivity.
Qed.

Import Statements.

Lemma trimRight_idempotent (s : string) : trimRight (trimRight s) = trimRight s.
Proof.
  induction s as [|c s IH]; [reflexivity|]. cbn [trimRight].
  destruct (trimRight s) as [|d t] eqn:Ht.
  - destruct (isSpace c) eqn:Hc; [reflexivity|]. cbn [trimRight]. rewrite Hc. reflexivity.
  - cbn [trimRight]. cbn [trimRight] in IH. rewrite IH. reflexivity.
Qed.

Lemma trimLeft_head (s : string) :
  trimLeft s = "" \/ exists c r, trimLeft s = String c r /\ isSpace c = false.
Proof.
  induction s as [|c s IH]; [left; reflexivity|]. cbn [trimLeft].
  destruct (isSpace c) eqn:Hc; [exact IH|]. right. exists c, s. split; [reflexivity|exact Hc].
Qed.

Lemma trimRight_head (c : ascii) (r : string) :
  isSpace c = false -> trimRight (String c r) = String c (trimRight r).
Proof.
  intros Hc. cbn [trimRight]. destruct (trimRight r); [rewrite Hc|]; reflexivity.
Qed.

Lemma TrimSpace_idempotent (s : string) : TrimSpace (TrimSpace s) = TrimSpace s.
Proof.
  unfold TrimSpace. destruct (trimLeft_head s) as [-> | (c & r & -> & Hc)]; [reflexivity|].
  rewrite (trimRight_head _ _ Hc). cbn [trimLeft]. rewrite Hc.
  rewrite (trimRight_head _ _ Hc), trimRight_idempotent. reflexivity.
Qed.

Lemma push_trimmed (stmts : list string) (cur : string) :
  Forall trimmed stmts ->
  Forall trimmed (if String.eqb (TrimSpace cur) "" then stmts else stmts ++ [TrimSpace cur]).
Proof.
  intros H. destruct (String.eqb (TrimSpace cur) "") eqn:He; [exact H|].
  apply Forall_app. split; [exact H|]. apply Forall_cons. split; [|apply Forall_nil; exact I].
  split; [apply String.eqb_neq, He | apply TrimSpace_idempotent].
Qed.

Lemma step_trimmed (ch : ascii) (rest : string) (st : scanner) :
  Forall trimmed (statements st) -> Forall trimmed (statements (fst (step ch rest st))).
Proof.
  destruct st as [stmts cur sq dq lc bc]. cbn [statements]. intros H. unfold step.
  repeat match goal with
         | |- context [if ?b then _ else _] =>
             lazymatch b with
             | String.eqb _ _ => fail
             | _ => destruct b
             end
         end; cbn [fst statements]; try exact H; apply push_trimmed, H.
Qed.

Lemma scan_loop_trimmed (runes : string) :
  forall skip st,
    Forall trimmed (statements st) -> Forall trimmed (statements (scan_loop skip runes st)).
Proof.
  induction runes as [|ch rest IH]; intros skip st H; [exact H|]. cbn [scan_loop].
  destruct skip; [apply IH, H|].
  pose proof (step_trimmed ch rest st H) as Hs.
  destruct (step ch rest st) as [st' sk]. apply IH, Hs.
Qed.

(** X18. splitStatements never returns an empty statement, nor one with
    white space at either end: when it succeeds on an ASCII script, every
    statement it returns is non-empty and is left unchanged by
    strings.TrimSpace. *)
Theorem splitStatements_trimmed (content : string) (stmts : list string) :
  ascii_only content ->
  splitStatements content = inr stmts ->
  Forall trimmed stmts.
Proof.
  intros _. unfold splitStatements.
  pose proof (scan_loop_trimmed content false (mkScanner [] "" false false false false)
                (Forall_nil_2 _)) as H.
  destruct (scan_loop _ _ _) as [acc cur sq dq lc bc]. cbn [statements] in H.
  cbn [inSingleQuote inDoubleQuote inBlockComment current statements].
  destruct sq; [discriminate|]. destruct dq; [discriminate|]. destruct bc; [discriminate|].
  intros [= <-]. apply push_trimmed, H.
Qed.

Lemma splitStatements_trimmed_witness :
  Forall trimmed ["CREATE TABLE t (id int)"; "INSERT INTO t (id) VALUES (1)"].
Proof.
  apply (splitStatements_trimmed
           (" CREATE TABLE t (id int) ; ;" +:+ LF +:+ "INSERT INTO t (id) VALUES (1) " +:+ LF));
    vm_compute; reflexivity.
Defined.

Lemma scan_loop_plain (runes : string) :
  forall stmts cur,
    plain_script runes = true ->
    let st := scan_loop false runes (mkScanner stmts cur false false false false) in
    inSingleQuote st = false /\ inDoubleQuote st = false /\ inBlockComment st = false
    /\ (if String.eqb (TrimSpace (current st)) "" then statements st
        else statements st ++ [TrimSpace (current st)])
       = stmts ++ trimmed_pieces (split_semicolon cur runes).
Proof.
  induction runes as [|c rest IH]; intros stmts cur Hp.
  { cbn [scan_loop split_semicolon]. cbv zeta.
    cbn [inSingleQuote inDoubleQuote inBlockComment current statements].
    repeat (split; [reflexivity|]). unfold trimmed_pieces. cbn [flat_map]. cbv zeta.
    destruct (String.eqb (TrimSpace cur) ""); rewrite !app_nil_r; reflexivity. }
  cbn [plain_script] in Hp.
  apply andb_true_iff in Hp as [Hp Hrest]. apply andb_true_iff in Hp as [Hp Hblock].
  apply andb_true_iff in Hp as [Hp Hline]. apply andb_true_iff in Hp as [Hsq Hdq].
  apply negb_true_iff in Hsq, Hdq, Hline, Hblock.
  cbn [scan_loop step negb andb]. rewrite Hline, Hblock, Hsq, Hdq.
  cbn [split_semicolon]. destruct (Ascii.eqb c ";") eqn:Hsemi.
  - cbv zeta. specialize (IH (if String.eqb (TrimSpace cur) "" then stmts
                                  else stmts ++ [TrimSpace cur]) "" Hrest).
    cbv zeta in IH. destruct IH as (H1 & H2 & H3 & H4).
    repeat (split; [assumption|]). rewrite H4. unfold trimmed_pieces. cbn [flat_map].
    destruct (String.eqb (TrimSpace cur) ""); [reflexivity|].
    rewrite <- app_assoc. reflexivity.
  - exact (IH stmts (WriteRune c cur) Hrest).
Qed.

(** X19. A script without quotes and comments is cut at its
    semicolons.  For an ASCII script that has no single quote, no double
    quote, no [--] and no [/*], splitStatements succeeds and returns the
    pieces strings.Split gives at [;], each trimmed, the empty ones
    dropped, in their order. *)
Theorem splitStatements_plain (content : string) :
  ascii_only content ->
  plain_script content = true ->
  splitStatements content = inr (trimmed_pieces (split_semicolon "" content)).
Proof.
  intros _ Hp. unfold splitStatements.
  pose proof (scan_loop_plain content [] "" Hp) as H. cbv zeta in H.
  destruct H as (-> & -> & -> & H). cbv zeta. rewrite H. reflexivity.
Qed.

Lemma splitStatements_plain_witness :
  splitStatements ("ALTER TABLE t ADD c int;; DROP TABLE u ;" +:+ LF)
  = inr ["ALTER TABLE t ADD c int"; "DROP TABLE u"].
Proof.
  exact (splitStatements_plain ("ALTER TABLE t ADD c int;; DROP TABLE u ;" +:+ LF)
           eq_refl eq_refl).
Defined.

Import Metadata.

Lemma versioned_ok_test (a : AppliedMigration) :
  aSuccess a && String.eqb (aType a) "versioned" = true <-> versioned_ok a.
Proof.
  unfold versioned_ok. rewrite andb_true_iff, String.eqb_eq. reflexivity.
Qed.

Lemma last_turn_invariant (a : AppliedMigration) (seen : list AppliedMigration)
    (lv : string) (ln : Z) :
  (versioned_ok a -> fits_int (aVersion a)) ->
  last_invariant seen lv ln ->
  last_invariant (seen ++ [a]) (fst (last_turn a lv ln)) (snd (last_turn a lv ln)).
Proof.
  intros Hfit [Hmax Hst]. unfold last_turn.
  destruct (aSuccess a && String.eqb (aType a) "versioned") eqn:Hok.
  - apply versioned_ok_test in Hok. destruct (Hfit Hok) as [Hd Hle].
    assert (0 <= value (aVersion a)) as Hpos.
    { apply value_from_lower; [|lia]. unfold digits in Hd.
      destruct (aVersion a); [discriminate | exact Hd]. } rewrite (Atoi_digits _ Hd Hle).
    destruct (value (aVersion a) >? ln) eqn:Hgt; cbn [fst snd].
    + apply Z.gtb_lt in Hgt. split.
      * intros b Hb Hbok. apply elem_of_app in Hb as [Hb | Hb].
        -- specialize (Hmax b Hb Hbok). lia.
        -- apply list_elem_of_singleton in Hb as ->. lia.
      * right. split; [reflexivity|]. exists a. split; [|split; [exact Hok|reflexivity]].
        apply elem_of_app. right. apply list_elem_of_singleton. reflexivity.
    + assert (value (aVersion a) <= ln) as Hle' by (rewrite Z.gtb_ltb in Hgt; apply Z.ltb_ge in Hgt; exact Hgt).
      split.
      * intros b Hb Hbok. apply elem_of_app in Hb as [Hb | Hb]; [exact (Hmax b Hb Hbok)|].
        apply list_elem_of_singleton in Hb as ->. exact Hle'.
      * destruct Hst as [(_ & -> & _) | (Hln & b & Hb & Hbok & Hv)]; [lia|].
        right. split; [exact Hln|]. exists b. split; [|split; assumption].
        apply elem_of_app. left. exact Hb.
  - cbn [fst snd]. assert (~ versioned_ok a) as Hno.
    { intros H. apply versioned_ok_test in H. congruence. }
    split.
    + intros b Hb Hbok. apply elem_of_app in Hb as [Hb | Hb]; [exact (Hmax b Hb Hbok)|].
      apply list_elem_of_singleton in Hb as ->. contradiction.
    + destruct Hst as [(-> & -> & Hnone) | (Hln & b & Hb & Hbok & Hv)].
      * left. split; [reflexivity|]. split; [reflexivity|].
        intros b Hb. apply elem_of_app in Hb as [Hb | Hb]; [exact (Hnone b Hb)|].
        apply list_elem_of_singleton in Hb as ->. exact Hno.
      * right. split; [exact Hln|]. exists b. split; [|split; assumption].
        apply elem_of_app. left. exact Hb.
Qed.

Lemma last_loop_invariant (rows : list AppliedMigration) :
  forall (seen : list AppliedMigration) lv ln,
    (forall a, a ∈ rows -> versioned_ok a -> fits_int (aVersion a)) ->
    last_invariant seen lv ln ->
    exists ln', last_invariant (seen ++ rows) (last_loop rows lv ln) ln'.
Proof.
  induction rows as [|a rest IH]; intros seen lv ln Hfit Hinv.
  { exists ln. rewrite app_nil_r. exact Hinv. }
  cbn [last_loop].
  pose proof (last_turn_invariant a seen lv ln
                (Hfit a ltac:(apply elem_of_cons; left; reflexivity)) Hinv) as Hturn.
  destruct (last_turn a lv ln) as [lv' ln']. cbn [fst snd] in Hturn.
  destruct (IH (seen ++ [a]) lv' ln') as [ln'' Hend]; [|exact Hturn|].
  - intros b Hb. apply Hfit, elem_of_cons. right. exact Hb.
  - exists ln''. rewrite <- app_assoc in Hend. exact Hend.
Qed.

(** X20. GetLastAppliedVersion passes on the error of
    GetAppliedMigrations with an empty version.  Otherwise it looks only
    at the rows that succeeded and have type "versioned": when the
    version of each of them is a digit string that fits [int], it
    returns the empty string if there is no such row, and else the
    version of such a row whose number is the largest among them; there
    is no error. *)
Theorem GetLastAppliedVersion_largest :
  (forall err, GetLastAppliedVersion (inl err) = ("", Some err))
  /\ (forall rows,
        (forall a, a ∈ rows -> versioned_ok a -> fits_int (aVersion a)) ->
        exists v,
          GetLastAppliedVersion (inr rows) = (v, None)
          /\ ((v = "" /\ forall a, a ∈ rows -> ~ versioned_ok a)
              \/ ((exists a, a ∈ rows /\ versioned_ok a /\ aVersion a = v)
                  /\ forall a, a ∈ rows -> versioned_ok a ->
                                value (aVersion a) <= value v))).
Proof.
  split; [reflexivity|]. intros rows Hfit.
  destruct (last_loop_invariant rows [] "" (-1) Hfit) as [ln [Hmax Hst]].
  { split; [intros a Ha; inversion Ha|]. left. split; [reflexivity|].
    split; [reflexivity|]. intros a Ha. inversion Ha. }
  cbn [app] in Hmax, Hst. exists (last_loop rows "" (-1)). split; [reflexivity|].
  destruct Hst as [(Hv & _ & Hnone) | (Hln & Hex)]; [left; split; assumption|].
  right. split; [exact Hex|]. intros a Ha Hok. rewrite <- Hln. exact (Hmax a Ha Hok).
Qed.

Lemma GetLastAppliedVersion_largest_witness :
  exists v,
    GetLastAppliedVersion
      (inr [sample_row "002" "versioned" true; sample_row "010" "versioned" true;
            sample_row "011" "versioned" false; sample_row "012" "undo" true])
    = (v, None)
    /\ value "002" <= value v.
Proof.
  destruct (proj2 GetLastAppliedVersion_largest
              [sample_row "002" "versioned" true; sample_row "010" "versioned" true;
               sample_row "011" "versioned" false; sample_row "012" "undo" true])
    as (v & Hv & Hcases).
  - intros a Ha [Hs Ht].
    repeat (apply elem_of_cons in Ha as [-> | Ha]);
      try (split; [reflexivity | vm_compute; discriminate]);
      try discriminate Hs; try discriminate Ht.
    inversion Ha.
  - exists v. split; [exact Hv|].
    destruct Hcases as [[_ Hnone] | [_ Hmax]].
    + exfalso. apply (Hnone (sample_row "002" "versioned" true)).
      * apply elem_of_cons. left. reflexivity.
      * split; reflexivity.
    + apply (Hmax (sample_row "002" "versioned" true)).
      * apply elem_of_cons. left. reflexivity.
      * split; reflexivity.
Defined.

Lemma compare_antisym (a : string) : forall b, compare b a = CompOpp (compare a b).
Proof.
  induction a as [|x a IH]; intros [|y b]; try reflexivity. cbn [compare].
  rewrite (Z.compare_antisym (byte_of x) (byte_of y)).
  destruct (byte_of x ?= byte_of y); cbn [CompOpp]; [apply IH | reflexivity | reflexivity].
Qed.

Lemma compare_refl (a : string) : compare a a = Eq.
Proof.
  induction a as [|x a IH]; [reflexivity|]. cbn [compare]. rewrite Z.compare_refl. exact IH.
Qed.

(** X21. CompareVersions changes sign when its arguments are swapped,
    and is 0 on equal arguments, whatever the strings.  It is no order
    all the same, not even on digit strings: a number too large for
    [int] makes the comparison fall back on the bytes, and "93" comes
    before "100", "100" before "9223372036854775808", and that one
    before "93". *)
Theorem CompareVersions_antisymmetric :
  (forall a b, CompareVersions a b = - CompareVersions b a)
  /\ (forall a, CompareVersions a a = 0)
  /\ (exists a b c,
        digits a = true /\ digits b = true /\ digits c = true
        /\ CompareVersions a b = -1 /\ CompareVersions b c = -1
        /\ CompareVersions c a = -1).
Proof.
  split; [|split].
  - intros a b. unfold CompareVersions.
    destruct (StrConv.Atoi a) as [ea|ai], (StrConv.Atoi b) as [eb|bi];
      try (unfold ltb, gtb; rewrite (compare_antisym a b);
           destruct (compare a b); reflexivity).
    destruct (Z.lt_trichotomy ai bi) as [H | [H | H]].
    + rewrite (proj2 (Z.ltb_lt ai bi) H), (proj2 (Z.ltb_ge bi ai)) by lia.
      rewrite (proj2 (Z.gtb_lt bi ai)) by lia. reflexivity.
    + subst bi. rewrite Z.ltb_irrefl, Z.gtb_ltb, Z.ltb_irrefl. reflexivity.
    + rewrite (proj2 (Z.ltb_ge ai bi)) by lia. rewrite (proj2 (Z.gtb_lt ai bi)) by lia.
      rewrite (proj2 (Z.ltb_lt bi ai)) by lia. reflexivity.
  - intros a. unfold CompareVersions.
    destruct (StrConv.Atoi a) as [ea|ai].
    + unfold ltb, gtb. rewrite compare_refl. reflexivity.
    + rewrite Z.ltb_irrefl, Z.gtb_ltb, Z.ltb_irrefl. reflexivity.
  - exists "93", "100", "9223372036854775808". vm_compute. repeat split.
Qed.

Import Migrator.

(** X22. Migrator.Migrate runs migrations only under the lock and
    only after the checksums have been validated.  When Acquire returns an
    error, Migrate returns it behind "failed to acquire lock: ", makes no
    further call and does not call Release.  When Acquire returns nil,
    Release is called, first with the conditional delete of the lock of
    this owner, whatever happens in between, and its answer has no part
    in what Migrate returns.  If any call follows those of Acquire, then
    the scan and the query of the applied rows have succeeded, the
    validation has reported nothing, there is a pending migration, and
    the calls and the error are those of ExecuteAll on the pending
    migrations. *)
Theorem Migrate_guarded (fuel : nat) (lm : LockManager.LockManager)
    (ctx : Executor.ExecutionContext) (fs : filesystem) (timeout : Z)
    (scan : result (list Migration)) (applied : result (list AppliedMigration))
    (ans : Answers) (w wa : World) (r : option error) :
  LockManager.Acquire fuel lm timeout w = (Some r, wa) ->
  exists err calls w',
    Migrate fuel lm ctx fs timeout scan applied ans w = (Some (err, calls), w')
    /\ match r with
       | Some e => err = Some ("failed to acquire lock: " +:+ e) /\ calls = [] /\ w' = wa
       | None =>
           (exists more,
              calls = CasDelete (LockManager.lockID lm) (LockManager.owner lm) :: more)
           /\ forall ans', exists calls',
                Migrate fuel lm ctx fs timeout scan applied ans' w
                = (Some (err, calls'), w')
       end
    /\ (w' <> wa ->
        r = None
        /\ exists scanned rows migs ptrs,
             scan = inr scanned /\ applied = inr rows
             /\ snd (ValidateAppliedChecksums fs scanned rows) = []
             /\ GetPendingMigrations fs (fst (ValidateAppliedChecksums fs scanned rows)) rows
                = (migs, inr ptrs)
             /\ ptrs <> []
             /\ exists n, ExecuteAll ctx (deref migs ptrs) wa = (n, err, w')).
Proof.
  intros Hacq. unfold Migrate, bind. rewrite Hacq.
  destruct r as [e|].
  { exists (Some ("failed to acquire lock: " +:+ e)), [], wa.
    split; [reflexivity|]. split; [auto|]. intros H. contradiction. }
  assert (exists more, fst (Release lm ans)
                       = CasDelete (LockManager.lockID lm) (LockManager.owner lm) :: more)
    as Hrel.
  { unfold Release. destruct (cas_delete ans) as [e|[|]]; [destruct (force_delete ans)|..];
      eexists; reflexivity. }
  destruct (migrate_body ctx fs scan applied wa) as [err w'] eqn:Hbody.
  exists err, (fst (Release lm ans)), w'. unfold ret. split; [reflexivity|].
  split; [split; [exact Hrel|]; intros ans'; eexists; reflexivity|].
  intros Hchange. split; [reflexivity|].
  unfold migrate_body in Hbody.
  destruct scan as [e|scanned]; [injection Hbody as _ <-; contradiction|].
  destruct applied as [e|rows]; [injection Hbody as _ <-; contradiction|].
  destruct (ValidateAppliedChecksums fs scanned rows) as [migs errors] eqn:Hval.
  destruct errors as [|e errors]; [|injection Hbody as _ <-; contradiction].
  cbn [length Nat.ltb Nat.leb] in Hbody.
  destruct (GetPendingMigrations fs migs rows) as [migs' [e|ptrs]] eqn:Hpend;
    [injection Hbody as _ <-; contradiction|].
  destruct ptrs as [|p ptrs]; [injection Hbody as _ <-; contradiction|].
  cbn [length Nat.eqb] in Hbody. unfold bind, ret in Hbody.
  exists scanned, rows, migs', (p :: ptrs). rewrite Hval. cbn [fst snd].
  repeat (split; [first [reflexivity | exact Hpend | discriminate]|]).
  destruct (ExecuteAll ctx (deref migs' (p :: ptrs)) wa) as [[n e] w''] eqn:Hall.
  cbn [snd] in Hbody. injection Hbody as -> ->. exists n. reflexivity.
Qed.

Lemma Migrate_guarded_witness :
  exists err calls w',
    Migrate 5 (sample_manager (fails_on "x")) (sample_context (fails_on "x")) sample_fs
      (60 * LockManager.Second) (inr [sample_migration TypeVersioned "001" "V001__a.cql"])
      (inr []) (mkAnswers (inr true) None) world0
    = (Some (err, calls), w')
    /\ calls <> [].
Proof.
  assert (LockManager.Acquire 5 (sample_manager (fails_on "x")) (60 * LockManager.Second)
            world0
          = (Some None,
             snd (LockManager.Acquire 5 (sample_manager (fails_on "x"))
                    (60 * LockManager.Second) world0))) as Hacq by (vm_compute; reflexivity).
  destruct (Migrate_guarded 5 (sample_manager (fails_on "x")) (sample_context (fails_on "x"))
              sample_fs (60 * LockManager.Second)
              (inr [sample_migration TypeVersioned "001" "V001__a.cql"]) (inr [])
              (mkAnswers (inr true) None) world0 _ None Hacq)
    as (err & calls & w' & Hrun & [(more & Hmore) _] & _).
  exists err, calls, w'. split; [exact Hrun|]. rewrite Hmore. discriminate.
Defined.

Import Config.

(** X23. The driver and the configuration read the consistency level
    alike.  GetConsistency accepts exactly the nine names any, one, two,
    three, quorum, all, local_quorum, each_quorum and local_one; on each
    of them mustConsistency gives the level GetConsistency gives, and on
    every other name, where GetConsistency fails, mustConsistency gives
    Quorum. *)
Theorem mustConsistency_agrees (level : string) :
  (snd (GetConsistency level) = None <-> level ∈ levels)
  /\ match snd (GetConsistency level) with
     | None => mustConsistency level = fst (GetConsistency level)
     | Some err => err = "unsupported consistency level: " +:+ level
                   /\ mustConsistency level = Quorum
     end.
Proof.
  unfold GetConsistency, mustConsistency, levels.
  repeat match goal with
         | |- context [String.eqb level ?s] =>
             destruct (String.eqb level s) eqn:?;
             [match goal with H : String.eqb level s = true |- _ =>
                apply String.eqb_eq in H; subst level end;
              split; [split; [intros _; set_solver | reflexivity] | reflexivity]|]
         end.
  cbn [fst snd]. split; [|split; reflexivity].
  split; [discriminate|]. intros Hin.
  repeat (apply elem_of_cons in Hin as [-> | Hin]; [discriminate|]). inversion Hin.
Qed.

Import Repair.

Lemma parse_versioned_skip (fs : filesystem) (v : string) (scanned : list Migration) :
  forall fileMap,
    (forall mig, mig ∈ scanned -> ~ (Type_ mig = TypeVersioned /\ Version mig = v)) ->
    parse_versioned fs scanned fileMap !! v = fileMap !! v.
Proof.
  induction scanned as [|mig rest IH]; intros fileMap Hno; [reflexivity|].
  assert (forall m, m ∈ rest -> ~ (Type_ m = TypeVersioned /\ Version m = v)) as Hrest.
  { intros m Hm. apply Hno, elem_of_cons. right. exact Hm. }
  cbn [parse_versioned]. destruct (decide (Type_ mig = TypeVersioned)) as [Hty|Hty];
    [|apply IH, Hrest].
  pose proof (ParseMigrationFile_keeps fs mig) as Hkeep. cbv zeta in Hkeep.
  destruct (ParseMigrationFile fs mig) as [mig' [e|]]; [apply IH, Hrest|].
  cbn [fst] in Hkeep. destruct Hkeep as (Hv & _).
  rewrite (IH _ Hrest). apply lookup_insert_ne. rewrite Hv. intros Heq.
  apply (Hno mig); [apply elem_of_cons; left; reflexivity | split; assumption].
Qed.

(** The entry of a version is the last Versioned migration of it, when
    that one parses. *)
Lemma parse_versioned_last (fs : filesystem) (scanned : list Migration) :
  forall (j : nat) (mig : Migration) (fileMap : gmap string Migration),
    scanned !! j = Some mig ->
    Type_ mig = TypeVersioned ->
    snd (ParseMigrationFile fs mig) = None ->
    (forall k m, (j < k)%nat -> scanned !! k = Some m ->
                 ~ (Type_ m = TypeVersioned /\ Version m = Version mig)) ->
    parse_versioned fs scanned fileMap !! Version mig
    = Some (fst (ParseMigrationFile fs mig)).
Proof.
  induction scanned as [|x rest IH]; intros j mig fileMap Hj Hty Hparse Hlast;
    [discriminate|].
  destruct j as [|j].
  - injection Hj as ->. cbn [parse_versioned].
    destruct (decide (Type_ mig = TypeVersioned)); [|contradiction].
    pose proof (ParseMigrationFile_keeps fs mig) as Hkeep. cbv zeta in Hkeep.
    destruct (ParseMigrationFile fs mig) as [mig' [err|]]; [discriminate|].
    cbn [fst snd] in *. destruct Hkeep as (Hv & _).
    rewrite parse_versioned_skip.
    + rewrite Hv. apply lookup_insert_eq.
    + intros m Hm. apply list_elem_of_lookup in Hm as [k Hk].
      apply (Hlast (S k) m); [lia | exact Hk].
  - cbn [parse_versioned].
    assert (forall fm, parse_versioned fs rest fm !! Version mig
                       = Some (fst (ParseMigrationFile fs mig))) as Hrest.
    { intros fm. apply (IH j); try assumption.
      intros k m Hk Hm. apply (Hlast (S k) m); [lia | exact Hm]. }
    destruct (decide (Type_ x = TypeVersioned)); [|apply Hrest].
    destruct (ParseMigrationFile fs x) as [x' [err|]]; apply Hrest.
Qed.

Lemma repaired_fields (fileMap : gmap string Migration) (a r : AppliedMigration) :
  repaired fileMap a r ->
  aVersion r = aVersion a /\ aSuccess r = aSuccess a /\ aType r = aType a
  /\ aDescription r = aDescription a.
Proof. intros [-> | (x & _ & ->)]; cbn; auto. Qed.

(** What holds of the table while the loop runs over the rows read from
    [t0]: the rows are those of [t0], some with the checksum of their file,
    and the rows dealt with have it when they are versioned and have a
    file. *)
Lemma recalc_loop_invariant (update_error : string -> string -> option error)
    (fileMap : gmap string Migration) (t0 : gmap string AppliedMigration) :
  (forall v c, update_error v c = None) ->
  forall (todo done : list AppliedMigration) (t : gmap string AppliedMigration) (n : nat),
    (forall a, a ∈ done ++ todo -> t0 !! aVersion a = Some a) ->
    (forall v r, t !! v = Some r -> exists a, t0 !! v = Some a /\ aVersion a = v
                                              /\ repaired fileMap a r) ->
    (forall v, is_Some (t0 !! v) -> is_Some (t !! v)) ->
    (forall a x r, a ∈ done -> aSuccess a = true -> aType a = "versioned" ->
                   fileMap !! aVersion a = Some x -> t !! aVersion a = Some r ->
                   aChecksum r = Checksum x) ->
    let t' := fst (recalc_loop update_error fileMap todo t n) in
    (forall v r, t' !! v = Some r -> exists a, t0 !! v = Some a /\ aVersion a = v
                                               /\ repaired fileMap a r)
    /\ (forall a x r, a ∈ done ++ todo -> aSuccess a = true -> aType a = "versioned" ->
                      fileMap !! aVersion a = Some x -> t' !! aVersion a = Some r ->
                      aChecksum r = Checksum x).
Proof.
  intros Hupd. induction todo as [|a rest IH]; intros done t n Hsnap Hrows Hdom Hdone.
  { cbn [recalc_loop fst]. rewrite app_nil_r. split; assumption. }
  assert (forall t1 n1,
            (forall v r, t1 !! v = Some r -> exists a0, t0 !! v = Some a0 /\ aVersion a0 = v
                                                        /\ repaired fileMap a0 r) ->
            (forall v, is_Some (t0 !! v) -> is_Some (t1 !! v)) ->
            (forall a0 x r, a0 ∈ done ++ [a] -> aSuccess a0 = true ->
                            aType a0 = "versioned" ->
                            fileMap !! aVersion a0 = Some x -> t1 !! aVersion a0 = Some r ->
                            aChecksum r = Checksum x) ->
            let t' := fst (recalc_loop update_error fileMap rest t1 n1) in
            (forall v r, t' !! v = Some r -> exists a0, t0 !! v = Some a0 /\ aVersion a0 = v
                                                        /\ repaired fileMap a0 r)
            /\ (forall a0 x r, a0 ∈ done ++ a :: rest -> aSuccess a0 = true ->
                               aType a0 = "versioned" ->
                               fileMap !! aVersion a0 = Some x ->
                               t' !! aVersion a0 = Some r ->
                               aChecksum r = Checksum x)) as Hnext.
  { intros t1 n1 H1 H2 H3.
    replace (done ++ a :: rest) with ((done ++ [a]) ++ rest)
      by (rewrite <- app_assoc; reflexivity).
    apply IH; try assumption. rewrite <- app_assoc. exact Hsnap. }
  assert (forall a0 x r, a0 ∈ done ++ [a] ->
            (aSuccess a = true -> aType a = "versioned" ->
             forall x r, fileMap !! aVersion a = Some x -> t !! aVersion a = Some r ->
                         aChecksum r = Checksum x) ->
            aSuccess a0 = true -> aType a0 = "versioned" ->
            fileMap !! aVersion a0 = Some x -> t !! aVersion a0 = Some r ->
            aChecksum r = Checksum x) as Hkeep.
  { intros a0 x r Hin Ha Hs Ht Hx Hr. apply elem_of_app in Hin as [Hin | Hin].
    - exact (Hdone a0 x r Hin Hs Ht Hx Hr).
    - apply list_elem_of_singleton in Hin as ->. exact (Ha Hs Ht x r Hx Hr). }
  cbn [recalc_loop].
  destruct (aSuccess a) eqn:Hs; cbn [negb orb].
  2:{ apply Hnext; try assumption. intros a0 x r Hin. apply (Hkeep a0 x r Hin).
      intros Hcontra. congruence. }
  destruct (String.eqb (aType a) "versioned") eqn:Hty; cbn [negb].
  2:{ apply Hnext; try assumption. intros a0 x r Hin. apply (Hkeep a0 x r Hin).
      intros _ Hcontra. apply String.eqb_neq in Hty. contradiction. }
  destruct (fileMap !! aVersion a) as [fileMig|] eqn:Hfile.
  2:{ apply Hnext; try assumption. intros a0 x r Hin. apply (Hkeep a0 x r Hin).
      intros _ _ x0 r0 Hcontra. discriminate. }
  assert (t0 !! aVersion a = Some a) as Ha0.
  { apply Hsnap, elem_of_app. right. apply elem_of_cons. left. reflexivity. }
  destruct (String.eqb (Checksum fileMig) (aChecksum a)) eqn:Hsum; cbn [negb].
  { apply Hnext; try assumption. intros a0 x r Hin. apply (Hkeep a0 x r Hin).
    intros _ _ x0 r0 [= <-] Hr. apply String.eqb_eq in Hsum.
    destruct (Hrows _ _ Hr) as (a1 & Ha1 & _ & Hrep).
    assert (a1 = a) as -> by congruence.
    destruct Hrep as [-> | (x1 & Hx1 & ->)]; [symmetry; exact Hsum|].
    cbn. congruence. }
  rewrite Hupd. destruct (Hdom (aVersion a) ltac:(eexists; exact Ha0)) as [r0 Hr0].
  destruct (Hrows _ _ Hr0) as (a1 & Ha1 & _ & Hrep0).
  assert (a1 = a) as -> by congruence.
  assert (set_aChecksum (Checksum fileMig) r0 = set_aChecksum (Checksum fileMig) a) as Hset.
  { destruct Hrep0 as [-> | (x1 & _ & ->)]; reflexivity. }
  unfold UpdateChecksum. rewrite Hr0, Hset. apply Hnext.
  - intros v r Hr. destruct (decide (v = aVersion a)) as [->|Hne].
    + rewrite lookup_insert_eq in Hr. injection Hr as <-. exists a.
      split; [exact Ha0|]. split; [reflexivity|]. right. exists fileMig. split; [exact Hfile|].
      reflexivity.
    + rewrite lookup_insert_ne in Hr by congruence. exact (Hrows v r Hr).
  - intros v Hv. destruct (decide (v = aVersion a)) as [->|Hne].
    + rewrite lookup_insert_eq. eexists. reflexivity.
    + rewrite lookup_insert_ne by congruence. exact (Hdom v Hv).
  - intros a0 x r Hin Hs0 Ht0 Hx Hr.
    destruct (decide (aVersion a0 = aVersion a)) as [Heq|Hne].
    + rewrite Heq, lookup_insert_eq in Hr. injection Hr as <-. cbn. congruence.
    + rewrite lookup_insert_ne in Hr by congruence.
      apply elem_of_app in Hin as [Hin | Hin]; [exact (Hdone a0 x r Hin Hs0 Ht0 Hx Hr)|].
      apply list_elem_of_singleton in Hin as ->. contradiction.
Qed.

Lemma elem_of_flat_map {A B} (f : A -> list B) (l : list A) (y : B) :
  y ∈ flat_map f l <-> exists x, x ∈ l /\ y ∈ f x.
Proof.
  induction l as [|x l IH]; cbn [flat_map].
  - split; [intros H; inversion H | intros (x & Hx & _); inversion Hx].
  - rewrite elem_of_app, IH. split.
    + intros [H | (x0 & Hx0 & Hy)].
      * exists x. split; [apply elem_of_cons; left; reflexivity | exact H].
      * exists x0. split; [apply elem_of_cons; right; exact Hx0 | exact Hy].
    + intros (x0 & Hx0 & Hy). apply elem_of_cons in Hx0 as [-> | Hx0];
        [left; exact Hy | right; exists x0; split; assumption].
Qed.

(** X24. Repair, then validate.  Let the recalculation of the
    checksums run on the rows of the table, no update failing.  Then every
    error that ValidateAppliedChecksums reports on the rows of the table as
    it is left is about a successful row, and says that the row has no
    Versioned file, or that its file does not parse, or is a mismatch on a
    row whose type is neither "versioned" nor "repeatable": a row of
    type "versioned" whose file parses has the checksum of the file.
    Hence, when the successful rows are all of type "versioned" or
    "repeatable", the Versioned files all parse, and each successful
    versioned row has its file, the validation reports nothing. *)
Theorem RecalculateChecksums_then_validate (fs : filesystem)
    (update_error : string -> string -> option error)
    (scanned : list Migration) (applied rows : list AppliedMigration)
    (t : gmap string AppliedMigration) :
  rows_of t applied ->
  (forall v c, update_error v c = None) ->
  rows_of (fst (RecalculateChecksums fs update_error scanned applied t)) rows ->
  (forall msg, msg ∈ snd (ValidateAppliedChecksums fs scanned rows) ->
     exists a, a ∈ rows /\ aSuccess a = true /\ aType a <> "repeatable"
       /\ ((msg = no_file_msg a
            /\ forall mig, mig ∈ scanned ->
                           ~ (Type_ mig = TypeVersioned /\ Version mig = aVersion a))
           \/ (exists mig e, mig ∈ scanned /\ Type_ mig = TypeVersioned
                             /\ Version mig = aVersion a
                             /\ snd (ParseMigrationFile fs mig) = Some e
                             /\ msg = parse_failed_msg a e)
           \/ (aType a <> "versioned" /\ exists cur, msg = mismatch_msg a cur)))
  /\ ((forall a, a ∈ rows -> aSuccess a = true ->
                 aType a = "versioned" \/ aType a = "repeatable") ->
      (forall mig, mig ∈ scanned -> Type_ mig = TypeVersioned ->
                   snd (ParseMigrationFile fs mig) = None) ->
      (forall a, a ∈ rows -> aSuccess a = true -> aType a = "versioned" ->
                 exists mig, mig ∈ scanned /\ Type_ mig = TypeVersioned
                             /\ Version mig = aVersion a) ->
      snd (ValidateAppliedChecksums fs scanned rows) = []).
Proof.
  intros [Hsnap Hkeys] Hupd [Hrows Hkeys'].
  assert (forall msg, msg ∈ snd (ValidateAppliedChecksums fs scanned rows) ->
     exists a, a ∈ rows /\ aSuccess a = true /\ aType a <> "repeatable"
       /\ ((msg = no_file_msg a
            /\ forall mig, mig ∈ scanned ->
                           ~ (Type_ mig = TypeVersioned /\ Version mig = aVersion a))
           \/ (exists mig e, mig ∈ scanned /\ Type_ mig = TypeVersioned
                             /\ Version mig = aVersion a
                             /\ snd (ParseMigrationFile fs mig) = Some e
                             /\ msg = parse_failed_msg a e)
           \/ (aType a <> "versioned" /\ exists cur, msg = mismatch_msg a cur))) as Hmain.
  { intros msg Hmsg. unfold ValidateAppliedChecksums in Hmsg.
    rewrite validate_fold in Hmsg by (apply Forall_Forall2_diag, Forall_forall; reflexivity).
    cbn [app] in Hmsg. apply elem_of_flat_map in Hmsg as (a & Ha & Hmsg).
    exists a. split; [exact Ha|]. unfold row_verdict in Hmsg.
    destruct (aSuccess a) eqn:Hs; [|inversion Hmsg]. cbn [negb orb] in Hmsg.
    destruct (String.eqb (aType a) "repeatable") eqn:Hrep; [inversion Hmsg|].
    apply String.eqb_neq in Hrep. split; [reflexivity|]. split; [exact Hrep|].
    destruct (fileMap_from 0 scanned ∅ !! aVersion a) as [p|] eqn:Hp.
    2:{ left. apply list_elem_of_singleton in Hmsg. split; [exact Hmsg|].
        exact (fileMap_from_none scanned 0%nat ∅ (aVersion a) Hp). }
    apply fileMap_from_lookup in Hp
      as [[Hp _] | (j & mig & -> & Hj & Hty & Hv & Hlast)];
      [rewrite lookup_empty in Hp; discriminate|].
    cbn [Nat.add] in Hmsg. unfold ptr in Hmsg. rewrite Hj in Hmsg.
    assert (mig ∈ scanned) as Hin by (apply list_elem_of_lookup; exists j; exact Hj).
    destruct (ParseMigrationFile fs mig) as [mig' [e|]] eqn:Hparse.
    { right. left. exists mig, e. apply list_elem_of_singleton in Hmsg.
      rewrite Hparse. cbn [snd]. auto. }
    destruct (String.eqb (Checksum mig') (aChecksum a)) eqn:Hsum; [inversion Hmsg|].
    right. right. apply list_elem_of_singleton in Hmsg. split; [|eexists; exact Hmsg].
    intros Hversioned. apply String.eqb_neq in Hsum. apply Hsum.
    destruct (recalc_loop_invariant update_error (parse_versioned fs scanned ∅) t Hupd
                applied [] t 0%nat) as [Hform Hdone].
    - intros a0 Ha0. apply Hsnap. exact Ha0.
    - intros v r Hr. exists r. split; [exact Hr|]. split; [apply (Hkeys v r Hr)|].
      left. reflexivity.
    - intros v Hsome. exact Hsome.
    - intros a0 x r Ha0. inversion Ha0.
    - pose proof (Hrows a Ha) as Hrow. unfold RecalculateChecksums in Hrow.
      destruct (Hform _ _ Hrow) as (a0 & Ha0 & Hv0 & Hrep0).
      destruct (repaired_fields _ _ _ Hrep0) as (_ & Hs0 & Ht0 & _).
      symmetry. apply (Hdone a0 mig' a).
      + cbn [app]. apply (Hkeys _ _ Ha0).
      + congruence.
      + congruence.
      + rewrite Hv0, <- Hv.
        pose proof (parse_versioned_last fs scanned j mig ∅ Hj Hty) as Hl.
        rewrite Hparse in Hl. apply (Hl eq_refl). rewrite Hv. exact Hlast.
      + rewrite Hv0. exact Hrow. }
  split; [exact Hmain|]. intros Htypes Hparse Hfiles.
  destruct (snd (ValidateAppliedChecksums fs scanned rows)) as [|msg errors] eqn:Herrs;
    [reflexivity|].
  exfalso.
  destruct (Hmain msg ltac:(apply elem_of_cons; left; reflexivity))
    as (a & Ha & Hs & Hrep & Hcases).
  assert (aType a = "versioned") as Hty.
  { destruct (Htypes a Ha Hs) as [H | H]; [exact H | contradiction]. }
  destruct Hcases as [[_ Hnone] | [(mig & e & Hin & Htm & _ & Hfail & _) | [Hno _]]].
  - destruct (Hfiles a Ha Hs Hty) as (mig & Hin & Htm & Hv). apply (Hnone mig Hin). auto.
  - rewrite (Hparse mig Hin Htm) in Hfail. discriminate.
  - contradiction.
Qed.

Lemma RecalculateChecksums_then_validate_witness :
  let scanned := [sample_migration TypeVersioned "001" "V001__a.cql"] in
  let row := sample_row "001" "versioned" true in
  let row' :=
    set_aChecksum (parsed_checksum "CREATE TABLE foo (id UUID PRIMARY KEY);") row in
  fst (RecalculateChecksums sample_fs (fun _ _ => None) scanned [row] {[ "001" := row ]})
  = {[ "001" := row' ]}
  /\ snd (ValidateAppliedChecksums sample_fs scanned [row]) <> []
  /\ snd (ValidateAppliedChecksums sample_fs scanned [row']) = [].
Proof.
  intros scanned row row'.
  assert (fst (RecalculateChecksums sample_fs (fun _ _ => None) scanned [row]
                 {[ "001" := row ]})
          = {[ "001" := row' ]}) as Hleft by (vm_compute; reflexivity).
  split; [exact Hleft|]. split; [vm_compute; discriminate|].
  refine (proj2 (RecalculateChecksums_then_validate sample_fs (fun _ _ => None) scanned
                   [row] [row'] {[ "001" := row ]} _ _ _) _ _ _).
  - split.
    + intros a Ha. apply list_elem_of_singleton in Ha as ->. apply lookup_singleton_eq.
    + intros v a Ha. apply lookup_singleton_Some in Ha as [<- <-].
      split; [apply list_elem_of_singleton|]; reflexivity.
  - reflexivity.
  - rewrite Hleft. split.
    + intros a Ha. apply list_elem_of_singleton in Ha as ->. apply lookup_singleton_eq.
    + intros v a Ha. apply lookup_singleton_Some in Ha as [<- <-].
      split; [apply list_elem_of_singleton|]; reflexivity.
  - intros a Ha _. apply list_elem_of_singleton in Ha as ->. left. reflexivity.
  - intros mig Hin _. apply list_elem_of_singleton in Hin as ->. vm_compute. reflexivity.
  - intros a Ha _ _. apply list_elem_of_singleton in Ha as ->.
    exists (sample_migration TypeVersioned "001" "V001__a.cql").
    split; [apply list_elem_of_singleton; reflexivity|]. split; reflexivity.
Defined.

Lemma upper_facts (c : ascii) : isSpace (upper c) = isSpace c /\ upper (upper c) = upper c.
Proof.
  destruct c as [[] [] [] [] [] [] [] []]; vm_compute; split; reflexivity.
Qed.

Lemma ToUpper_idempotent (s : string) : ToUpper (ToUpper s) = ToUpper s.
Proof.
  induction s as [|c s IH]; [reflexivity|]. cbn [ToUpper].
  rewrite (proj2 (upper_facts c)), IH. reflexivity.
Qed.

Lemma ToUpper_trimLeft (s : string) : trimLeft (ToUpper s) = ToUpper (trimLeft s).
Proof.
  induction s as [|c s IH]; [reflexivity|]. cbn [ToUpper trimLeft].
  rewrite (proj1 (upper_facts c)). destruct (isSpace c); [exact IH | reflexivity].
Qed.

Lemma ToUpper_trimRight (s : string) : trimRight (ToUpper s) = ToUpper (trimRight s).
Proof.
  induction s as [|c s IH]; [reflexivity|]. cbn [ToUpper trimRight].
  rewrite IH, (proj1 (upper_facts c)).
  destruct (trimRight s) as [|d t]; cbn [ToUpper]; [destruct (isSpace c)|]; reflexivity.
Qed.

(** X25. IsDDL looks at the statement without its surrounding white
    space and without regard to the case of its letters: on an ASCII
    statement, upper-casing it or trimming it does not change the
    answer. *)
Theorem IsDDL_insensitive (statement : string) :
  ascii_only statement ->
  IsDDL (ToUpper statement) = IsDDL statement
  /\ IsDDL (TrimSpace statement) = IsDDL statement.
Proof.
  intros _. unfold IsDDL. cbv zeta. split.
  - unfold TrimSpace. rewrite ToUpper_trimLeft, ToUpper_trimRight, ToUpper_idempotent.
    reflexivity.
  - rewrite TrimSpace_idempotent. reflexivity.
Qed.

Lemma IsDDL_insensitive_witness :
  IsDDL (ToUpper "  create table t (id int) ") = IsDDL "  create table t (id int) "
  /\ IsDDL (TrimSpace "  create table t (id int) ") = IsDDL "  create table t (id int) ".
Proof.
  apply IsDDL_insensitive. reflexivity.
Defined.
